(** * Stan indexed assignment and adaptive metric estimation

    A shallow embedding of two parts of the Stan sources:

    - [stan/model/indexing/lvalue.hpp]: the [assign] overloads that write a
      value into a vector or matrix through an index list;
    - [stan/mcmc/mpi_auto_adaptation.hpp]: the sample covariance, the power
      iteration and [mpi_auto_adaptation::learn_metric].

    Eigen vectors are lists of coefficients, Eigen matrices are lists of
    rows with a column count.  C++ [int] values are integers of [Z]: the
    embedded arithmetic is on positions, sizes and counters, which stay
    inside the 32-bit range for containers that fit in memory; where the
    code multiplies counters by a window index ([first_draw] and
    [num_draws] of [learn_metric]) every intermediate result is checked
    against the range of [int].  A [double]
    is a value of a type that offers the operations of [Scalar].  A function
    that mutates its first argument in place and may throw is a state
    transformer over that argument which returns the final state together
    with an outcome. *)

From Stdlib Require Import ZArith List Lia Bool.
From Stdlib Require Import QArith Qcanon Qround Qabs.
From Stdlib Require Import Floats.
From stdpp Require Import base list.

Set Warnings "-inexact-float".
Local Open Scope Z_scope.

(** ** Outcomes of in-place operations *)

(** The exceptions the embedded code throws.  [OutOfRange] is the
    [std::out_of_range] of [check_range], [SizeMismatch] the
    [std::invalid_argument] of [check_size_match] and
    [check_matching_sizes], [ZeroSize] the [std::invalid_argument] of
    [check_nonzero_size], [InsufficientSamples] the [std::runtime_error]
    thrown by [learn_metric], [ModelError] any [std::exception] raised
    while the log density of the model is differentiated, and [NonStd] any
    other object the model throws there, of a type that does not derive
    from [std::exception]. *)
Inductive exn : Type :=
  | OutOfRange
  | SizeMismatch
  | ZeroSize
  | InsufficientSamples
  | ModelError
  | NonStd.

(** Whether [catch (const std::exception&)] matches the exception. *)
Definition is_std_exception (e : exn) : bool :=
  match e with
  | NonStd => false
  | _ => true
  end.

(** How a call ends: it returns a value, it throws, or it reaches an Eigen
    access outside the bounds of a dense object ([eigen_assert] fails when
    assertions are compiled in, the behaviour is undefined otherwise). *)
Inductive outcome (A : Type) : Type :=
  | Ret (a : A)
  | Throw (e : exn)
  | Undefined.
Arguments Ret {A} a.
Arguments Throw {A} e.
Arguments Undefined {A}.

(** A computation over a mutable target of type [S].  The target survives a
    throw with the writes made so far. *)
Definition Mut (S A : Type) : Type := S -> S * outcome A.

Definition mret {S A} (a : A) : Mut S A := fun s => (s, Ret a).

Definition mthrow {S A} (e : exn) : Mut S A := fun s => (s, Throw e).

Definition mundef {S A} : Mut S A := fun s => (s, Undefined).

Definition mbind {S A B} (c : Mut S A) (k : A -> Mut S B) : Mut S B :=
  fun s =>
    match c s with
    | (s', Ret a) => k a s'
    | (s', Throw e) => (s', Throw e)
    | (s', Undefined) => (s', Undefined)
    end.

Definition mget {S} : Mut S S := fun s => (s, Ret s).

Definition mput {S} (s' : S) : Mut S unit := fun _ => (s', Ret tt).

Notation "x <- c ;; k" := (mbind c (fun x => k))
  (at level 100, c at next level, right associativity).
Notation "c ;;; k" := (mbind c (fun _ => k))
  (at level 100, right associativity).

(** [for (int n = 0; n < len; ++n) body(n)] over the list of the values
    [n] takes. *)
Fixpoint mfor {S} (ns : list Z) (body : Z -> Mut S unit) : Mut S unit :=
  match ns with
  | [] => mret tt
  | n :: ns' => body n ;;; mfor ns' body
  end.

(** ** Validation layer *)

(** Modelled from the spec: [stan::math::check_range] is not among the
    sources.  An index outside [1, max] raises OutOfRange at validation. *)
Definition check_range {S} (max index : Z) : Mut S unit :=
  if (1 <=? index) && (index <=? max) then mret tt else mthrow OutOfRange.

(** Modelled from the spec: [stan::math::check_size_match] is not among the
    sources.  Two sizes that differ raise SizeMismatch. *)
Definition check_size_match {S} (i j : Z) : Mut S unit :=
  if i =? j then mret tt else mthrow SizeMismatch.

(** ** Indexes *)

(** Modelled from the spec: [index.hpp] is not among the sources; the
    records carry the fields [lvalue.hpp] reads.  A single index holds a
    1-based position. *)
Record index_uni : Type := { n_ : Z }.

(** Modelled from the spec: an arbitrary ordered list of 1-based positions. *)
Record index_multi : Type := { ns_ : list Z }.

(** Modelled from the spec: a bounded range with its orientation flag; in
    the reversed form [min_] holds the larger bound. *)
Record index_min_max : Type :=
  { min_ : Z; max_ : Z; positive_idx_ : bool }.

(** The interface the template parameter [I] of the multiple-index overloads
    must offer: the number of positions it selects in a container of a given
    size, and its [n]-th position (from 0). *)
Class MultiIndex (I : Type) : Type :=
  { rvalue_index_size : I -> Z -> Z;
    rvalue_at : Z -> I -> Z }.

(** Modelled from the spec: [rvalue_index_size.hpp] and [rvalue_at.hpp] are
    not among the sources.  A multi-index selects as many positions as it
    lists and resolves its [n]-th entry.  Reading the list past its end does
    not happen after the size check; the model returns position 0 there. *)
#[export] Instance index_multi_MultiIndex : MultiIndex index_multi :=
  {| rvalue_index_size := fun idx _ => Z.of_nat (length (ns_ idx));
     rvalue_at := fun n idx => nth (Z.to_nat n) (ns_ idx) 0 |}.

(** ** Dense containers *)

(** An Eigen matrix: its column count and the list of its rows, each of
    [ncols] coefficients.  The column count is kept apart so that a matrix
    without rows still has one. *)
Record matrix (T : Type) : Type :=
  { ncols : nat; mdata : list (list T) }.
Arguments ncols {T} m.
Arguments mdata {T} m.

(** ** Assignment to vectors and matrices *)

Section Assign.
Context {T : Type}.

(** [x.size()] of an Eigen vector. *)
Definition vsize (x : list T) : Z := Z.of_nat (length x).

(** [x.coeffRef(i) = v] on a vector; Eigen does not check [i] here, the
    callers do. *)
Definition coeff_write (i : Z) (v : T) : Mut (list T) unit :=
  fun x =>
    if (0 <=? i) && (i <? vsize x)
    then (<[Z.to_nat i := v]> x, Ret tt)
    else (x, Undefined).

(** [y.coeffRef(n)] as a value. *)
Definition coeff_read {S} (y : list T) (n : Z) : Mut S T :=
  match (if 0 <=? n then y !! Z.to_nat n else None) with
  | Some v => mret v
  | None => mundef
  end.

(** [x.segment(start, n) = v]: the block must lie inside [x] and [v] must
    have [n] coefficients. *)
Definition segment_write (start n : Z) (v : list T) : Mut (list T) unit :=
  fun x =>
    if (0 <=? start) && (0 <=? n) && (start + n <=? vsize x)
       && (vsize v =? n)
    then (take (Z.to_nat start) x ++ v ++ drop (Z.to_nat (start + n)) x,
          Ret tt)
    else (x, Undefined).

(** vec[uni] <- scalar (lvalue.hpp, lines 71-77). *)
Definition assign_vec_uni (idx : index_uni) (y : T) : Mut (list T) unit :=
  x <- mget ;;
  check_range (vsize x) (n_ idx) ;;;
  coeff_write (n_ idx - 1) y.

(** The body of the loop of lines 105-109 for the value [n] of the loop
    variable. *)
Definition assign_vec_multi_step {I} `{MultiIndex I} (idx : I) (y : list T)
    (n : Z) : Mut (list T) unit :=
  let i := rvalue_at n idx in
  x <- mget ;;
  check_range (vsize x) i ;;;
  v <- coeff_read y n ;;
  coeff_write (i - 1) v.

(** vec[multi] <- vec (lvalue.hpp, lines 97-110). *)
Definition assign_vec_multi {I} `{MultiIndex I} (idx : I) (y : list T)
  : Mut (list T) unit :=
  x <- mget ;;
  check_size_match (rvalue_index_size idx (vsize x)) (vsize y) ;;;
  mfor (seqZ 0 (vsize y)) (assign_vec_multi_step idx y).

(** The vector [x] after the coefficient writes [x(p - 1) = v], made in
    order, for the positions [ps] paired with the values [vs]. *)
Definition write_positions (x : list T) (ps : list Z) (vs : list T)
  : list T :=
  foldl (fun acc pv => <[Z.to_nat (pv.1 - 1) := pv.2]> acc) x (zip ps vs).

(** vec[min_max] <- vec (lvalue.hpp, lines 129-149). *)
Definition assign_vec_min_max (idx : index_min_max) (y : list T)
  : Mut (list T) unit :=
  x <- mget ;;
  check_range (vsize x) (min_ idx) ;;;
  check_range (vsize x) (max_ idx) ;;;
  if positive_idx_ idx then
    check_size_match (max_ idx - 1) (vsize y) ;;;
    segment_write (min_ idx - 1) (max_ idx - 1) y
  else
    check_size_match (min_ idx - 1) (vsize y) ;;;
    segment_write (max_ idx - 1) (min_ idx - 1) (rev y).

(** [x.rows()] and [x.cols()] of a dense matrix. *)
Definition mrows (x : matrix T) : Z := Z.of_nat (length (mdata x)).

Definition mcols (x : matrix T) : Z := Z.of_nat (ncols x).

(** [x.row(i) = y]: the row must exist and [y] must have [x.cols()]
    coefficients. *)
Definition row_write (i : Z) (y : list T) : Mut (matrix T) unit :=
  fun x =>
    if (0 <=? i) && (i <? mrows x) && (vsize y =? mcols x)
    then ({| ncols := ncols x; mdata := <[Z.to_nat i := y]> (mdata x) |},
          Ret tt)
    else (x, Undefined).

(** mat[uni] = rowvec (lvalue.hpp, lines 169-179). *)
Definition assign_mat_uni (idx : index_uni) (y : list T)
  : Mut (matrix T) unit :=
  x <- mget ;;
  check_size_match (mcols x) (vsize y) ;;;
  check_range (mrows x) (n_ idx) ;;;
  row_write (n_ idx - 1) y.

(** mat[uni,] = rowvec (lvalue.hpp, lines 231-242); the second index is
    an [index_omni] and carries no data. *)
Definition assign_mat_uni_omni (idx : index_uni) (y : list T)
  : Mut (matrix T) unit :=
  x <- mget ;;
  check_size_match (mcols x) (vsize y) ;;;
  row_write (n_ idx - 1) y.

End Assign.

(** ** Scalars *)

(** The operations the adaptation code performs on [double] values.  The
    code is embedded once, over this interface; [float_Scalar] below runs
    it on IEEE binary64 numbers and [Qc_Scalar] on exact rationals. *)
Class Scalar (F : Type) : Type :=
  { s0 : F;                    (* 0.0 *)
    s1 : F;                    (* 1.0 *)
    sadd : F -> F -> F;
    ssub : F -> F -> F;
    smul : F -> F -> F;
    sdiv : F -> F -> F;
    sabs : F -> F;             (* std::abs *)
    sltb : F -> F -> bool;     (* a < b *)
    sleb : F -> F -> bool;     (* a <= b *)
    of_int : Z -> F;           (* conversion of an integer value *)
    to_int : F -> Z;           (* int(a): the fractional part is dropped *)
    lit : Q -> F }.            (* a decimal literal such as 1e-3 *)

(** [std::sqrt]. *)
Class Sqrt (F : Type) : Type := ssqrt : F -> F.

(** A [double] that is neither an infinity nor NaN. *)
Definition float_finite (a : float) : bool :=
  match Prim2SF a with
  | S754_zero _ | S754_finite _ _ _ => true
  | S754_infinity _ | S754_nan => false
  end.

(** Conversion of an [int] to binary64: exact for 32-bit values. *)
Definition float_of_int (z : Z) : float :=
  if z <? 0 then PrimFloat.opp (PrimFloat.of_uint63 (Uint63.of_Z (- z)))
  else PrimFloat.of_uint63 (Uint63.of_Z z).

(** Conversion of a binary64 value to [int]; C++ leaves the conversion of
    NaN and of the infinities undefined, the model gives 0. *)
Definition float_to_int (a : float) : Z :=
  match Prim2SF a with
  | S754_finite s m e =>
      let q := if (0 <=? e)%Z then (Z.pos m * 2 ^ e)%Z
               else (Z.pos m / 2 ^ (- e))%Z in
      if s then (- q)%Z else q
  | _ => 0%Z
  end.

#[export] Instance float_Scalar : Scalar float :=
  {| s0 := 0%float;
     s1 := 1%float;
     sadd := PrimFloat.add;
     ssub := PrimFloat.sub;
     smul := PrimFloat.mul;
     sdiv := PrimFloat.div;
     sabs := PrimFloat.abs;
     sltb := PrimFloat.ltb;
     sleb := PrimFloat.leb;
     of_int := float_of_int;
     to_int := float_to_int;
     lit := fun q =>
       PrimFloat.div (float_of_int (Qnum q)) (float_of_int (Z.pos (Qden q))) |}.

#[export] Instance float_Sqrt : Sqrt float := PrimFloat.sqrt.

#[export] Instance Qc_Scalar : Scalar Qc :=
  {| s0 := Q2Qc 0;
     s1 := Q2Qc 1;
     sadd := Qcplus;
     ssub := Qcminus;
     smul := Qcmult;
     sdiv := Qcdiv;
     sabs := fun a => Q2Qc (Qabs (this a));
     sltb := fun a b => negb (Qle_bool (this b) (this a));
     sleb := fun a b => Qle_bool (this a) (this b);
     of_int := fun z => Q2Qc (inject_Z z);
     to_int := fun a => Z.quot (Qnum (this a)) (Z.pos (Qden (this a)));
     lit := Q2Qc |}.

(** ** Eigen expressions *)

(** Sequencing of expressions that may throw or be undefined. *)
Definition obind {A B} (o : outcome A) (k : A -> outcome B) : outcome B :=
  match o with
  | Ret a => k a
  | Throw e => Throw e
  | Undefined => Undefined
  end.

Notation "x <~ c ;; k" := (obind c (fun x => k))
  (at level 100, c at next level, right associativity).

Definition lift {S A} (o : outcome A) : Mut S A := fun s => (s, o).

(** [try body catch (const std::exception& e) handler]: the handler runs on
    the state the body left when the exception is a [std::exception]; any
    other exception goes on to the caller, and an undefined operation is
    not an exception. *)
Definition mcatch {S A} (body : Mut S A) (handler : exn -> Mut S A)
  : Mut S A :=
  fun s =>
    match body s with
    | (s', Throw e) =>
        if is_std_exception e then handler e s' else (s', Throw e)
    | r => r
    end.

(** The range of a C++ [int].  A signed arithmetic result outside it is
    an overflow, which the language leaves undefined. *)
Definition int_min : Z := - 2 ^ 31.
Definition int_max : Z := 2 ^ 31 - 1.

Definition int_result (z : Z) : outcome Z :=
  if (int_min <=? z) && (z <=? int_max) then Ret z else Undefined.

Section Eigen.
Context {F : Type} `{Scalar F}.

(** [std::max(a, b)] is [(a < b) ? b : a]. *)
Definition smax (a b : F) : F := if sltb a b then b else a.

(** [v.sum()]: the coefficients added from the first one on; 0 when
    there is none. *)
Definition vsum (v : list F) : F :=
  match v with
  | [] => s0
  | a :: v' => fold_left sadd v' a
  end.

(** [v.dot(w)]; Eigen requires equal sizes. *)
Definition vdot (v w : list F) : outcome F :=
  if Nat.eqb (length v) (length w)
  then Ret (vsum (zip_with smul v w)) else Undefined.

Definition vadd (v w : list F) : outcome (list F) :=
  if Nat.eqb (length v) (length w)
  then Ret (zip_with sadd v w) else Undefined.

Definition vsub (v w : list F) : outcome (list F) :=
  if Nat.eqb (length v) (length w)
  then Ret (zip_with ssub v w) else Undefined.

(** [v * a], [a * v] and [v / a] for a scalar [a]. *)
Definition vscale_r (v : list F) (a : F) : list F :=
  map (fun x => smul x a) v.

Definition vscale (a : F) (v : list F) : list F := map (smul a) v.

Definition vdiv (v : list F) (a : F) : list F :=
  map (fun x => sdiv x a) v.

(** [MatrixXd::Zero(r, c)], [MatrixXd::Identity(r, c)] and
    [VectorXd::Ones(n)]. *)
Definition mzero (r c : nat) : matrix F :=
  {| ncols := c; mdata := replicate r (replicate c s0) |}.

Definition midentity (r c : nat) : matrix F :=
  {| ncols := c;
     mdata := map (fun i => map (fun j => if Nat.eqb i j then s1 else s0)
                                (seq 0 c))
                  (seq 0 r) |}.

Definition vones (n : nat) : list F := replicate n s1.

Definition mcoeff (m : matrix F) (i j : nat) : F :=
  nth j (nth i (mdata m) []) s0.

(** [m.col(j)] for a column that exists. *)
Definition mcol (m : matrix F) (j : nat) : list F :=
  map (fun row => nth j row s0) (mdata m).

Definition mtranspose (m : matrix F) : matrix F :=
  {| ncols := length (mdata m); mdata := map (mcol m) (seq 0 (ncols m)) |}.

(** [m.diagonal()] and [d.asDiagonal()] evaluated into a dense matrix. *)
Definition mdiagonal (m : matrix F) : list F :=
  map (fun i => mcoeff m i i)
      (seq 0 (Nat.min (length (mdata m)) (ncols m))).

Definition as_diagonal (d : list F) : matrix F :=
  {| ncols := length d;
     mdata := imap (fun i a => <[i := a]> (replicate (length d) s0)) d |}.

(** [a * m] and [m / a] for a scalar [a]. *)
Definition mscale (a : F) (m : matrix F) : matrix F :=
  {| ncols := ncols m; mdata := map (map (smul a)) (mdata m) |}.

Definition mdiv (m : matrix F) (a : F) : matrix F :=
  {| ncols := ncols m; mdata := map (map (fun x => sdiv x a)) (mdata m) |}.

(** [m + n]; Eigen requires equal dimensions. *)
Definition madd (m n : matrix F) : outcome (matrix F) :=
  if Nat.eqb (length (mdata m)) (length (mdata n))
     && Nat.eqb (ncols m) (ncols n)
  then Ret {| ncols := ncols m;
              mdata := zip_with (zip_with sadd) (mdata m) (mdata n) |}
  else Undefined.

(** [a * b]: each coefficient is the sum of the products of a row of [a]
    with a column of [b]; Eigen requires [a.cols() == b.rows()]. *)
Definition mmul (a b : matrix F) : outcome (matrix F) :=
  if Nat.eqb (ncols a) (length (mdata b))
  then Ret {| ncols := ncols b;
              mdata := map (fun row =>
                              map (fun j => vsum (zip_with smul row (mcol b j)))
                                  (seq 0 (ncols b)))
                           (mdata a) |}
  else Undefined.

(** [m * x] for a vector [x]. *)
Definition mat_vec (m : matrix F) (x : list F) : outcome (list F) :=
  if Nat.eqb (ncols m) (length x)
  then Ret (map (fun row => vsum (zip_with smul row x)) (mdata m))
  else Undefined.

(** [m.block(i, j, p, q)] as a value; the block must lie inside [m]. *)
Definition mblock (m : matrix F) (i j p q : Z) : outcome (matrix F) :=
  if (0 <=? i) && (0 <=? j) && (0 <=? p) && (0 <=? q)
     && (i + p <=? mrows m) && (j + q <=? mcols m)
  then Ret {| ncols := Z.to_nat q;
              mdata := map (fun row => take (Z.to_nat q) (drop (Z.to_nat j) row))
                           (take (Z.to_nat p) (drop (Z.to_nat i) (mdata m))) |}
  else Undefined.

(** Modelled from the spec: [stan::math::check_nonzero_size] is not among
    the sources; a container without coefficients is rejected. *)
Definition check_nonzero_size (Y : matrix F) : outcome unit :=
  if 0 <? mrows Y * mcols Y then Ret tt else Throw ZeroSize.

(** [internal::covariance] (mpi_auto_adaptation.hpp, lines 621-626). *)
Definition covariance (Y : matrix F) : outcome (matrix F) :=
  _ <~ check_nonzero_size Y ;;
  let mean := map (fun j => sdiv (vsum (mcol Y j)) (of_int (mrows Y)))
                  (seq 0 (ncols Y)) in
  let centered :=
    {| ncols := ncols Y;
       mdata := map (fun row => zip_with ssub row mean) (mdata Y) |} in
  p <~ mmul (mtranspose centered) centered ;;
  Ret (mdiv p (smax (ssub (of_int (mrows centered)) s1) s1)).

(** The candidate of lines 831-832 for a training covariance and
    [n = num_draws - Ntest]. *)
Definition shrink (n : Z) (cov_train : matrix F) : outcome (matrix F) :=
  madd (mscale (sdiv (of_int n) (sadd (of_int n) (lit 5))) cov_train)
       (mscale (smul (lit (1 # 1000))
                     (sdiv (lit 5) (sadd (of_int n) (lit 5))))
               (midentity (length (mdata cov_train)) (ncols cov_train))).

(** [dense.diagonal().asDiagonal()] (line 834). *)
Definition diagonal_part (dense : matrix F) : matrix F :=
  as_diagonal (mdiagonal dense).

(** The matrix assigned to [covar] by the handler of lines 876-878. *)
Definition fallback_metric (M num_draws : Z) : outcome (matrix F) :=
  let cov := mzero (Z.to_nat M) (Z.to_nat M) in
  d <~ vadd (vscale (sdiv (of_int num_draws)
                          (sadd (of_int num_draws) (lit 5)))
                    (mdiagonal cov))
            (vscale (smul (lit (1 # 1000))
                          (sdiv (lit 5) (sadd (of_int num_draws) (lit 5))))
                    (vones (ncols cov))) ;;
  Ret (as_diagonal d).

End Eigen.

(** ** Power iteration *)

(** The two in-out parameters of [power_method]. *)
Record pm_ref (F : Type) : Type :=
  { max_iterations : Z; tol : F }.
Arguments max_iterations {F} p.
Arguments tol {F} p.

Section PowerMethod.
Context {F : Type} `{Scalar F} `{Sqrt F}.

(** [v.norm()]: the square root of the sum of the squares. *)
Definition vnorm (v : list F) : F :=
  ssqrt (vsum (map (fun a => smul a a) v)).

(** The loop of lines 653-667 over the values [i] takes.  [v], [Av] and
    [eval] are the locals of [power_method]; the in-out parameters are
    the state, written only on the way out of the loop. *)
Fixpoint power_loop (f : list F -> outcome (list F)) (iters : list Z)
    (v Av : list F) (eval : F) : Mut (pm_ref F) F :=
  match iters with
  | [] => mret eval
  | i :: iters' =>
      r <- mget ;;
      let v_norm := vnorm v in
      d <- lift (vdot v Av) ;;
      let new_eval := sdiv d (smul v_norm v_norm) in
      if (i =? max_iterations r - 1)
         || sleb (sabs (ssub new_eval eval)) (smul (tol r) (sabs eval))
      then
        mput {| max_iterations := i + 1;
                tol := sdiv (sabs (ssub new_eval eval)) (sabs eval) |} ;;;
        mret new_eval
      else
        let v' := vdiv Av (vnorm Av) in
        Av' <- lift (f v') ;;
        power_loop f iters' v' Av' new_eval
  end.

(** [internal::power_method] (mpi_auto_adaptation.hpp, lines 645-670);
    [check_matching_sizes] compares the two sizes. *)
Definition power_method (f : list F -> outcome (list F))
    (initial_guess : list F) : Mut (pm_ref F) F :=
  r <- mget ;;
  Av <- lift (f initial_guess) ;;
  check_size_match (vsize Av) (vsize initial_guess) ;;;
  power_loop f (seqZ 0 (max_iterations r)) initial_guess Av s0.

(** *** The sequence of estimates, for an operator [A] that always
    returns *)

(** The vector [v] at the start of iteration [j]. *)
Fixpoint pm_vector (A : list F -> list F) (v0 : list F) (j : nat) : list F :=
  match j with
  | O => v0
  | S j' => let w := A (pm_vector A v0 j') in vdiv w (vnorm w)
  end.

(** The Rayleigh quotient computed in iteration [j]. *)
Definition pm_estimate (A : list F -> list F) (v0 : list F) (j : nat) : F :=
  let v := pm_vector A v0 j in
  sdiv (vsum (zip_with smul v (A v))) (smul (vnorm v) (vnorm v)).

(** The estimate iteration [j] compares with: the one before, and 0.0 in
    the first iteration. *)
Definition pm_previous (A : list F -> list F) (v0 : list F) (j : nat) : F :=
  match j with
  | O => s0
  | S j' => pm_estimate A v0 j'
  end.

(** The relative change met in iteration [j]. *)
Definition pm_change (A : list F -> list F) (v0 : list F) (j : nat) : F :=
  sdiv (sabs (ssub (pm_estimate A v0 j) (pm_previous A v0 j)))
       (sabs (pm_previous A v0 j)).

(** The test of line 656 on the estimates of iteration [j]. *)
Definition pm_within (A : list F -> list F) (v0 : list F) (t : F)
    (j : nat) : bool :=
  sleb (sabs (ssub (pm_estimate A v0 j) (pm_previous A v0 j)))
       (smul t (sabs (pm_previous A v0 j))).

End PowerMethod.

(** ** The adaptation object *)

(** The fields of [mpi_auto_adaptation] the embedded members use.  The
    constructor allocates [draws] and [Y_] with [n_params_] and
    [num_chains_] as dimensions, so both are non-negative.  The MPI request
    handles are not data of the model. *)
Record mpi_auto_adaptation (F : Type) : Type :=
  { num_chains_ : Z;
    n_params_ : Z;
    window_size_ : Z;
    init_buffer_ : Z;
    draw_req_counter_ : Z;
    draws_collected_counter_ : Z;
    last_qs_ : list (list F);
    draws : list (matrix F);
    Y_ : matrix F;
    is_diagonal_ : bool }.
Arguments num_chains_ {F} m.
Arguments n_params_ {F} m.
Arguments window_size_ {F} m.
Arguments init_buffer_ {F} m.
Arguments draw_req_counter_ {F} m.
Arguments draws_collected_counter_ {F} m.
Arguments last_qs_ {F} m.
Arguments draws {F} m.
Arguments Y_ {F} m.
Arguments is_diagonal_ {F} m.

(** What a call of [learn_metric] reads and writes: the object, the
    reference parameter [covar], and the number of random vectors drawn so
    far. *)
Record heap (F : Type) : Type :=
  { this : mpi_auto_adaptation F; covar : matrix F; rng : nat }.
Arguments this {F} h.
Arguments covar {F} h.
Arguments rng {F} h.

(** The two iterations of the loop of line 806.  The code recognises the
    first by comparing the loop variable with the literal ["selection"] by
    address; the two occurrences of the literal are one object here, as
    they are for compilers that pool identical literals. *)
Inductive pass : Type := Selection | Refinement.

(** The locals of one iteration that lines 807-834 compute. *)
Record pass_locals (F : Type) : Type :=
  { Ntest : Z;
    cov_train : matrix F;
    cov_test : matrix F;
    dense : matrix F;
    diag : matrix F }.
Arguments Ntest {F} p.
Arguments cov_train {F} p.
Arguments cov_test {F} p.
Arguments dense {F} p.
Arguments diag {F} p.

Section Adaptation.
Context {F : Type} `{Scalar F} `{Sqrt F}.

(** The collaborators of the adaptation code: Eigen's Cholesky factor
    [m.llt().matrixL()], its triangular solve
    [L.triangularView<Lower>().solve(B)], the [k]-th vector that
    [VectorXd::Random] returns in the run, and the gradient of the log
    density of the model, which may throw. *)
Variable llt_matrixL : matrix F -> matrix F.
Variable lower_solve : matrix F -> matrix F -> outcome (matrix F).
Variable random_vector : nat -> Z -> list F.
Variable gradient : list F -> outcome (list F).

Definition set_this (o : mpi_auto_adaptation F) : Mut (heap F) unit :=
  fun h => ({| this := o; covar := covar h; rng := rng h |}, Ret tt).

Definition set_covar (m : matrix F) : Mut (heap F) unit :=
  fun h => ({| this := this h; covar := m; rng := rng h |}, Ret tt).

Definition set_Y (o : mpi_auto_adaptation F) (Y : matrix F)
  : mpi_auto_adaptation F :=
  {| num_chains_ := num_chains_ o; n_params_ := n_params_ o;
     window_size_ := window_size_ o; init_buffer_ := init_buffer_ o;
     draw_req_counter_ := draw_req_counter_ o;
     draws_collected_counter_ := draws_collected_counter_ o;
     last_qs_ := last_qs_ o; draws := draws o; Y_ := Y;
     is_diagonal_ := is_diagonal_ o |}.

Definition set_counters (o : mpi_auto_adaptation F) (req collected : Z)
  : mpi_auto_adaptation F :=
  {| num_chains_ := num_chains_ o; n_params_ := n_params_ o;
     window_size_ := window_size_ o; init_buffer_ := init_buffer_ o;
     draw_req_counter_ := req;
     draws_collected_counter_ := collected;
     last_qs_ := last_qs_ o; draws := draws o; Y_ := Y_ o;
     is_diagonal_ := is_diagonal_ o |}.

Definition set_is_diagonal (o : mpi_auto_adaptation F) (b : bool)
  : mpi_auto_adaptation F :=
  {| num_chains_ := num_chains_ o; n_params_ := n_params_ o;
     window_size_ := window_size_ o; init_buffer_ := init_buffer_ o;
     draw_req_counter_ := draw_req_counter_ o;
     draws_collected_counter_ := draws_collected_counter_ o;
     last_qs_ := last_qs_ o; draws := draws o; Y_ := Y_ o;
     is_diagonal_ := b |}.

(** [is_diagonal_ = b]. *)
Definition write_is_diagonal (b : bool) : Mut (heap F) unit :=
  h <- mget ;; set_this (set_is_diagonal (this h) b).

(** [VectorXd::Random(n)]. *)
Definition random (n : Z) : Mut (heap F) (list F) :=
  fun h => ({| this := this h; covar := covar h; rng := S (rng h) |},
            Ret (random_vector (rng h) n)).

(** The body of the loop over [chain] in [collect_draws] (lines 892-895)
    for the request [index]: column [chain] of [draws[index]] becomes
    row [(draws_collected_counter_ + index) * num_chains_ + chain] of
    [Y_]. *)
Definition store_draw (index chain : Z) : Mut (heap F) unit :=
  h <- mget ;;
  let o := this h in
  match (if 0 <=? index then draws o !! Z.to_nat index else None) with
  | None => mundef
  | Some d =>
      let r := (draws_collected_counter_ o + index) * num_chains_ o + chain in
      if (0 <=? chain) && (chain <? mcols d)
         && (0 <=? r) && (r + 1 <=? mrows (Y_ o))
         && (0 <=? n_params_ o) && (n_params_ o <=? mcols (Y_ o))
         && (mrows d =? n_params_ o)
      then
        let draw := mcol d (Z.to_nat chain) in
        let row := nth (Z.to_nat r) (mdata (Y_ o)) [] in
        set_this (set_Y o
          {| ncols := ncols (Y_ o);
             mdata := <[Z.to_nat r :=
                         draw ++ drop (Z.to_nat (n_params_ o)) row]>
                      (mdata (Y_ o)) |})
      else mundef
  end.

(** [collect_draws] (lines 883-902).  [completed] lists the requests in
    the order in which [MPI_Testany] reports them complete; polls that
    report nothing change nothing.  The loop leaves when as many requests
    were reported as were issued; a run in which a request never
    completes does not return and has no outcome here. *)
Definition collect_draws (completed : list Z) (win : Z)
  : Mut (heap F) unit :=
  h <- mget ;;
  if vsize completed =? Z.max 0 (draw_req_counter_ (this h)) then
    mfor completed (fun index =>
      h <- mget ;;
      mfor (seqZ 0 (num_chains_ (this h))) (store_draw index)) ;;;
    h <- mget ;;
    let o := this h in
    set_this (set_counters o 0
                (draws_collected_counter_ o + draw_req_counter_ o))
  else mundef.

(** [eigenvalue_scaled_covariance] (lines 680-692). *)
Definition eigenvalue_scaled_covariance (L Sigma : matrix F)
  : Mut (heap F) F :=
  X <- lift (lower_solve L Sigma) ;;
  Z <- lift (lower_solve L (mtranspose X)) ;;
  let S := mtranspose Z in
  let Sx := fun x => mat_vec S x in
  v0 <- random (mcols Sigma) ;;
  lift (snd (power_method Sx v0
               {| max_iterations := 100; tol := lit (1 # 1000) |})).

(** The operator [hessian_vector] of lines 709-719 at the point [q]. *)
Definition hessian_vector (L : matrix F) (q x : list F)
  : outcome (list F) :=
  let dx := lit (1 # 100000) in
  Lx <~ mat_vec L x ;;
  let dr := vscale_r Lx dx in
  qp <~ vadd q (vdiv dr (lit 2)) ;;
  grad1 <~ gradient qp ;;
  qm <~ vsub q (vdiv dr (lit 2)) ;;
  grad2 <~ gradient qm ;;
  g <~ vsub grad1 grad2 ;;
  Lg <~ mat_vec (mtranspose L) g ;;
  Ret (vdiv Lg dx).

(** [eigenvalue_scaled_hessian] (lines 704-725). *)
Definition eigenvalue_scaled_hessian (L : matrix F) (q : list F)
  : Mut (heap F) F :=
  v0 <- random (vsize q) ;;
  lift (snd (power_method (hessian_vector L q) v0
               {| max_iterations := 100; tol := lit (1 # 1000) |})).

(** Lines 807-834 of one iteration: the held-out size, the two
    covariances and the two candidates. *)
Definition pass_metrics (p : pass) (first_draw num_draws : Z)
  : Mut (heap F) (pass_locals F) :=
  h <- mget ;;
  let o := this h in
  let M := Z.to_nat (n_params_ o) in
  c <- match p with
       | Selection =>
           let Ntest0 := to_int (smul (lit (2 # 10)) (of_int num_draws)) in
           let Ntest := if Ntest0 <? 5 then 5 else Ntest0 in
           if num_draws <? 10 then mthrow InsufficientSamples
           else
             Ytrain <- lift (mblock (Y_ o) first_draw 0
                               (num_draws - Ntest) (n_params_ o)) ;;
             Ytest <- lift (mblock (Y_ o) (first_draw + num_draws - Ntest) 0
                              Ntest (n_params_ o)) ;;
             cov_train <- lift (covariance Ytrain) ;;
             cov_test <- lift (covariance Ytest) ;;
             mret (Ntest, cov_train, cov_test)
       | Refinement =>
           Ytrain <- lift (mblock (Y_ o) first_draw 0 num_draws
                             (n_params_ o)) ;;
           cov_train <- lift (covariance Ytrain) ;;
           mret (0, cov_train, mzero M M)
       end ;;
  let '(Ntest, cov_train, cov_test) := c in
  dense <- lift (shrink (num_draws - Ntest) cov_train) ;;
  mret {| Ntest := Ntest; cov_train := cov_train; cov_test := cov_test;
          dense := dense; diag := diagonal_part dense |}.

(** The loop of lines 847-853 over the retained draws. *)
Fixpoint condition_loop (qs : list (list F)) (L_dense L_diag : matrix F)
    (low_dense low_diag c_dense c_diag : F) : Mut (heap F) (F * F) :=
  match qs with
  | [] => mret (c_dense, c_diag)
  | q :: qs' =>
      high_dense <- eigenvalue_scaled_hessian L_dense q ;;
      high_diag <- eigenvalue_scaled_hessian L_diag q ;;
      condition_loop qs' L_dense L_diag low_dense low_diag
        (smax c_dense (ssqrt (sdiv high_dense low_dense)))
        (smax c_diag (ssqrt (sdiv high_diag low_diag)))
  end.

(** One iteration of the loop of line 806; the result is [use_dense]. *)
Definition learn_pass (p : pass) (first_draw num_draws : Z)
    (use_dense : bool) : Mut (heap F) bool :=
  l <- pass_metrics p first_draw num_draws ;;
  set_covar (dense l) ;;;
  match p with
  | Selection =>
      let L_dense := llt_matrixL (dense l) in
      let L_diag := as_diagonal (map ssqrt (mdiagonal (diag l))) in
      e_dense <- eigenvalue_scaled_covariance L_dense (cov_test l) ;;
      let low_eigenvalue_dense := sdiv (lit (-1)) e_dense in
      e_diag <- eigenvalue_scaled_covariance L_diag (cov_test l) ;;
      let low_eigenvalue_diag := sdiv (lit (-1)) e_diag in
      h <- mget ;;
      c <- condition_loop (last_qs_ (this h)) L_dense L_diag
             low_eigenvalue_dense low_eigenvalue_diag s0 s0 ;;
      mret (sltb (fst c) (snd c))
  | Refinement =>
      (if use_dense
       then set_covar (dense l) ;;; write_is_diagonal false
       else set_covar (diag l) ;;; write_is_diagonal true) ;;;
      mret use_dense
  end.

(** [first_draw] of line 798, in [int] arithmetic:
    [num_chains_ * (std::max(win - 1, 0) * window_size_
                    + (win > 0) * (window_size_ - init_buffer_))]. *)
Definition first_draw_of (o : mpi_auto_adaptation F) (win : Z) : outcome Z :=
  w <~ int_result (win - 1) ;;
  a <~ int_result (Z.max w 0 * window_size_ o) ;;
  b <~ int_result (window_size_ o - init_buffer_ o) ;;
  c <~ int_result ((if 0 <? win then 1 else 0) * b) ;;
  d <~ int_result (a + c) ;;
  int_result (num_chains_ o * d).

(** [num_draws] of line 799, in [int] arithmetic:
    [std::max(num_chains_ * draws_collected_counter_ - first_draw, 0)]. *)
Definition num_draws_of (o : mpi_auto_adaptation F) (first_draw : Z)
  : outcome Z :=
  p <~ int_result (num_chains_ o * draws_collected_counter_ o) ;;
  d <~ int_result (p - first_draw) ;;
  Ret (Z.max d 0).

(** The [try] block of lines 804-872. *)
Definition learn_passes (first_draw num_draws : Z) : Mut (heap F) unit :=
  use_dense <- learn_pass Selection first_draw num_draws false ;;
  learn_pass Refinement first_draw num_draws use_dense ;;;
  mret tt.

(** The handler of lines 873-880. *)
Definition learn_fallback (num_draws : Z) : Mut (heap F) unit :=
  h <- mget ;;
  m <- lift (fallback_metric (n_params_ (this h)) num_draws) ;;
  set_covar m ;;;
  write_is_diagonal true.

(** [mpi_auto_adaptation::learn_metric] (lines 793-881). *)
Definition learn_metric (completed : list Z) (win curr_win_count : Z)
  : Mut (heap F) unit :=
  collect_draws completed win ;;;
  h <- mget ;;
  first_draw <- lift (first_draw_of (this h) win) ;;
  num_draws <- lift (num_draws_of (this h) first_draw) ;;
  mcatch (learn_passes first_draw num_draws)
         (fun _ => learn_fallback num_draws).

End Adaptation.

(** ** Further overloads of [assign] *)

Section AssignMore.
Context {T : Type}.

(** Every row of the matrix has [ncols] coefficients. *)
Definition mwf (x : matrix T) : Prop :=
  Forall (fun row => length row = ncols x) (mdata x).

(** The coefficient in row [i] and column [j], both from 0. *)
Definition mlookup (x : matrix T) (i j : nat) : option T :=
  match mdata x !! i with
  | Some row => row !! j
  | None => None
  end.

(** [x.coeffRef(m, n) = v] on a matrix; Eigen does not check the
    positions here. *)
Definition mcoeff_write (m n : Z) (v : T) : Mut (matrix T) unit :=
  fun x =>
    if (0 <=? m) && (m <? mrows x) && (0 <=? n) && (n <? mcols x)
    then ({| ncols := ncols x;
             mdata := alter (fun row => <[Z.to_nat n := v]> row)
                            (Z.to_nat m) (mdata x) |},
          Ret tt)
    else (x, Undefined).

(** [x.col(n) = y]: the column must exist and [y] must have [x.rows()]
    coefficients. *)
Definition col_write (n : Z) (y : list T) : Mut (matrix T) unit :=
  fun x =>
    if (0 <=? n) && (n <? mcols x) && (vsize y =? mrows x)
    then ({| ncols := ncols x;
             mdata := zip_with (fun row v => <[Z.to_nat n := v]> row)
                               (mdata x) y |},
          Ret tt)
    else (x, Undefined).

(** [x.block(i, j, p, q) = v]: the block must lie inside [x] and [v] must
    be a [p] x [q] matrix. *)
Definition block_write (i j p q : Z) (v : matrix T) : Mut (matrix T) unit :=
  fun x =>
    if (0 <=? i) && (0 <=? j) && (0 <=? p) && (0 <=? q)
       && (i + p <=? mrows x) && (j + q <=? mcols x)
       && (mrows v =? p) && (mcols v =? q)
    then ({| ncols := ncols x;
             mdata :=
               take (Z.to_nat i) (mdata x)
               ++ zip_with (fun row w =>
                              take (Z.to_nat j) row ++ w
                              ++ drop (Z.to_nat (j + q)) row)
                           (take (Z.to_nat p) (drop (Z.to_nat i) (mdata x)))
                           (mdata v)
               ++ drop (Z.to_nat (i + p)) (mdata x) |},
          Ret tt)
    else (x, Undefined).

(** [y.rowwise().reverse()], [y.colwise().reverse()] and [y.reverse()]:
    the coefficients of each row in reverse order, the rows in reverse
    order, and both. *)
Definition rowwise_reverse (y : matrix T) : matrix T :=
  {| ncols := ncols y; mdata := map (@rev T) (mdata y) |}.

Definition colwise_reverse (y : matrix T) : matrix T :=
  {| ncols := ncols y; mdata := rev (mdata y) |}.

Definition mreverse (y : matrix T) : matrix T :=
  {| ncols := ncols y; mdata := rev (map (@rev T) (mdata y)) |}.

(** Assignment with an empty index list (lvalue.hpp, lines 28-34):
    [x = y]. *)
Definition assign_nil {X} (y : X) : Mut X unit := mput y.

(** [x.resize(n)] on a standard vector whose new elements are copies of
    [dflt], the value-initialised element. *)
Definition resize {E} (dflt : E) (n : Z) : Mut (list E) unit :=
  fun x => (take (Z.to_nat n) x ++ replicate (Z.to_nat n - length x) dflt,
            Ret tt).

(** [c] run on the element [x[i]] of a standard vector; [operator[]] does
    not check [i]. *)
Definition on_element {E A} (i : Z) (c : Mut E A) : Mut (list E) A :=
  fun x =>
    match (if 0 <=? i then x !! Z.to_nat i else None) with
    | Some e => let (e', o) := c e in (<[Z.to_nat i := e']> x, o)
    | None => (x, Undefined)
    end.

(** [y[n]] of a standard vector as a value. *)
Definition elem_read {S U} (y : list U) (n : Z) : Mut S U :=
  match (if 0 <=? n then y !! Z.to_nat n else None) with
  | Some v => mret v
  | None => mundef
  end.

(** Assignment of a standard vector with an empty index list (lvalue.hpp,
    lines 47-54).  [elem u] is the assignment of [u] to one element with
    the empty index list. *)
Definition assign_array_nil {E U} (dflt : E) (elem : U -> Mut E unit)
    (y : list U) : Mut (list E) unit :=
  resize dflt (Z.of_nat (length y)) ;;;
  mfor (seqZ 0 (Z.of_nat (length y))) (fun i =>
    u <- elem_read y i ;;
    on_element i (elem u)).

(** mat[,uni] = colvec (lvalue.hpp, lines 199-212); the first index is an
    [index_omni] and carries no data. *)
Definition assign_mat_omni_uni (idx : index_uni) (y : list T)
  : Mut (matrix T) unit :=
  x <- mget ;;
  check_size_match (mrows x) (vsize y) ;;;
  check_range (mcols x) (n_ idx) ;;;
  col_write (n_ idx - 1) y.

(** [y.row(i)] as a value. *)
Definition row_read {S} (y : matrix T) (i : Z) : Mut S (list T) :=
  match (if 0 <=? i then mdata y !! Z.to_nat i else None) with
  | Some r => mret r
  | None => mundef
  end.

(** The body of the loop of lines 273-277 for the value [i] of the loop
    variable. *)
Definition assign_mat_multi_step {I} `{MultiIndex I} (idx : I)
    (y : matrix T) (i : Z) : Mut (matrix T) unit :=
  let m := rvalue_at i idx in
  x <- mget ;;
  check_range (mrows x) m ;;;
  r <- row_read y i ;;
  row_write (m - 1) r.

(** mat[multi] = mat (lvalue.hpp, lines 262-278). *)
Definition assign_mat_multi {I} `{MultiIndex I} (idx : I) (y : matrix T)
  : Mut (matrix T) unit :=
  x <- mget ;;
  let x_idx_rows := rvalue_index_size idx (mrows x) in
  check_size_match x_idx_rows (mrows y) ;;;
  check_size_match (mcols x) (mcols y) ;;;
  mfor (seqZ 0 (mrows y)) (assign_mat_multi_step idx y).

(** mat[min_max, min_max] = mat (lvalue.hpp, lines 298-363). *)
Definition assign_mat_min_max (ridx cidx : index_min_max) (y : matrix T)
  : Mut (matrix T) unit :=
  if positive_idx_ ridx then
    if positive_idx_ cidx then
      let row_size := max_ ridx - (min_ ridx - 1) in
      let col_size := max_ cidx - (min_ cidx - 1) in
      check_size_match row_size (mrows y) ;;;
      check_size_match col_size (mcols y) ;;;
      block_write (min_ ridx - 1) (min_ cidx - 1) row_size col_size y
    else
      let row_size := max_ ridx - (min_ ridx - 1) in
      let col_size := min_ cidx - (max_ cidx - 1) in
      check_size_match row_size (mrows y) ;;;
      check_size_match col_size (mcols y) ;;;
      block_write (min_ ridx - 1) (max_ cidx - 1) row_size col_size
        (rowwise_reverse y)
  else
    if positive_idx_ cidx then
      let row_size := min_ ridx - (max_ ridx - 1) in
      let col_size := max_ cidx - (min_ cidx - 1) in
      check_size_match row_size (mrows y) ;;;
      check_size_match col_size (mcols y) ;;;
      block_write (max_ ridx - 1) (min_ cidx - 1) row_size col_size
        (colwise_reverse y)
    else
      let row_size := min_ ridx - (max_ ridx - 1) in
      let col_size := min_ cidx - (max_ cidx - 1) in
      check_size_match row_size (mrows y) ;;;
      check_size_match col_size (mcols y) ;;;
      block_write (max_ ridx - 1) (max_ cidx - 1) row_size col_size
        (mreverse y).

(** mat[uni, uni] = scalar (lvalue.hpp, lines 380-392). *)
Definition assign_mat_uni_uni (ridx cidx : index_uni) (y : T)
  : Mut (matrix T) unit :=
  let m := n_ ridx in
  let n := n_ cidx in
  x <- mget ;;
  check_range (mrows x) m ;;;
  check_range (mcols x) n ;;;
  mcoeff_write (m - 1) (n - 1) y.

(** The body of the loop of lines 426-430. *)
Definition assign_mat_uni_multi_step {I} `{MultiIndex I} (m : Z) (cidx : I)
    (y : list T) (i : Z) : Mut (matrix T) unit :=
  let n := rvalue_at i cidx in
  x <- mget ;;
  check_range (mcols x) n ;;;
  v <- coeff_read y i ;;
  mcoeff_write (m - 1) (n - 1) v.

(** mat[uni, multi] = rowvec (lvalue.hpp, lines 413-431). *)
Definition assign_mat_uni_multi {I} `{MultiIndex I} (ridx : index_uni)
    (cidx : I) (y : list T) : Mut (matrix T) unit :=
  x <- mget ;;
  let x_idxs_cols := rvalue_index_size cidx (mcols x) in
  check_size_match x_idxs_cols (vsize y) ;;;
  let m := n_ ridx in
  check_range (mrows x) m ;;;
  mfor (seqZ 0 (vsize y)) (assign_mat_uni_multi_step m cidx y).

(** The body of the loop of lines 465-469. *)
Definition assign_mat_multi_uni_step {I} `{MultiIndex I} (ridx : I) (n : Z)
    (y : list T) (i : Z) : Mut (matrix T) unit :=
  let m := rvalue_at i ridx in
  x <- mget ;;
  check_range (mrows x) m ;;;
  v <- coeff_read y i ;;
  mcoeff_write (m - 1) (n - 1) v.

(** mat[multi, uni] = vec (lvalue.hpp, lines 452-470). *)
Definition assign_mat_multi_uni {I} `{MultiIndex I} (ridx : I)
    (cidx : index_uni) (y : list T) : Mut (matrix T) unit :=
  x <- mget ;;
  let x_idxs_rows := rvalue_index_size ridx (mrows x) in
  check_size_match x_idxs_rows (vsize y) ;;;
  let n := n_ cidx in
  check_range (mcols x) n ;;;
  mfor (seqZ 0 (vsize y)) (assign_mat_multi_uni_step ridx n y).

(** [y.coeffRef(i, j)] as a value. *)
Definition mcoeff_read {S} (y : matrix T) (i j : Z) : Mut S T :=
  match (if (0 <=? i) && (0 <=? j)
         then mlookup y (Z.to_nat i) (Z.to_nat j) else None) with
  | Some v => mret v
  | None => mundef
  end.

(** The body of the inner loop of lines 508-512 for the column position
    [n] and the values [j] and [i] of the two loop variables. *)
Definition assign_mat_multi_multi_step {I1} `{MultiIndex I1} (ridx : I1)
    (y : matrix T) (n j i : Z) : Mut (matrix T) unit :=
  let m := rvalue_at i ridx in
  x <- mget ;;
  check_range (mrows x) m ;;;
  v <- mcoeff_read y i j ;;
  mcoeff_write (m - 1) (n - 1) v.

(** mat[multi, multi] = mat (lvalue.hpp, lines 491-514). *)
Definition assign_mat_multi_multi {I1 I2} `{MultiIndex I1} `{MultiIndex I2}
    (ridx : I1) (cidx : I2) (y : matrix T) : Mut (matrix T) unit :=
  x <- mget ;;
  let x_idxs_rows := rvalue_index_size ridx (mrows x) in
  let x_idxs_cols := rvalue_index_size cidx (mcols x) in
  check_size_match x_idxs_rows (mrows y) ;;;
  check_size_match x_idxs_cols (mcols y) ;;;
  mfor (seqZ 0 (mcols y)) (fun j =>
    let n := rvalue_at j cidx in
    x <- mget ;;
    check_range (mcols x) n ;;;
    mfor (seqZ 0 (mrows y)) (assign_mat_multi_multi_step ridx y n j)).

(** x[uni | L] = y on a standard vector (lvalue.hpp, lines 538-545).
    [tail] is the assignment of [y] to one element with the rest [L] of
    the index list. *)
Definition assign_array_uni {E} (idx : index_uni) (tail : Mut E unit)
  : Mut (list E) unit :=
  x <- mget ;;
  check_range (Z.of_nat (length x)) (n_ idx) ;;;
  on_element (n_ idx - 1) tail.

(** The body of the loop of lines 578-582. *)
Definition assign_array_multi_step {E U I} `{MultiIndex I} (idx : I)
    (tail : U -> Mut E unit) (y : list U) (n : Z) : Mut (list E) unit :=
  let i := rvalue_at n idx in
  x <- mget ;;
  check_range (Z.of_nat (length x)) i ;;;
  u <- elem_read y n ;;
  on_element (i - 1) (tail u).

(** x[multi | L] = y on a standard vector (lvalue.hpp, lines 571-583).
    [tail u] is the assignment of the element [u] of [y] to one element
    of [x] with the rest [L] of the index list. *)
Definition assign_array_multi {E U I} `{MultiIndex I} (idx : I)
    (tail : U -> Mut E unit) (y : list U) : Mut (list E) unit :=
  x <- mget ;;
  let x_idx_size := rvalue_index_size idx (Z.of_nat (length x)) in
  check_size_match x_idx_size (Z.of_nat (length y)) ;;;
  mfor (seqZ 0 (Z.of_nat (length y))) (assign_array_multi_step idx tail y).

(** A computation on a matrix keeps its shape: whatever the outcome, the
    dimensions afterwards are the ones before, and rows of one length stay
    so. *)
Definition keeps_shape {A} (c : Mut (matrix T) A) : Prop :=
  forall x : matrix T,
    ncols (c x).1 = ncols x
    /\ length (mdata (c x).1) = length (mdata x)
    /\ (mwf x -> mwf (c x).1).

End AssignMore.

(** ** Sampling into the window *)

Section AddSample.
Context {F : Type}.

(** [mpi_auto_adaptation::add_sample] (lines 778-791).  [gathered] is
    what the non-blocking all-gather delivers into the buffer of the slot,
    one column per chain; the buffer is read only once the request is
    reported complete, so the model fills it at once.  The slot must
    exist in [draws] and in the [window_size_] request handles. *)
Definition add_sample (gathered : matrix F) (q : list F)
    (curr_win_count : Z) : Mut (heap F) unit :=
  h <- mget ;;
  let o := this h in
  let slot := draw_req_counter_ o in
  if (0 <=? slot) && (slot <? Z.of_nat (length (draws o)))
     && (slot <? window_size_ o)
  then
    let pushed := last_qs_ o ++ [q] in
    set_this
      {| num_chains_ := num_chains_ o; n_params_ := n_params_ o;
         window_size_ := window_size_ o; init_buffer_ := init_buffer_ o;
         draw_req_counter_ := slot + 1;
         draws_collected_counter_ := draws_collected_counter_ o;
         last_qs_ := if (5 <? length pushed)%nat then tail pushed else pushed;
         draws := <[Z.to_nat slot := gathered]> (draws o);
         Y_ := Y_ o;
         is_diagonal_ := is_diagonal_ o |}
  else mundef.

(** What the loops of [collect_draws] leave alone between two states:
    every field but the content of [Y_], the dimensions of [Y_], and the
    rows of [Y_] that hold the draws collected before the window, those
    below row [draws_collected_counter_ * num_chains_]. *)
Definition window_frame (h h' : heap F) : Prop :=
  num_chains_ (this h') = num_chains_ (this h)
  /\ n_params_ (this h') = n_params_ (this h)
  /\ window_size_ (this h') = window_size_ (this h)
  /\ init_buffer_ (this h') = init_buffer_ (this h)
  /\ draw_req_counter_ (this h') = draw_req_counter_ (this h)
  /\ draws_collected_counter_ (this h') = draws_collected_counter_ (this h)
  /\ last_qs_ (this h') = last_qs_ (this h)
  /\ draws (this h') = draws (this h)
  /\ is_diagonal_ (this h') = is_diagonal_ (this h)
  /\ covar h' = covar h
  /\ rng h' = rng h
  /\ ncols (Y_ (this h')) = ncols (Y_ (this h))
  /\ length (mdata (Y_ (this h'))) = length (mdata (Y_ (this h)))
  /\ forall r : nat,
       Z.of_nat r < draws_collected_counter_ (this h) * num_chains_ (this h) ->
       mdata (Y_ (this h')) !! r = mdata (Y_ (this h)) !! r.

(** What the two passes and the handler of [learn_metric] leave alone in
    the object: every field but [is_diagonal_]. *)
Definition same_but_is_diagonal (o o' : mpi_auto_adaptation F) : Prop :=
  num_chains_ o' = num_chains_ o
  /\ n_params_ o' = n_params_ o
  /\ window_size_ o' = window_size_ o
  /\ init_buffer_ o' = init_buffer_ o
  /\ draw_req_counter_ o' = draw_req_counter_ o
  /\ draws_collected_counter_ o' = draws_collected_counter_ o
  /\ last_qs_ o' = last_qs_ o
  /\ draws o' = draws o
  /\ Y_ o' = Y_ o.

End AddSample.

(** ** Sample data *)

(** Ten draws of one parameter, the values 1.0 to 10.0, for one chain. *)
Definition ten_draws : heap float :=
  {| this :=
       {| num_chains_ := 1; n_params_ := 1; window_size_ := 10;
          init_buffer_ := 0; draw_req_counter_ := 0;
          draws_collected_counter_ := 10; last_qs_ := [];
          draws := [];
          Y_ := {| ncols := 1;
                   mdata := map (fun k => [float_of_int k]) (seqZ 1 10) |};
          is_diagonal_ := false |};
     covar := mzero 1 1;
     rng := 0 |}.

(** * Properties of indexed assignment *)

Section AssignFacts.
Context {T : Type}.
Implicit Types (x y : list T) (i n : Z).

Lemma mbind_mget {S B} (k : S -> Mut S B) (s : S) :
  mbind mget k s = k s s.
Proof. reflexivity. Qed.

Lemma mbind_ret {S A B} (c : Mut S A) (k : A -> Mut S B) (s s' : S) (a : A) :
  c s = (s', Ret a) -> mbind c k s = k a s'.
Proof. intros E. unfold mbind. now rewrite E. Qed.

Lemma mbind_throw {S A B} (c : Mut S A) (k : A -> Mut S B) (s s' : S)
    (e : exn) :
  c s = (s', Throw e) -> mbind c k s = (s', Throw e).
Proof. intros E. unfold mbind. now rewrite E. Qed.

Lemma check_range_in {S} (max index : Z) (s : S) :
  1 <= index <= max -> check_range max index s = (s, Ret tt).
Proof.
  intros Hin. unfold check_range.
  replace ((1 <=? index) && (index <=? max)) with true; [reflexivity |].
  symmetry. apply andb_true_iff. split; apply Z.leb_le; lia.
Qed.

Lemma check_range_out {S} (max index : Z) (s : S) :
  ~ (1 <= index <= max) -> check_range max index s = (s, Throw OutOfRange).
Proof.
  intros Hout. unfold check_range.
  destruct ((1 <=? index) && (index <=? max)) eqn:E; [| reflexivity].
  apply andb_true_iff in E as [E1 E2].
  apply Z.leb_le in E1, E2. lia.
Qed.

Lemma check_size_match_eq {S} (i j : Z) (s : S) :
  i = j -> check_size_match i j s = (s, Ret tt).
Proof.
  intros ->. unfold check_size_match. now rewrite Z.eqb_refl.
Qed.

Lemma check_size_match_ne {S} (i j : Z) (s : S) :
  i <> j -> check_size_match i j s = (s, Throw SizeMismatch).
Proof.
  intros Hne. unfold check_size_match.
  destruct (Z.eqb_spec i j); [contradiction | reflexivity].
Qed.

Lemma coeff_write_in x i (v : T) :
  0 <= i < vsize x -> coeff_write i v x = (<[Z.to_nat i := v]> x, Ret tt).
Proof.
  intros Hin. unfold coeff_write.
  replace ((0 <=? i) && (i <? vsize x)) with true; [reflexivity |].
  symmetry. apply andb_true_iff. split; [apply Z.leb_le | apply Z.ltb_lt]; lia.
Qed.

Lemma vsize_insert x (k : nat) (v : T) : vsize (<[k := v]> x) = vsize x.
Proof. unfold vsize. now rewrite length_insert. Qed.

(** A single index in range: one coefficient is written. *)
Lemma assign_vec_uni_in x i (v : T) :
  1 <= i <= vsize x ->
  assign_vec_uni {| n_ := i |} v x = (<[Z.to_nat (i - 1) := v]> x, Ret tt).
Proof.
  intros Hin. unfold assign_vec_uni, mbind, mget. simpl.
  rewrite check_range_in by exact Hin.
  apply coeff_write_in. lia.
Qed.

(** A single index out of range: nothing is written. *)
Lemma assign_vec_uni_out x i (v : T) :
  ~ (1 <= i <= vsize x) ->
  assign_vec_uni {| n_ := i |} v x = (x, Throw OutOfRange).
Proof.
  intros Hout. unfold assign_vec_uni, mbind, mget. simpl.
  now rewrite check_range_out by exact Hout.
Qed.

End AssignFacts.

(** C9.  For every vector and every single index [i] within [1, size],
    [assign(x, [uni(i)], y)] returns normally; afterwards the coefficient
    read at position [i] is [y], the size is unchanged and every other
    coefficient is the one [x] had. *)
Theorem assign_vec_uni_round_trip {T} (x : list T) (i : Z) (y : T) :
  1 <= i <= vsize x ->
  exists x' : list T,
    assign_vec_uni {| n_ := i |} y x = (x', Ret tt)
    /\ x' !! Z.to_nat (i - 1) = Some y
    /\ length x' = length x
    /\ forall j : nat, j <> Z.to_nat (i - 1) -> x' !! j = x !! j.
Proof.
  intros Hin. exists (<[Z.to_nat (i - 1) := y]> x).
  split; [now apply assign_vec_uni_in |].
  split.
  - apply list_lookup_insert_eq. unfold vsize in Hin. lia.
  - split; [apply length_insert |].
    intros j Hj. now apply list_lookup_insert_ne.
Qed.

Lemma assign_vec_uni_round_trip_witness :
  exists x' : list Z,
    assign_vec_uni {| n_ := 2 |} 9 [1; 2; 3] = (x', Ret tt)
    /\ x' !! Z.to_nat (2 - 1) = Some 9
    /\ length x' = length [1; 2; 3]
    /\ forall j : nat, j <> Z.to_nat (2 - 1) -> x' !! j = [1; 2; 3] !! j.
Proof.
  apply (assign_vec_uni_round_trip [1; 2; 3] 2 9). vm_compute.
  split; discriminate.
Defined.

(** C5.  For every multiple-index assignment on a vector in which the
    number of positions the index resolves to differs from the size of the
    value, [assign] throws the size-mismatch error and the target is the
    vector it was: no write has been made. *)
Theorem assign_vec_multi_size_mismatch {T I} `{MultiIndex I}
    (idx : I) (x y : list T) :
  rvalue_index_size idx (vsize x) <> vsize y ->
  assign_vec_multi idx y x = (x, Throw SizeMismatch).
Proof.
  intros Hne. unfold assign_vec_multi, mbind, mget. simpl.
  now rewrite check_size_match_ne by exact Hne.
Qed.

Lemma assign_vec_multi_size_mismatch_witness :
  assign_vec_multi {| ns_ := [1; 3] |} [10; 20; 30] [1; 2; 3; 4]
  = ([1; 2; 3; 4], Throw SizeMismatch).
Proof.
  apply (assign_vec_multi_size_mismatch {| ns_ := [1; 3] |}
           [1; 2; 3; 4] [10; 20; 30]).
  vm_compute. discriminate.
Defined.

(** C2.  Assigning [10,20,30] to [1,2,3,4,5] through the ascending min-max
    index (2,4) gives [1,10,20,30,5]; through the reversed index
    (min 4, max 2) it gives [1,30,20,10,5]. *)
Theorem assign_vec_min_max_scenario :
  assign_vec_min_max {| min_ := 2; max_ := 4; positive_idx_ := true |}
    [10; 20; 30] [1; 2; 3; 4; 5]
  = ([1; 10; 20; 30; 5], Ret tt)
  /\ assign_vec_min_max {| min_ := 4; max_ := 2; positive_idx_ := false |}
       [10; 20; 30] [1; 2; 3; 4; 5]
     = ([1; 30; 20; 10; 5], Ret tt).
Proof. split; reflexivity. Qed.

(** C1, the defect.  The ascending form compares the size of the value with
    [max - 1] and writes [max - 1] coefficients from position [min] on,
    the reversed form does so with [min - 1]: a value of the size of the
    addressed range 1..3 is refused, a value longer than the range 3..4 is
    accepted and written over position 5 as well, a value of the size of
    the reversed range 3..1 is refused, and a value of four coefficients
    for the range 3..5 passes the check and addresses a segment that ends
    past the vector. *)
Theorem assign_vec_min_max_size_slip :
  assign_vec_min_max {| min_ := 1; max_ := 3; positive_idx_ := true |}
    [10; 20; 30] [1; 2; 3; 4; 5]
  = ([1; 2; 3; 4; 5], Throw SizeMismatch)
  /\ assign_vec_min_max {| min_ := 3; max_ := 4; positive_idx_ := true |}
       [10; 20; 30] [1; 2; 3; 4; 5]
     = ([1; 2; 10; 20; 30], Ret tt)
  /\ assign_vec_min_max {| min_ := 3; max_ := 1; positive_idx_ := false |}
       [10; 20; 30] [1; 2; 3; 4; 5]
     = ([1; 2; 3; 4; 5], Throw SizeMismatch)
  /\ assign_vec_min_max {| min_ := 3; max_ := 5; positive_idx_ := true |}
       [10; 20; 30; 40] [1; 2; 3; 4; 5]
     = ([1; 2; 3; 4; 5], Undefined).
Proof. repeat split; reflexivity. Qed.

(** What the ascending form asks of the value, for bounds in range: a size
    other than [max - 1] is refused, whatever the length of the range. *)
Lemma assign_vec_min_max_ascending_size {T} (x y : list T) (lo hi : Z) :
  1 <= lo <= vsize x -> 1 <= hi <= vsize x ->
  vsize y <> hi - 1 ->
  assign_vec_min_max {| min_ := lo; max_ := hi; positive_idx_ := true |} y x
  = (x, Throw SizeMismatch).
Proof.
  intros Hlo Hhi Hsize. unfold assign_vec_min_max. rewrite mbind_mget.
  cbn [min_ max_ positive_idx_].
  rewrite (mbind_ret _ _ x x tt) by now apply check_range_in.
  rewrite (mbind_ret _ _ x x tt) by now apply check_range_in.
  apply mbind_throw, check_size_match_ne. congruence.
Qed.

Section MultiLoop.
Context {T : Type}.
Variables (ns : list Z) (y : list T).

Lemma multi_body_in (k : nat) (p : Z) (v : T) (x : list T) :
  ns !! k = Some p -> y !! k = Some v -> 1 <= p <= vsize x ->
  assign_vec_multi_step {| ns_ := ns |} y (Z.of_nat k) x
  = (<[Z.to_nat (p - 1) := v]> x, Ret tt).
Proof.
  intros Hp Hv Hin. unfold assign_vec_multi_step, mbind, mget. simpl.
  rewrite Nat2Z.id, nth_lookup, Hp. simpl.
  rewrite check_range_in by exact Hin.
  unfold coeff_read.
  replace (0 <=? Z.of_nat k) with true by (symmetry; apply Z.leb_le; lia).
  rewrite Nat2Z.id, Hv. unfold mret.
  apply coeff_write_in. lia.
Qed.

Lemma multi_body_out (k : nat) (p : Z) (x : list T) :
  ns !! k = Some p -> ~ (1 <= p <= vsize x) ->
  assign_vec_multi_step {| ns_ := ns |} y (Z.of_nat k) x
  = (x, Throw OutOfRange).
Proof.
  intros Hp Hout. unfold assign_vec_multi_step, mbind, mget. simpl.
  rewrite Nat2Z.id, nth_lookup, Hp. simpl.
  now rewrite check_range_out by exact Hout.
Qed.

(** The loop from position [k] on stops at the first position out of
    range, with the writes before it made. *)
Lemma multi_loop_stops (pre : list Z) (i : Z) (post : list Z) :
  forall (k : nat) (x : list T),
    drop k ns = pre ++ i :: post ->
    length ns = length y ->
    Forall (fun p => 1 <= p <= vsize x) pre ->
    ~ (1 <= i <= vsize x) ->
    mfor (seqZ (Z.of_nat k) (Z.of_nat (length y - k)))
      (assign_vec_multi_step {| ns_ := ns |} y) x
    = (write_positions x pre (drop k y), Throw OutOfRange).
Proof.
  induction pre as [| p pre IH]; intros k x Hdrop Hlen Hpre Hout.
  - assert (Hk : ns !! k = Some i).
    { rewrite <- (Nat.add_0_r k), <- lookup_drop, Hdrop. reflexivity. }
    assert (k < length y)%nat by (rewrite <- Hlen; eapply lookup_lt_Some, Hk).
    rewrite seqZ_cons by lia. simpl. unfold mbind at 1.
    now rewrite (multi_body_out k i x Hk Hout).
  - assert (Hk : ns !! k = Some p).
    { rewrite <- (Nat.add_0_r k), <- lookup_drop, Hdrop. reflexivity. }
    assert (Hky : (k < length y)%nat)
      by (rewrite <- Hlen; eapply lookup_lt_Some, Hk).
    destruct (lookup_lt_is_Some_2 y k Hky) as [v Hv].
    inversion Hpre as [| ? ? Hp Hpre']; subst.
    rewrite seqZ_cons by lia. simpl. unfold mbind at 1.
    rewrite (multi_body_in k p v x Hk Hv Hp).
    replace (Z.succ (Z.of_nat k)) with (Z.of_nat (S k)) by lia.
    replace (Z.pred (Z.of_nat (length y - k)))
      with (Z.of_nat (length y - S k)) by lia.
    rewrite IH.
    + rewrite (drop_S y v k Hv). reflexivity.
    + rewrite (drop_S ns p k Hk) in Hdrop. simpl in Hdrop. congruence.
    + exact Hlen.
    + rewrite vsize_insert. exact Hpre'.
    + rewrite vsize_insert. exact Hout.
Qed.

End MultiLoop.

(** C4, as the code has it.  A single index out of range makes [assign]
    throw the out-of-range error with the vector unmodified.  A multiple
    index whose size matches the value and which lists a position out of
    range makes [assign] throw the out-of-range error once the values of the
    positions before the first such position have been written; the target
    is the vector with exactly those writes made. *)
Theorem assign_out_of_range {T} (x : list T) (pre : list Z) (i : Z)
    (post : list Z) (y : list T) (v : T) :
  Forall (fun p => 1 <= p <= vsize x) pre ->
  ~ (1 <= i <= vsize x) ->
  length (pre ++ i :: post) = length y ->
  assign_vec_uni {| n_ := i |} v x = (x, Throw OutOfRange)
  /\ assign_vec_multi {| ns_ := pre ++ i :: post |} y x
     = (write_positions x pre y, Throw OutOfRange).
Proof.
  intros Hpre Hout Hlen. split; [now apply assign_vec_uni_out |].
  unfold assign_vec_multi. rewrite mbind_mget.
  rewrite (mbind_ret _ _ x x tt)
    by (apply check_size_match_eq; simpl; unfold vsize; now rewrite Hlen).
  pose proof (multi_loop_stops (pre ++ i :: post) y pre i post 0%nat x
                eq_refl Hlen Hpre Hout) as Hloop.
  rewrite Nat.sub_0_r in Hloop. simpl in Hloop. exact Hloop.
Qed.

Lemma assign_out_of_range_witness :
  assign_vec_uni {| n_ := 5 |} 7 [1; 2; 3] = ([1; 2; 3], Throw OutOfRange)
  /\ assign_vec_multi {| ns_ := [2; 3] ++ 5 :: [1] |} [10; 20; 30; 40]
       [1; 2; 3]
     = (write_positions [1; 2; 3] [2; 3] [10; 20; 30; 40], Throw OutOfRange).
Proof.
  apply (assign_out_of_range [1; 2; 3] [2; 3] 5 [1] [10; 20; 30; 40] 7).
  - repeat constructor; vm_compute; discriminate.
  - vm_compute. intros [_ Hle]. apply Hle. reflexivity.
  - reflexivity.
Defined.

(** C4 as stated fails: with the multiple index [1, 5] on a vector of
    size 3 the first value is written before position 5 is refused, so the
    target is not the vector it was. *)
Lemma assign_out_of_range_partial_write :
  assign_vec_multi {| ns_ := [1; 5] |} [10; 20] [1; 2; 3]
  = ([10; 2; 3], Throw OutOfRange)
  /\ [10; 2; 3] <> [1; 2; 3].
Proof. split; [reflexivity | discriminate]. Qed.

(** C10.  [assign(mat, [uni, omni], rowvec)] validates the column count
    only.  With matching column counts and a row index outside [1, rows]
    it goes on to [x.row(n - 1)] unchecked, where the [mat[uni]] overload
    throws the out-of-range error; and on no input at all does it throw
    that error. *)
Theorem assign_mat_uni_omni_unchecked {T} (x : matrix T) (n : Z)
    (y : list T) :
  mcols x = vsize y ->
  ~ (1 <= n <= mrows x) ->
  assign_mat_uni_omni {| n_ := n |} y x = (x, Undefined)
  /\ assign_mat_uni {| n_ := n |} y x = (x, Throw OutOfRange)
  /\ forall (x' : matrix T) (n' : Z) (y' : list T),
       snd (assign_mat_uni_omni {| n_ := n' |} y' x') <> Throw OutOfRange.
Proof.
  intros Hcols Hout. repeat split.
  - unfold assign_mat_uni_omni. rewrite mbind_mget.
    rewrite (mbind_ret _ _ x x tt) by now apply check_size_match_eq.
    simpl. unfold row_write.
    replace ((0 <=? n - 1) && (n - 1 <? mrows x)) with false; [reflexivity |].
    symmetry. apply andb_false_iff.
    destruct (Z.leb_spec 0 (n - 1)); [right | now left].
    apply Z.ltb_ge. lia.
  - unfold assign_mat_uni. rewrite mbind_mget.
    rewrite (mbind_ret _ _ x x tt) by now apply check_size_match_eq.
    apply mbind_throw. now apply check_range_out.
  - intros x' n' y'. unfold assign_mat_uni_omni. rewrite mbind_mget.
    unfold mbind, check_size_match, row_write. simpl.
    destruct (mcols x' =? vsize y'); simpl; [| discriminate].
    destruct ((0 <=? n' - 1) && (n' - 1 <? mrows x') && (vsize y' =? mcols x'));
      simpl; discriminate.
Qed.

Lemma assign_mat_uni_omni_unchecked_witness :
  let x := {| ncols := 2; mdata := [[1; 2]; [3; 4]] |} in
  assign_mat_uni_omni {| n_ := 3 |} [7; 8] x = (x, Undefined)
  /\ assign_mat_uni {| n_ := 3 |} [7; 8] x = (x, Throw OutOfRange)
  /\ forall (x' : matrix Z) (n' : Z) (y' : list Z),
       snd (assign_mat_uni_omni {| n_ := n' |} y' x') <> Throw OutOfRange.
Proof.
  apply (assign_mat_uni_omni_unchecked
           {| ncols := 2; mdata := [[1; 2]; [3; 4]] |} 3 [7; 8]).
  - reflexivity.
  - vm_compute. intros [_ Hle]. apply Hle. reflexivity.
Defined.

(** * Properties of the covariance estimator *)

Section CovarianceFacts.
Context {F : Type} `{Scalar F}.

Lemma map_const_replicate {A B} (f : A -> B) (c : B) (l : list A) :
  (forall a, f a = c) -> map f l = replicate (length l) c.
Proof.
  intros Hf. induction l as [| a l IH]; simpl; [reflexivity |].
  now rewrite Hf, IH.
Qed.

Lemma map_nth_seq_id (d : F) (row : list F) :
  map (fun j => nth j row d) (seq 0 (length row)) = row.
Proof.
  induction row as [| a row IH]; simpl; [reflexivity |].
  f_equal. rewrite <- seq_shift, map_map. exact IH.
Qed.

Lemma nth_replicate_same (j n : nat) (a : F) : nth j (replicate n a) a = a.
Proof.
  revert j. induction n as [| n IH]; intros [| j]; simpl; auto.
Qed.

(** The centring of a single row whose entries satisfy [a / 1 = a] and
    [a - a = 0], in arithmetic whose constants 0 and 1 behave as they do
    in binary64. *)
Lemma covariance_single_row_zero (row : list F) :
  of_int 1 = s1 -> ssub s1 s1 = s0 -> sltb s0 s1 = true ->
  smul s0 s0 = s0 -> sdiv s0 s1 = s0 ->
  Forall (fun a => sdiv a s1 = a /\ ssub a a = s0) row ->
  row <> [] ->
  covariance {| ncols := length row; mdata := [row] |}
  = Ret (mzero (length row) (length row)).
Proof.
  intros Hone Hsub Hlt Hmul Hdiv Hrow Hne.
  unfold covariance, check_nonzero_size, mrows, mcols. simpl.
  destruct (_ <? _) eqn:Hpos.
  2:{ apply Z.ltb_ge in Hpos. destruct row; [contradiction | simpl in Hpos; lia]. }
  simpl. change (Z.of_nat 1) with 1.
  assert (Hmean :
    map (fun j => sdiv (nth j row s0) (of_int 1)) (seq 0 (length row))
    = row).
  { rewrite <- (map_map (fun j => nth j row s0) (fun a => sdiv a (of_int 1))).
    rewrite map_nth_seq_id, Hone.
    clear Hne Hpos. induction Hrow as [| a row [Ha _] _ IH]; simpl;
      [reflexivity | now rewrite Ha, IH]. }
  rewrite Hmean.
  assert (Hcentred : zip_with ssub row row = replicate (length row) s0).
  { clear Hne Hpos Hmean. induction Hrow as [| a row [_ Ha] _ IH]; simpl;
      [reflexivity | now rewrite Ha, IH]. }
  rewrite Hcentred.
  unfold mdiv, mzero. simpl. f_equal. f_equal.
  rewrite !map_map.
  rewrite (map_const_replicate _ (replicate (length row) s0)).
  - now rewrite length_seq.
  - intros i. rewrite map_map.
    rewrite (map_const_replicate _ s0); [now rewrite length_seq |].
    intros j. unfold mcol. simpl.
    rewrite !nth_replicate_same, Hmul, Hone, Hsub. unfold smax.
    now rewrite Hlt, Hdiv.
Qed.

(** The value [covariance] computes on a matrix with coefficients, written
    out: entry (j, k) is the sum over the rows of the products of the
    centred columns [j] and [k], divided by [max(rows - 1, 1)]. *)
Lemma covariance_unfolded (Y : matrix F) :
  0 < mrows Y * mcols Y ->
  let mean := map (fun j => sdiv (vsum (mcol Y j)) (of_int (mrows Y)))
                  (seq 0 (ncols Y)) in
  let centered :=
    {| ncols := ncols Y;
       mdata := map (fun row => zip_with ssub row mean) (mdata Y) |} in
  let d := smax (ssub (of_int (mrows centered)) s1) s1 in
  covariance Y
  = Ret {| ncols := ncols Y;
           mdata :=
             map (fun j =>
                    map (fun k =>
                           sdiv (vsum (zip_with smul (mcol centered j)
                                                     (mcol centered k))) d)
                        (seq 0 (ncols Y)))
                 (seq 0 (ncols Y)) |}.
Proof.
  intros Hsize mean centered d.
  unfold covariance, check_nonzero_size.
  replace (0 <? mrows Y * mcols Y) with true
    by (symmetry; now apply Z.ltb_lt).
  cbn [obind]. fold mean. fold centered.
  unfold mmul, mtranspose. cbn [ncols mdata].
  replace (length (mdata centered)) with (length (mdata Y))
    by (subst centered; cbn [mdata]; now rewrite length_map).
  rewrite Nat.eqb_refl. cbn [obind]. unfold mdiv. cbn [ncols mdata].
  fold d. f_equal. f_equal. rewrite !map_map.
  apply map_ext. intros j. rewrite map_map. reflexivity.
Qed.

(** Whatever [covariance] returns is square, of the column count of the
    data. *)
Lemma covariance_shape (Y C : matrix F) :
  covariance Y = Ret C ->
  ncols C = ncols Y /\ length (mdata C) = ncols Y /\ mwf C.
Proof.
  intros Hcov.
  destruct (Z.ltb_spec 0 (mrows Y * mcols Y)) as [Hsize | Hsize].
  - rewrite covariance_unfolded in Hcov by exact Hsize.
    injection Hcov as <-. cbn [ncols mdata]. repeat split.
    + now rewrite length_map, length_seq.
    + unfold mwf. cbn [ncols mdata]. apply Forall_forall. intros row Hrow.
      apply list_elem_of_In, in_map_iff in Hrow as (j & <- & _).
      now rewrite length_map, length_seq.
  - unfold covariance, check_nonzero_size in Hcov.
    replace (0 <? mrows Y * mcols Y) with false in Hcov
      by (symmetry; now apply Z.ltb_ge).
    discriminate.
Qed.

End CovarianceFacts.

(** ** Binary64 facts *)

Section Binary64.

Lemma float_sub_diag (a : float) :
  float_finite a = true -> PrimFloat.sub a a = 0%float.
Proof.
  unfold float_finite. intros Hfin.
  apply Prim2SF_inj. rewrite sub_spec.
  destruct (Prim2SF a) as [s | s | | s m e]; try discriminate.
  - now destruct s.
  - unfold SF64sub, SFsub.
    rewrite Z.min_id. unfold shl_align. rewrite Z.sub_diag. cbn [fst].
    reflexivity.
Qed.

(** The mantissa and exponent of a valid finite binary64 number: normal
    with 53 digits, or subnormal at the least exponent. *)
Lemma bounded_digits (m : positive) (e : Z) :
  bounded prec emax m e = true ->
  e <= 971
  /\ ((Z.pos (digits2_pos m) = 53 /\ -1074 <= e)
      \/ (Z.pos (digits2_pos m) <= 53 /\ e = -1074)).
Proof.
  unfold bounded, canonical_mantissa, fexp, emin, prec, emax.
  intros Hb. apply andb_true_iff in Hb as [Hc He].
  apply Z.eqb_eq in Hc. apply Z.leb_le in He.
  change (3 - 1024 - 53) with (-1074) in Hc.
  change (1024 - 53) with 971 in He. lia.
Qed.

Lemma div_eucl_pow (m : positive) (k : Z) :
  0 <= k ->
  Z.div_eucl (Z.pos m * 2 ^ k * 4503599627370496) 4503599627370496
  = (Z.pos m * 2 ^ k, 0).
Proof.
  intros Hk.
  pose proof (Z.div_mul (Z.pos m * 2 ^ k) 4503599627370496 ltac:(lia)) as Hq.
  pose proof (Z.mod_mul (Z.pos m * 2 ^ k) 4503599627370496 ltac:(lia)) as Hr.
  unfold Z.div, Z.modulo in Hq, Hr.
  destruct (Z.div_eucl _ _) as [q r]. now subst.
Qed.

(** The quotient of a finite number by 1.0 before rounding: the mantissa
    itself at the least exponent, and otherwise the mantissa with one more
    digit at the exponent below, both exact. *)
Lemma SFdiv_core_one (m : positive) (e : Z) :
  bounded prec emax m e = true ->
  SFdiv_core_binary prec emax (Z.pos m) e 4503599627370496 (-52)
  = if e =? -1074 then (Z.pos m, e, loc_Exact)
    else (Z.pos m~0, e - 1, loc_Exact).
Proof.
  intros Hb. destruct (bounded_digits m e Hb) as [Hmax Hcase].
  unfold SFdiv_core_binary, fexp, emin, prec, emax.
  change (Zdigits2 4503599627370496) with 53.
  cbn [Zdigits2]. set (d := Z.pos (digits2_pos m)) in *.
  set (e' := IntDef.Z.min _ _).
  assert (He' : e' = if e =? -1074 then e else e - 1).
  { subst e'. change IntDef.Z.min with Z.min. change IntDef.Z.max with Z.max.
    destruct (Z.eqb_spec e (-1074)); lia. }
  rewrite He'. clear e' He'.
  change IntDef.Z.div_eucl with Z.div_eucl.
  change IntDef.Z.shiftl with Z.shiftl.
  destruct (Z.eqb_spec e (-1074)) as [-> | Hne].
  - change (-1074 - -52 - -1074) with 52. cbv iota.
    rewrite Z.shiftl_mul_pow2 by lia.
    pose proof (div_eucl_pow m 0 ltac:(lia)) as Hdiv.
    rewrite Z.mul_1_r in Hdiv. change (2 ^ 52) with 4503599627370496.
    rewrite Hdiv. reflexivity.
  - replace (e - -52 - (e - 1)) with 53 by lia. cbv iota.
    rewrite Z.shiftl_mul_pow2 by lia.
    pose proof (div_eucl_pow m 1 ltac:(lia)) as Hdiv.
    change (2 ^ 53) with (2 ^ 1 * 4503599627370496).
    rewrite Z.mul_assoc, Hdiv.
    replace (Z.pos m * 2 ^ 1) with (Z.pos m~0) by lia. reflexivity.
Qed.

Lemma SFdiv_one (s : bool) (m : positive) (e : Z) :
  bounded prec emax m e = true ->
  SF64div (S754_finite s m e) (S754_finite false 4503599627370496 (-52))
  = S754_finite s m e.
Proof.
  intros Hb. destruct (bounded_digits m e Hb) as [Hmax Hcase].
  unfold SF64div, SFdiv. rewrite (SFdiv_core_one m e Hb), xorb_false_r.
  unfold binary_round_aux, shr_fexp, fexp, emin, prec, emax.
  change IntDef.Z.max with Z.max.
  change (3 - 1024 - 53) with (-1074). change (1024 - 53) with 971.
  destruct (Z.eqb_spec e (-1074)) as [-> | Hne].
  - cbn [Zdigits2].
    replace (Z.max (Z.pos (digits2_pos m) + -1074 - 53) (-1074) - -1074) with 0
      by lia.
    cbn [shr shr_record_of_loc loc_of_shr_record shr_m shr_r shr_s
         round_nearest_even Zdigits2].
    replace (Z.max (Z.pos (digits2_pos m) + -1074 - 53) (-1074) - -1074) with 0
      by lia.
    reflexivity.
  - cbn [Zdigits2 digits2_pos].
    rewrite Pos2Z.inj_succ.
    replace (Z.max (Z.succ (Z.pos (digits2_pos m)) + (e - 1) - 53) (-1074)
             - (e - 1))
      with 1 by lia.
    cbn [shr shr_record_of_loc SpecFloat.iter_pos shr_1 loc_of_shr_record
         shr_m shr_r
         shr_s round_nearest_even orb Zdigits2].
    replace (Z.max (Z.pos (digits2_pos m) + (e - 1 + 1) - 53) (-1074)
             - (e - 1 + 1))
      with 0 by lia.
    cbn [shr shr_m]. replace (e - 1 + 1) with e by lia.
    destruct (Z.leb_spec e 971); [reflexivity | lia].
Qed.

(** Division of a finite binary64 number by 1.0 is exact. *)
Lemma float_div_one (a : float) :
  float_finite a = true -> PrimFloat.div a 1 = a.
Proof.
  unfold float_finite. intros Hfin.
  apply Prim2SF_inj. rewrite div_spec.
  pose proof (Prim2SF_valid a) as Hvalid.
  change (Prim2SF 1) with (S754_finite false 4503599627370496 (-52)).
  destruct (Prim2SF a) as [s | s | | s m e]; try discriminate.
  - now destruct s.
  - now apply SFdiv_one.
Qed.

End Binary64.

(** C7, as the code has it.  For every matrix [Y] of doubles with exactly
    one row, at least one column and finite entries, [covariance(Y)]
    returns a matrix with as many rows and columns as [Y] has columns whose
    coefficients are all [+0.0]; the divisor of the final division is
    [max(rows - 1, 1) = 1.0], never zero. *)
Theorem covariance_single_row (row : list float) :
  row <> [] ->
  Forall (fun a => float_finite a = true) row ->
  exists C : matrix float,
    covariance {| ncols := length row; mdata := [row] |} = Ret C
    /\ ncols C = length row
    /\ length (mdata C) = length row
    /\ (forall j k : nat,
          (j < length row)%nat -> (k < length row)%nat ->
          exists r : list float,
            mdata C !! j = Some r
            /\ length r = length row
            /\ r !! k = Some 0%float)
    /\ smax (ssub (of_int 1) s1) s1 = 1%float.
Proof.
  intros Hne Hfin. exists (mzero (length row) (length row)).
  split.
  - apply covariance_single_row_zero; try reflexivity; [| exact Hne].
    eapply Forall_impl; [exact Hfin |]. intros a Ha. split.
    + now apply float_div_one.
    + now apply float_sub_diag.
  - cbn [mzero ncols mdata]. rewrite length_replicate.
    repeat split.
    intros j k Hj Hk. exists (replicate (length row) 0%float).
    split; [now apply lookup_replicate_2 |].
    split; [apply length_replicate | now apply lookup_replicate_2].
Qed.

Lemma covariance_single_row_witness :
  exists C : matrix float,
    covariance {| ncols := 2; mdata := [[1.5%float; (-2.25)%float]] |} = Ret C
    /\ ncols C = 2%nat
    /\ length (mdata C) = 2%nat
    /\ (forall j k : nat,
          (j < 2)%nat -> (k < 2)%nat ->
          exists r : list float,
            mdata C !! j = Some r
            /\ length r = 2%nat
            /\ r !! k = Some 0%float)
    /\ smax (ssub (of_int 1) s1) s1 = 1%float.
Proof.
  apply (covariance_single_row [1.5%float; (-2.25)%float]).
  - discriminate.
  - repeat constructor.
Defined.

(** C7 as stated fails on a matrix with one row and no column, which
    [check_nonzero_size] rejects, and in binary64 arithmetic on a row with
    an infinite entry, whose centred value is NaN. *)
Lemma covariance_single_row_rejected :
  covariance (F := float) {| ncols := 0; mdata := [[]] |} = Throw ZeroSize
  /\ covariance {| ncols := 1; mdata := [[infinity]] |}
     = Ret {| ncols := 1; mdata := [[nan]] |}.
Proof. split; reflexivity. Qed.

(** The estimator run on binary64 numbers: a finite single row. *)
Example covariance_single_row_float :
  covariance {| ncols := 2; mdata := [[1.5%float; (-2.25)%float]] |}
  = Ret (mzero 2 2).
Proof. reflexivity. Qed.

(** * Properties of the power iteration *)

Section PowerFacts.
Context {F : Type} `{Scalar F} `{Sqrt F}.
Variable A : list F -> list F.
Hypothesis A_size : forall v, length (A v) = length v.
Variables (v0 : list F) (cap : Z) (t : F).

Abbreviation f := (fun v : list F => Ret (A v)).
Abbreviation r0 := {| max_iterations := cap; tol := t |}.

Lemma mbind_lift_ret {S X Y} (a : X) (k : X -> Mut S Y) (s : S) :
  mbind (lift (Ret a)) k s = k a s.
Proof. reflexivity. Qed.

Lemma vdot_same_size (v w : list F) :
  length v = length w -> vdot v w = Ret (vsum (zip_with smul v w)).
Proof. intros E. unfold vdot. now rewrite E, Nat.eqb_refl. Qed.

(** The loop entered at iteration [j0] with the locals of that iteration
    leaves at the first iteration that is the last one allowed or meets
    the test. *)
Lemma power_loop_run (m : nat) :
  forall j0 : nat,
    Z.of_nat j0 + Z.of_nat (S m) = cap ->
    (forall j, (j < j0)%nat -> pm_within A v0 t j = false) ->
    exists k : nat,
      power_loop f (seqZ (Z.of_nat j0) (Z.of_nat (S m)))
        (pm_vector A v0 j0) (A (pm_vector A v0 j0)) (pm_previous A v0 j0) r0
      = ({| max_iterations := Z.of_nat (S k); tol := pm_change A v0 k |},
         Ret (pm_estimate A v0 k))
      /\ Z.of_nat (S k) <= cap
      /\ (Z.of_nat (S k) = cap \/ pm_within A v0 t k = true)
      /\ forall j, (j < k)%nat -> pm_within A v0 t j = false.
Proof.
  induction m as [| m IH]; intros j0 Hcap Hbefore.
  - exists j0. rewrite seqZ_cons by lia. cbn [power_loop].
    rewrite mbind_mget, vdot_same_size by (symmetry; apply A_size).
    rewrite mbind_lift_ret. cbn [max_iterations tol].
    replace (Z.of_nat j0 =? cap - 1) with true
      by (symmetry; apply Z.eqb_eq; lia).
    cbn [orb]. repeat split.
    + replace (Z.of_nat (S j0)) with (Z.of_nat j0 + 1) by lia. reflexivity.
    + lia.
    + left. lia.
    + exact Hbefore.
  - rewrite seqZ_cons by lia. cbn [power_loop].
    rewrite mbind_mget, vdot_same_size by (symmetry; apply A_size).
    rewrite mbind_lift_ret. cbn [max_iterations tol].
    replace (Z.of_nat j0 =? cap - 1) with false
      by (symmetry; apply Z.eqb_neq; lia).
    cbn [orb].
    change (sleb _ _) with (pm_within A v0 t j0).
    destruct (pm_within A v0 t j0) eqn:Hj0.
    + exists j0. repeat split.
      * replace (Z.of_nat (S j0)) with (Z.of_nat j0 + 1) by lia. reflexivity.
      * lia.
      * now right.
      * exact Hbefore.
    + rewrite mbind_lift_ret.
      replace (Z.succ (Z.of_nat j0)) with (Z.of_nat (S j0)) by lia.
      replace (Z.pred (Z.of_nat (S (S m)))) with (Z.of_nat (S m)) by lia.
      apply (IH (S j0)); [lia |].
      intros j Hj. destruct (Nat.eq_dec j j0) as [-> | Hne];
        [exact Hj0 | apply Hbefore; lia].
Qed.

Lemma power_method_idle :
  cap <= 0 -> power_method f v0 r0 = (r0, Ret s0).
Proof.
  intros Hcap. unfold power_method. rewrite mbind_mget.
  rewrite mbind_lift_ret.
  rewrite (mbind_ret _ _ r0 r0 tt).
  - cbn [max_iterations]. now rewrite seqZ_nil by exact Hcap.
  - apply check_size_match_eq. unfold vsize. now rewrite A_size.
Qed.

Lemma power_method_run :
  1 <= cap ->
  exists k : nat,
    power_method f v0 r0
    = ({| max_iterations := Z.of_nat (S k); tol := pm_change A v0 k |},
       Ret (pm_estimate A v0 k))
    /\ Z.of_nat (S k) <= cap
    /\ (Z.of_nat (S k) = cap \/ pm_within A v0 t k = true)
    /\ forall j, (j < k)%nat -> pm_within A v0 t j = false.
Proof.
  intros Hcap. unfold power_method. rewrite mbind_mget.
  rewrite mbind_lift_ret.
  rewrite (mbind_ret _ _ r0 r0 tt)
    by (apply check_size_match_eq; unfold vsize; now rewrite A_size).
  cbn [max_iterations].
  destruct (power_loop_run (Z.to_nat (cap - 1)) 0) as [k Hk].
  - lia.
  - intros j Hj. lia.
  - exists k. replace cap with (Z.of_nat (S (Z.to_nat (cap - 1)))) at 1 by lia.
    exact Hk.
Qed.

End PowerFacts.

(** C6, as the code has it.  [power_method] is a total function of its
    arguments.  For an operator that returns a vector of the size of its
    argument: with a cap of 0 or less the loop body never runs, 0.0 is
    returned and both in-out parameters keep the supplied values; with a
    cap of at least 1 the call returns the estimate of its last iteration
    [k] (counted from 0), [max_iterations] holds the [k + 1] iterations
    used, at most the cap, [tol] holds the relative change between the
    last two estimates (the one before the first being 0.0), and [k] is
    the first iteration that is the last one allowed or whose change
    satisfies [|new - old| <= tol * |old|]. *)
Theorem power_method_reports {F} `{Scalar F} `{Sqrt F}
    (A : list F -> list F) (v0 : list F) (cap : Z) (t : F) :
  (forall v, length (A v) = length v) ->
  let f := fun v => Ret (A v) in
  let r0 := {| max_iterations := cap; tol := t |} in
  (cap <= 0 -> power_method f v0 r0 = (r0, Ret s0))
  /\ (1 <= cap ->
      exists k : nat,
        power_method f v0 r0
        = ({| max_iterations := Z.of_nat (S k); tol := pm_change A v0 k |},
           Ret (pm_estimate A v0 k))
        /\ Z.of_nat (S k) <= cap
        /\ (Z.of_nat (S k) = cap \/ pm_within A v0 t k = true)
        /\ forall j, (j < k)%nat -> pm_within A v0 t j = false).
Proof.
  intros HA f r0. split.
  - now apply power_method_idle.
  - now apply power_method_run.
Qed.

Lemma power_method_reports_witness :
  let A := map (smul 2%float) in
  let v0 := [1%float; 1%float] in
  exists k : nat,
    power_method (fun v => Ret (A v)) v0
      {| max_iterations := 100; tol := 0.001%float |}
    = ({| max_iterations := Z.of_nat (S k); tol := pm_change A v0 k |},
       Ret (pm_estimate A v0 k))
    /\ Z.of_nat (S k) <= 100
    /\ (Z.of_nat (S k) = 100 \/ pm_within A v0 0.001%float k = true)
    /\ forall j, (j < k)%nat -> pm_within A v0 0.001%float j = false.
Proof.
  exact (proj2 (power_method_reports (map (smul 2%float))
                  [1%float; 1%float] 100 0.001%float
                  (fun v => length_map (smul 2%float) v))
               ltac:(lia)).
Defined.

(** The iteration run on binary64 numbers for the operator 2 I: the second
    estimate is within the tolerance of the first. *)
Example power_method_float :
  power_method (fun v => Ret (map (smul 2%float) v)) [1%float; 1%float]
    {| max_iterations := 100; tol := 0.001%float |}
  = ({| max_iterations := 2; tol := 0x1.0000000000001p-52%float |},
     Ret 2%float).
Proof. vm_compute. reflexivity. Qed.

Lemma float_neq (a b : float) : Prim2SF a <> Prim2SF b -> a <> b.
Proof. intros Hne E. apply Hne. now rewrite E. Qed.

Lemma pm_vector_identity_unit (j : nat) :
  pm_vector (fun v : list float => v) [1%float] j = [1%float].
Proof.
  induction j as [| j IH]; [reflexivity |].
  cbn [pm_vector]. rewrite IH. reflexivity.
Qed.

Lemma pm_estimate_identity_unit (j : nat) :
  pm_estimate (fun v : list float => v) [1%float] j = 1%float.
Proof.
  unfold pm_estimate. rewrite pm_vector_identity_unit. reflexivity.
Qed.

(** C6 as stated fails for a cap below 1.  With a cap of 0 the call returns
    0.0 with [tol] still the supplied 0.001, which is the relative change
    of no iteration of the sequence; with a cap of -1 [max_iterations] is
    still -1, which counts nothing. *)
Lemma power_method_cap_below_one :
  let f := fun v : list float => Ret v in
  power_method f [1%float] {| max_iterations := 0; tol := 0.001%float |}
  = ({| max_iterations := 0; tol := 0.001%float |}, Ret 0%float)
  /\ (forall j : nat,
        pm_change (fun v : list float => v) [1%float] j <> 0.001%float)
  /\ power_method f [1%float] {| max_iterations := -1; tol := 0.001%float |}
     = ({| max_iterations := -1; tol := 0.001%float |}, Ret 0%float).
Proof.
  repeat split.
  intros j. unfold pm_change.
  destruct j as [| j]; cbn [pm_previous];
    rewrite ?pm_estimate_identity_unit;
    apply float_neq; vm_compute; discriminate.
Qed.

(** * Properties of [learn_metric] *)

Section MetricFacts.
Context {F : Type} `{Scalar F}.

Lemma mblock_rows (m b : matrix F) (i j p q : Z) :
  mblock m i j p q = Ret b -> mrows b = p.
Proof.
  unfold mblock. destruct (_ && _) eqn:E; [| discriminate].
  intros [= <-]. unfold mrows in *. cbn [mdata].
  repeat (apply andb_true_iff in E as [E ?]).
  rewrite length_map, length_take, length_drop.
  repeat match goal with
         | Hb : (_ <=? _) = true |- _ => apply Z.leb_le in Hb
         end.
  lia.
Qed.

Lemma nth_replicate_row (i j r c : nat) :
  nth j (nth i (replicate r (replicate c (s0 : F))) []) s0 = s0.
Proof.
  rewrite (nth_lookup (replicate r _)).
  destruct (replicate r (replicate c s0) !! i) as [row |] eqn:E; simpl.
  - apply lookup_replicate in E as [-> _]. apply nth_replicate_same.
  - now destruct j.
Qed.

Lemma mdiagonal_mzero (n : nat) :
  mdiagonal (mzero n n) = replicate n (s0 : F).
Proof.
  unfold mdiagonal, mzero, mcoeff. cbn [mdata ncols].
  rewrite length_replicate, Nat.min_id.
  rewrite (map_const_replicate _ s0); [now rewrite length_seq |].
  intros i. apply nth_replicate_row.
Qed.

Lemma zip_with_replicate (g : F -> F -> F) (n : nat) (a b : F) :
  zip_with g (replicate n a) (replicate n b) = replicate n (g a b).
Proof. induction n as [| n IH]; simpl; [reflexivity | now rewrite IH]. Qed.

Lemma map_replicate (g : F -> F) (n : nat) (a : F) :
  map g (replicate n a) = replicate n (g a).
Proof. induction n as [| n IH]; simpl; [reflexivity | now rewrite IH]. Qed.

(** The fallback of lines 876-878 in closed form. *)
Lemma fallback_metric_closed (M num_draws : Z) :
  fallback_metric M num_draws
  = Ret (as_diagonal
           (replicate (Z.to_nat M)
              (sadd (smul (sdiv (of_int num_draws)
                                (sadd (of_int num_draws) (lit 5))) s0)
                    (smul (smul (lit (1 # 1000))
                                (sdiv (lit 5)
                                      (sadd (of_int num_draws) (lit 5))))
                          s1)))).
Proof.
  unfold fallback_metric. rewrite mdiagonal_mzero.
  unfold vscale, vones, vadd. cbn [ncols mzero].
  rewrite !map_replicate, !length_replicate, Nat.eqb_refl.
  cbn [obind]. now rewrite zip_with_replicate.
Qed.

(** A matrix made by [asDiagonal] is zero off its diagonal. *)
Lemma as_diagonal_off (d : list F) (i j : nat) :
  i <> j -> mcoeff (as_diagonal d) i j = s0.
Proof.
  intros Hne. unfold mcoeff, as_diagonal. cbn [mdata].
  rewrite (nth_lookup (imap _ d)), list_lookup_imap.
  destruct (d !! i) as [a |]; simpl; [| now destruct j].
  rewrite nth_lookup, list_lookup_insert_ne by exact Hne.
  destruct (replicate (length d) s0 !! j) as [b |] eqn:E; simpl;
    [| reflexivity].
  now apply lookup_replicate in E as [-> _].
Qed.

Lemma pass_metrics_insufficient (first_draw num_draws : Z) (h : heap F) :
  num_draws < 10 ->
  pass_metrics Selection first_draw num_draws h
  = (h, Throw InsufficientSamples).
Proof.
  intros Hlt. unfold pass_metrics. rewrite mbind_mget.
  apply mbind_throw. cbv zeta.
  destruct (Z.ltb_spec num_draws 10); [reflexivity | lia].
Qed.

End MetricFacts.

(** * Further properties of indexed assignment *)

Section MultiWrites.
Context {T : Type}.

Lemma write_positions_cons (x : list T) (p : Z) (ps : list Z) (v : T)
    (vs : list T) :
  write_positions x (p :: ps) (v :: vs)
  = write_positions (<[Z.to_nat (p - 1) := v]> x) ps vs.
Proof. reflexivity. Qed.

Lemma write_positions_length (ps : list Z) :
  forall (x vs : list T), length (write_positions x ps vs) = length x.
Proof.
  induction ps as [| p ps IH]; intros x [| v vs]; try reflexivity.
  rewrite write_positions_cons, IH. apply length_insert.
Qed.

(** A position no write addresses keeps its coefficient. *)
Lemma write_positions_other (ps : list Z) :
  forall (x vs : list T) (j : nat),
    Forall (fun p => Z.to_nat (p - 1) <> j) ps ->
    write_positions x ps vs !! j = x !! j.
Proof.
  induction ps as [| p ps IH]; intros x [| v vs] j Hps; try reflexivity.
  inversion Hps as [| ? ? Hp Hps']; subst.
  rewrite write_positions_cons, IH by exact Hps'.
  now apply list_lookup_insert_ne.
Qed.

(** With distinct positions in range, the position listed [k]-th holds the
    [k]-th value. *)
Lemma write_positions_at (ps : list Z) :
  forall (x vs : list T) (k : nat) (p : Z) (v : T),
    NoDup ps ->
    Forall (fun q => 1 <= q <= vsize x) ps ->
    ps !! k = Some p -> vs !! k = Some v ->
    write_positions x ps vs !! Z.to_nat (p - 1) = Some v.
Proof.
  induction ps as [| q ps IH]; intros x vs k p v Hnd Hin Hp Hv;
    [discriminate |].
  destruct vs as [| w vs]; [now destruct k |].
  apply NoDup_cons in Hnd as [Hq Hnd].
  inversion Hin as [| ? ? Hq_in Hin']; subst.
  rewrite write_positions_cons.
  destruct k as [| k]; simpl in Hp, Hv.
  - injection Hp as ->. injection Hv as ->.
    rewrite write_positions_other.
    + apply list_lookup_insert_eq. unfold vsize in Hq_in. lia.
    + apply Forall_forall. intros r Hr E.
      rewrite Forall_forall in Hin'. specialize (Hin' r Hr).
      assert (r = p) by lia. subst r. contradiction.
  - apply (IH _ vs k p v Hnd); try assumption.
    rewrite vsize_insert. exact Hin'.
Qed.

(** The whole loop of vec[multi] when every position is in range. *)
Lemma multi_loop_completes (ns : list Z) (y : list T) (ps : list Z) :
  forall (k : nat) (x : list T),
    drop k ns = ps ->
    length ns = length y ->
    Forall (fun p => 1 <= p <= vsize x) ps ->
    mfor (seqZ (Z.of_nat k) (Z.of_nat (length y - k)))
      (assign_vec_multi_step {| ns_ := ns |} y) x
    = (write_positions x ps (drop k y), Ret tt).
Proof.
  induction ps as [| p ps IH]; intros k x Hdrop Hlen Hin.
  - assert (length ns <= k)%nat.
    { apply (f_equal length) in Hdrop. rewrite length_drop in Hdrop.
      simpl in Hdrop. lia. }
    rewrite seqZ_nil by lia. reflexivity.
  - assert (Hk : ns !! k = Some p).
    { rewrite <- (Nat.add_0_r k), <- lookup_drop, Hdrop. reflexivity. }
    assert (Hky : (k < length y)%nat)
      by (rewrite <- Hlen; eapply lookup_lt_Some, Hk).
    destruct (lookup_lt_is_Some_2 y k Hky) as [v Hv].
    inversion Hin as [| ? ? Hp Hin']; subst.
    rewrite seqZ_cons by lia. simpl. unfold mbind at 1.
    rewrite (multi_body_in ns y k p v x Hk Hv Hp).
    replace (Z.succ (Z.of_nat k)) with (Z.of_nat (S k)) by lia.
    replace (Z.pred (Z.of_nat (length y - k)))
      with (Z.of_nat (length y - S k)) by lia.
    rewrite (IH (S k)).
    + rewrite (drop_S y v k Hv). reflexivity.
    + rewrite (drop_S ns p k Hk) in Hdrop. congruence.
    + exact Hlen.
    + rewrite vsize_insert. exact Hin'.
Qed.

End MultiWrites.

(** X1.  A multiple-index assignment whose index lists as many positions as
    the value has coefficients, all of them in range, returns normally; the
    target is the vector with the writes made in the order of the list (a
    position listed twice keeps the later value) and has the size it
    had. *)
Theorem assign_vec_multi_in_range {T} (x : list T) (ns : list Z)
    (y : list T) :
  length ns = length y ->
  Forall (fun p => 1 <= p <= vsize x) ns ->
  assign_vec_multi {| ns_ := ns |} y x = (write_positions x ns y, Ret tt)
  /\ length (write_positions x ns y) = length x.
Proof.
  intros Hlen Hin. split; [| apply write_positions_length].
  unfold assign_vec_multi. rewrite mbind_mget.
  rewrite (mbind_ret _ _ x x tt)
    by (apply check_size_match_eq; simpl; unfold vsize; now rewrite Hlen).
  pose proof (multi_loop_completes ns y ns 0%nat x eq_refl Hlen Hin) as Hloop.
  rewrite Nat.sub_0_r in Hloop. exact Hloop.
Qed.

Lemma assign_vec_multi_in_range_witness :
  assign_vec_multi {| ns_ := [3; 1; 3] |} [10; 20; 30] [1; 2; 3; 4]
  = ([20; 2; 30; 4], Ret tt)
  /\ length (write_positions [1; 2; 3; 4] [3; 1; 3] [10; 20; 30])
     = length [1; 2; 3; 4].
Proof.
  apply (assign_vec_multi_in_range [1; 2; 3; 4] [3; 1; 3] [10; 20; 30]).
  - reflexivity.
  - repeat constructor; vm_compute; discriminate.
Defined.

(** X2.  With distinct positions, all in range and as many as the value has
    coefficients, a multiple-index assignment returns normally, the
    coefficient read back at the position listed [k]-th is the [k]-th
    coefficient of the value, and a position the index does not list keeps
    its coefficient. *)
Theorem assign_vec_multi_round_trip {T} (x : list T) (ns : list Z)
    (y : list T) :
  length ns = length y ->
  Forall (fun p => 1 <= p <= vsize x) ns ->
  NoDup ns ->
  exists x' : list T,
    assign_vec_multi {| ns_ := ns |} y x = (x', Ret tt)
    /\ (forall (k : nat) (p : Z) (v : T),
          ns !! k = Some p -> y !! k = Some v ->
          x' !! Z.to_nat (p - 1) = Some v)
    /\ (forall j : nat,
          Forall (fun p => Z.to_nat (p - 1) <> j) ns -> x' !! j = x !! j).
Proof.
  intros Hlen Hin Hnd. exists (write_positions x ns y). repeat split.
  - unfold assign_vec_multi. rewrite mbind_mget.
    rewrite (mbind_ret _ _ x x tt)
      by (apply check_size_match_eq; simpl; unfold vsize; now rewrite Hlen).
    pose proof (multi_loop_completes ns y ns 0%nat x eq_refl Hlen Hin) as Hloop.
    rewrite Nat.sub_0_r in Hloop. exact Hloop.
  - intros k p v Hp Hv. now apply (write_positions_at ns x y k).
  - intros j Hj. now apply write_positions_other.
Qed.

Lemma assign_vec_multi_round_trip_witness :
  exists x' : list Z,
    assign_vec_multi {| ns_ := [4; 2] |} [10; 20] [1; 2; 3; 4] = (x', Ret tt)
    /\ (forall (k : nat) (p : Z) (v : Z),
          [4; 2] !! k = Some p -> [10; 20] !! k = Some v ->
          x' !! Z.to_nat (p - 1) = Some v)
    /\ (forall j : nat,
          Forall (fun p => Z.to_nat (p - 1) <> j) [4; 2] ->
          x' !! j = [1; 2; 3; 4] !! j).
Proof.
  apply (assign_vec_multi_round_trip [1; 2; 3; 4] [4; 2] [10; 20]).
  - reflexivity.
  - repeat constructor; vm_compute; discriminate.
  - apply NoDup_ListNoDup. repeat constructor; simpl; intuition discriminate.
Defined.

Section SizeKept.
Context {T : Type}.

Lemma mbind_keeps_length {A B} (c : Mut (list T) A)
    (k : A -> Mut (list T) B) :
  (forall s, length (c s).1 = length s) ->
  (forall a s, length (k a s).1 = length s) ->
  forall s, length (mbind c k s).1 = length s.
Proof.
  intros Hc Hk s. unfold mbind. specialize (Hc s).
  destruct (c s) as [s' [a | e |]]; simpl in *; try exact Hc.
  now rewrite Hk.
Qed.

Lemma mfor_keeps_length (body : Z -> Mut (list T) unit) (ns : list Z) :
  (forall n s, length (body n s).1 = length s) ->
  forall s, length (mfor ns body s).1 = length s.
Proof.
  intros Hbody. induction ns as [| n ns IH]; intros s; [reflexivity |].
  simpl. apply mbind_keeps_length; [apply Hbody | intros _; exact IH].
Qed.

Lemma check_range_keeps (max index : Z) (s : list T) :
  (check_range max index s).1 = s.
Proof. unfold check_range. now destruct (_ && _). Qed.

Lemma check_size_match_keeps (i j : Z) (s : list T) :
  (check_size_match i j s).1 = s.
Proof. unfold check_size_match. now destruct (_ =? _). Qed.

Lemma coeff_write_keeps_length (i : Z) (v : T) (s : list T) :
  length (coeff_write i v s).1 = length s.
Proof.
  unfold coeff_write. destruct (_ && _); simpl; [apply length_insert | easy].
Qed.

Lemma coeff_read_keeps (y : list T) (n : Z) (s : list T) :
  (coeff_read y n s).1 = s.
Proof. unfold coeff_read. now destruct (if 0 <=? n then _ else _). Qed.

Lemma segment_write_keeps_length (start n : Z) (v s : list T) :
  length (segment_write start n v s).1 = length s.
Proof.
  unfold segment_write.
  destruct (_ && _) eqn:E; simpl; [| reflexivity].
  repeat (apply andb_true_iff in E as [E ?]).
  repeat match goal with
         | Hb : (_ <=? _) = true |- _ => apply Z.leb_le in Hb
         | Hb : (_ =? _) = true |- _ => apply Z.eqb_eq in Hb
         end.
  unfold vsize in *.
  rewrite !length_app, length_take, length_drop. lia.
Qed.

End SizeKept.

(** X3.  No assignment through a single, a multiple or a min-max index
    changes the size of the target vector, whatever its outcome: a normal
    return, a throw after some writes, or an undefined access. *)
Theorem assign_vec_keeps_size {T I} `{MultiIndex I} (x : list T)
    (u : index_uni) (v : T) (midx : I) (r : index_min_max) (y : list T) :
  length (assign_vec_uni u v x).1 = length x
  /\ length (assign_vec_multi midx y x).1 = length x
  /\ length (assign_vec_min_max r y x).1 = length x.
Proof.
  repeat split.
  - unfold assign_vec_uni. rewrite mbind_mget.
    apply mbind_keeps_length.
    + intros s. now rewrite check_range_keeps.
    + intros _ s. apply coeff_write_keeps_length.
  - unfold assign_vec_multi. rewrite mbind_mget.
    apply mbind_keeps_length.
    + intros s. now rewrite check_size_match_keeps.
    + intros _. apply mfor_keeps_length. intros n s.
      unfold assign_vec_multi_step. rewrite mbind_mget.
      apply mbind_keeps_length.
      * intros s'. now rewrite check_range_keeps.
      * intros _. apply mbind_keeps_length.
        -- intros s'. now rewrite coeff_read_keeps.
        -- intros w s'. apply coeff_write_keeps_length.
  - unfold assign_vec_min_max. rewrite mbind_mget.
    apply mbind_keeps_length; [intros s; now rewrite check_range_keeps |].
    intros _. apply mbind_keeps_length;
      [intros s; now rewrite check_range_keeps |].
    intros _ s. destruct (positive_idx_ r).
    + apply mbind_keeps_length;
        [intros s'; now rewrite check_size_match_keeps |].
      intros _ s'. apply segment_write_keeps_length.
    + apply mbind_keeps_length;
        [intros s'; now rewrite check_size_match_keeps |].
      intros _ s'. apply segment_write_keeps_length.
Qed.

(** X4.  A min-max assignment validates both bounds before anything else:
    when either bound lies outside [1, size] the call throws the
    out-of-range error and the vector is unmodified, whatever the
    orientation and the value. *)
Theorem assign_vec_min_max_bounds {T} (x y : list T) (r : index_min_max) :
  ~ (1 <= min_ r <= vsize x) \/ ~ (1 <= max_ r <= vsize x) ->
  assign_vec_min_max r y x = (x, Throw OutOfRange).
Proof.
  intros Hout. unfold assign_vec_min_max. rewrite mbind_mget.
  destruct (Z_le_dec 1 (min_ r)) as [Hlo |];
    [destruct (Z_le_dec (min_ r) (vsize x)) as [Hhi |] |].
  - rewrite (mbind_ret _ _ x x tt) by (apply check_range_in; lia).
    apply mbind_throw, check_range_out. destruct Hout; [lia | assumption].
  - apply mbind_throw, check_range_out. lia.
  - apply mbind_throw, check_range_out. lia.
Qed.

Lemma assign_vec_min_max_bounds_witness :
  assign_vec_min_max {| min_ := 2; max_ := 6; positive_idx_ := true |}
    [10; 20; 30; 40; 50] [1; 2; 3; 4; 5]
  = ([1; 2; 3; 4; 5], Throw OutOfRange).
Proof.
  apply (assign_vec_min_max_bounds [1; 2; 3; 4; 5] [10; 20; 30; 40; 50]
           {| min_ := 2; max_ := 6; positive_idx_ := true |}).
  right. vm_compute. intros [_ Hle]. apply Hle. reflexivity.
Defined.

Section MatrixFacts.
Context {T : Type}.

Lemma row_write_in (x : matrix T) (i : Z) (y : list T) :
  0 <= i < mrows x -> vsize y = mcols x ->
  row_write i y x
  = ({| ncols := ncols x; mdata := <[Z.to_nat i := y]> (mdata x) |}, Ret tt).
Proof.
  intros Hi Hy. unfold row_write.
  replace ((0 <=? i) && (i <? mrows x) && (vsize y =? mcols x)) with true;
    [reflexivity |].
  symmetry. rewrite !andb_true_iff.
  repeat split; [apply Z.leb_le | apply Z.ltb_lt | apply Z.eqb_eq]; lia.
Qed.

Lemma mwf_insert_row (x : matrix T) (k : nat) (y : list T) :
  mwf x -> length y = ncols x ->
  mwf {| ncols := ncols x; mdata := <[k := y]> (mdata x) |}.
Proof.
  unfold mwf. cbn [ncols mdata]. intros Hwf Hy.
  apply Forall_insert; assumption.
Qed.

End MatrixFacts.

(** X5.  Assigning a row vector with as many coefficients as the matrix has
    columns through a single row index within [1, rows] returns normally;
    afterwards row [n] is the value, the other rows and the dimensions are
    the ones the matrix had, and the rows still have one length. *)
Theorem assign_mat_uni_round_trip {T} (x : matrix T) (n : Z) (y : list T) :
  mcols x = vsize y ->
  1 <= n <= mrows x ->
  exists x' : matrix T,
    assign_mat_uni {| n_ := n |} y x = (x', Ret tt)
    /\ mdata x' !! Z.to_nat (n - 1) = Some y
    /\ (forall k : nat, k <> Z.to_nat (n - 1) -> mdata x' !! k = mdata x !! k)
    /\ mrows x' = mrows x /\ mcols x' = mcols x
    /\ (mwf x -> mwf x').
Proof.
  intros Hcols Hn.
  exists {| ncols := ncols x; mdata := <[Z.to_nat (n - 1) := y]> (mdata x) |}.
  split.
  - unfold assign_mat_uni. rewrite mbind_mget.
    rewrite (mbind_ret _ _ x x tt) by now apply check_size_match_eq.
    rewrite (mbind_ret _ _ x x tt) by now apply check_range_in.
    apply row_write_in; [lia | congruence].
  - cbn [mdata]. unfold mrows, mcols in *. cbn [mdata ncols].
    split; [apply list_lookup_insert_eq; lia |].
    split; [intros k Hk; now apply list_lookup_insert_ne |].
    split; [now rewrite length_insert |].
    split; [reflexivity |].
    intros Hwf. apply mwf_insert_row; [exact Hwf |].
    unfold vsize in Hcols. lia.
Qed.

Lemma assign_mat_uni_round_trip_witness :
  let x := {| ncols := 2; mdata := [[1; 2]; [3; 4]; [5; 6]] |} in
  exists x' : matrix Z,
    assign_mat_uni {| n_ := 2 |} [7; 8] x = (x', Ret tt)
    /\ mdata x' !! Z.to_nat (2 - 1) = Some [7; 8]
    /\ (forall k : nat, k <> Z.to_nat (2 - 1) -> mdata x' !! k = mdata x !! k)
    /\ mrows x' = mrows x /\ mcols x' = mcols x
    /\ (mwf x -> mwf x').
Proof.
  apply (assign_mat_uni_round_trip
           {| ncols := 2; mdata := [[1; 2]; [3; 4]; [5; 6]] |} 2 [7; 8]).
  - reflexivity.
  - vm_compute. split; discriminate.
Defined.

(** X6.  The overloads mat[uni] and mat[uni,] do the same whenever the row
    index is within [1, rows] or the column counts differ: they differ
    only on a row index out of range with matching column counts. *)
Theorem assign_mat_uni_omni_agrees {T} (x : matrix T) (n : Z) (y : list T) :
  1 <= n <= mrows x \/ mcols x <> vsize y ->
  assign_mat_uni_omni {| n_ := n |} y x = assign_mat_uni {| n_ := n |} y x.
Proof.
  intros Hcase. unfold assign_mat_uni_omni, assign_mat_uni.
  rewrite !mbind_mget.
  destruct (Z.eq_dec (mcols x) (vsize y)) as [Heq | Hne].
  - destruct Hcase as [Hn | ?]; [| contradiction].
    rewrite !(mbind_ret _ _ x x tt) by now apply check_size_match_eq.
    now rewrite (mbind_ret _ _ x x tt) by now apply check_range_in.
  - now rewrite !(mbind_throw _ _ x x SizeMismatch)
      by now apply check_size_match_ne.
Qed.

Lemma assign_mat_uni_omni_agrees_witness :
  let x := {| ncols := 2; mdata := [[1; 2]; [3; 4]] |} in
  assign_mat_uni_omni {| n_ := 1 |} [7; 8] x
  = assign_mat_uni {| n_ := 1 |} [7; 8] x.
Proof.
  apply (assign_mat_uni_omni_agrees
           {| ncols := 2; mdata := [[1; 2]; [3; 4]] |} 1 [7; 8]).
  left. vm_compute. split; discriminate.
Defined.

(** X7.  Assigning a column vector with as many coefficients as the matrix
    has rows through [omni, uni] with a column index within [1, cols]
    returns normally; afterwards column [n] holds the value, every other
    column is unchanged, and the dimensions are the ones the matrix had. *)
Theorem assign_mat_omni_uni_round_trip {T} (x : matrix T) (n : Z)
    (y : list T) :
  mwf x ->
  mrows x = vsize y ->
  1 <= n <= mcols x ->
  exists x' : matrix T,
    assign_mat_omni_uni {| n_ := n |} y x = (x', Ret tt)
    /\ (forall (i : nat) (v : T),
          y !! i = Some v -> mlookup x' i (Z.to_nat (n - 1)) = Some v)
    /\ (forall i j : nat,
          j <> Z.to_nat (n - 1) -> mlookup x' i j = mlookup x i j)
    /\ mrows x' = mrows x /\ mcols x' = mcols x /\ mwf x'.
Proof.
  intros Hwf Hrows Hn.
  exists {| ncols := ncols x;
            mdata := zip_with (fun row v => <[Z.to_nat (n - 1) := v]> row)
                              (mdata x) y |}.
  unfold mrows, mcols, vsize in *. unfold mwf in Hwf.
  assert (Hlen : length (mdata x) = length y) by lia.
  split.
  - unfold assign_mat_omni_uni. rewrite mbind_mget.
    rewrite (mbind_ret _ _ x x tt)
      by (apply check_size_match_eq; unfold mrows, vsize; lia).
    rewrite (mbind_ret _ _ x x tt)
      by (apply check_range_in; unfold mcols; exact Hn).
    cbn [n_]. unfold col_write, mrows, mcols, vsize.
    replace ((0 <=? n - 1) && (n - 1 <? Z.of_nat (ncols x))
             && (Z.of_nat (length y) =? Z.of_nat (length (mdata x))))
      with true; [reflexivity |].
    symmetry. rewrite !andb_true_iff.
    repeat split; [apply Z.leb_le | apply Z.ltb_lt | apply Z.eqb_eq]; lia.
  - cbn [mdata ncols]. repeat split.
    + intros i v Hv. unfold mlookup. cbn [mdata].
      rewrite lookup_zip_with, Hv.
      assert (Hi : (i < length (mdata x))%nat)
        by (rewrite Hlen; eapply lookup_lt_Some, Hv).
      destruct (lookup_lt_is_Some_2 _ _ Hi) as [row Hrow].
      rewrite Hrow. simpl.
      apply list_lookup_insert_eq.
      rewrite Forall_lookup in Hwf. rewrite (Hwf i row Hrow). lia.
    + intros i j Hj. unfold mlookup. cbn [mdata].
      rewrite lookup_zip_with.
      destruct (mdata x !! i) as [row |] eqn:Hrow; simpl; [| reflexivity].
      assert (Hi : (i < length y)%nat)
        by (rewrite <- Hlen; eapply lookup_lt_Some, Hrow).
      destruct (lookup_lt_is_Some_2 _ _ Hi) as [v Hv].
      rewrite Hv. simpl. apply list_lookup_insert_ne. congruence.
    + rewrite length_zip_with. lia.
    + unfold mwf. cbn [mdata ncols]. apply Forall_lookup.
      intros i row' Hrow'. rewrite lookup_zip_with in Hrow'.
      destruct (mdata x !! i) as [row |] eqn:Hrow; simpl in Hrow';
        [| discriminate].
      destruct (y !! i); simpl in Hrow'; [| discriminate].
      injection Hrow' as <-. rewrite length_insert.
      rewrite Forall_lookup in Hwf. exact (Hwf i row Hrow).
Qed.

Lemma assign_mat_omni_uni_round_trip_witness :
  let x := {| ncols := 2; mdata := [[1; 2]; [3; 4]; [5; 6]] |} in
  exists x' : matrix Z,
    assign_mat_omni_uni {| n_ := 2 |} [7; 8; 9] x = (x', Ret tt)
    /\ (forall (i : nat) (v : Z),
          [7; 8; 9] !! i = Some v -> mlookup x' i (Z.to_nat (2 - 1)) = Some v)
    /\ (forall i j : nat,
          j <> Z.to_nat (2 - 1) -> mlookup x' i j = mlookup x i j)
    /\ mrows x' = mrows x /\ mcols x' = mcols x /\ mwf x'.
Proof.
  apply (assign_mat_omni_uni_round_trip
           {| ncols := 2; mdata := [[1; 2]; [3; 4]; [5; 6]] |} 2 [7; 8; 9]).
  - repeat constructor.
  - reflexivity.
  - vm_compute. split; discriminate.
Defined.

(** X8.  Assigning a scalar through two single indexes, the row within
    [1, rows] and the column within [1, cols], returns normally; the
    coefficient read back at that row and column is the scalar, every other
    coefficient is unchanged, and the dimensions are the ones the matrix
    had. *)
Theorem assign_mat_uni_uni_round_trip {T} (x : matrix T) (m n : Z) (v : T) :
  mwf x ->
  1 <= m <= mrows x ->
  1 <= n <= mcols x ->
  exists x' : matrix T,
    assign_mat_uni_uni {| n_ := m |} {| n_ := n |} v x = (x', Ret tt)
    /\ mlookup x' (Z.to_nat (m - 1)) (Z.to_nat (n - 1)) = Some v
    /\ (forall i j : nat,
          i <> Z.to_nat (m - 1) \/ j <> Z.to_nat (n - 1) ->
          mlookup x' i j = mlookup x i j)
    /\ mrows x' = mrows x /\ mcols x' = mcols x /\ mwf x'.
Proof.
  intros Hwf Hm Hn.
  exists {| ncols := ncols x;
            mdata := alter (fun row => <[Z.to_nat (n - 1) := v]> row)
                           (Z.to_nat (m - 1)) (mdata x) |}.
  unfold mrows, mcols in *. unfold mwf in Hwf.
  split.
  - unfold assign_mat_uni_uni. cbv zeta. rewrite mbind_mget. cbn [n_].
    rewrite (mbind_ret _ _ x x tt)
      by (apply check_range_in; unfold mrows; exact Hm).
    rewrite (mbind_ret _ _ x x tt)
      by (apply check_range_in; unfold mcols; exact Hn).
    unfold mcoeff_write, mrows, mcols.
    replace ((0 <=? m - 1) && (m - 1 <? Z.of_nat (length (mdata x)))
             && (0 <=? n - 1) && (n - 1 <? Z.of_nat (ncols x)))
      with true; [reflexivity |].
    symmetry. rewrite !andb_true_iff.
    repeat split; try apply Z.leb_le; try apply Z.ltb_lt; lia.
  - cbn [mdata ncols]. repeat split.
    + unfold mlookup. cbn [mdata]. rewrite list_lookup_alter_eq.
      assert (Hi : (Z.to_nat (m - 1) < length (mdata x))%nat) by lia.
      destruct (lookup_lt_is_Some_2 _ _ Hi) as [row Hrow].
      rewrite Hrow. simpl. apply list_lookup_insert_eq.
      rewrite Forall_lookup in Hwf. rewrite (Hwf _ row Hrow). lia.
    + intros i j Hij. unfold mlookup. cbn [mdata].
      destruct (Nat.eq_dec i (Z.to_nat (m - 1))) as [-> | Hi].
      * rewrite list_lookup_alter_eq.
        destruct (mdata x !! Z.to_nat (m - 1)); simpl; [| reflexivity].
        apply list_lookup_insert_ne. destruct Hij; congruence.
      * now rewrite list_lookup_alter_ne by congruence.
    + now rewrite length_alter.
    + unfold mwf. cbn [mdata ncols]. apply Forall_alter; [exact Hwf |].
      intros row Hrow. now rewrite length_insert.
Qed.

(** The scenario of the 3 x 3 identity with 9 assigned at (2, 2). *)
Lemma assign_mat_uni_uni_round_trip_witness :
  let x := {| ncols := 3; mdata := [[1; 0; 0]; [0; 1; 0]; [0; 0; 1]] |} in
  exists x' : matrix Z,
    assign_mat_uni_uni {| n_ := 2 |} {| n_ := 2 |} 9 x = (x', Ret tt)
    /\ mlookup x' (Z.to_nat (2 - 1)) (Z.to_nat (2 - 1)) = Some 9
    /\ (forall i j : nat,
          i <> Z.to_nat (2 - 1) \/ j <> Z.to_nat (2 - 1) ->
          mlookup x' i j = mlookup x i j)
    /\ mrows x' = mrows x /\ mcols x' = mcols x /\ mwf x'.
Proof.
  apply (assign_mat_uni_uni_round_trip
           {| ncols := 3; mdata := [[1; 0; 0]; [0; 1; 0]; [0; 0; 1]] |}
           2 2 9).
  - repeat constructor.
  - vm_compute. split; discriminate.
  - vm_compute. split; discriminate.
Defined.

(** X9.  When the row index or the column index of a scalar assignment
    lies outside its range the call throws the out-of-range error and the
    matrix is unmodified. *)
Theorem assign_mat_uni_uni_out_of_range {T} (x : matrix T) (m n : Z)
    (v : T) :
  ~ (1 <= m <= mrows x) \/ ~ (1 <= n <= mcols x) ->
  assign_mat_uni_uni {| n_ := m |} {| n_ := n |} v x = (x, Throw OutOfRange).
Proof.
  intros Hout. unfold assign_mat_uni_uni. cbv zeta. rewrite mbind_mget.
  cbn [n_].
  destruct (Z_le_dec 1 m) as [Hlo |];
    [destruct (Z_le_dec m (mrows x)) as [Hhi |] |].
  - rewrite (mbind_ret _ _ x x tt) by (apply check_range_in; lia).
    apply mbind_throw, check_range_out. destruct Hout; [lia | assumption].
  - apply mbind_throw, check_range_out. lia.
  - apply mbind_throw, check_range_out. lia.
Qed.

Lemma assign_mat_uni_uni_out_of_range_witness :
  let x := {| ncols := 2; mdata := [[1; 2]; [3; 4]] |} in
  assign_mat_uni_uni {| n_ := 2 |} {| n_ := 0 |} 9 x = (x, Throw OutOfRange).
Proof.
  apply (assign_mat_uni_uni_out_of_range
           {| ncols := 2; mdata := [[1; 2]; [3; 4]] |} 2 0 9).
  right. vm_compute. intros [Hle _]. apply Hle. reflexivity.
Defined.

Section BlockFacts.
Context {T : Type}.

(** A run of a list replaced in place: the positions of the run read the
    replacement, the others read the list. *)
Lemma lookup_splice {A} (l w : list A) (a k : nat) :
  (a + length w <= length l)%nat ->
  (take a l ++ w ++ drop (a + length w) l) !! k
  = if decide (a <= k < a + length w)%nat then w !! (k - a)%nat else l !! k.
Proof.
  intros Hfit.
  assert (Hta : length (take a l) = a) by (rewrite length_take; lia).
  destruct (decide (a <= k < a + length w)%nat) as [Hin | Hout].
  - rewrite lookup_app_r by lia. rewrite Hta.
    apply lookup_app_l. lia.
  - destruct (Nat.lt_ge_cases k a) as [Hlt | Hge].
    + rewrite lookup_app_l by lia. now apply lookup_take_lt.
    + rewrite lookup_app_r by lia. rewrite Hta.
      rewrite lookup_app_r by lia. rewrite lookup_drop. f_equal. lia.
Qed.

Lemma length_splice {A} (l w : list A) (a : nat) :
  (a + length w <= length l)%nat ->
  length (take a l ++ w ++ drop (a + length w) l) = length l.
Proof.
  intros Hfit. rewrite !length_app, length_take, length_drop. lia.
Qed.

(** The matrix after a block write. *)
Lemma block_write_fits (x v : matrix T) (i j : nat) :
  (i + length (mdata v) <= length (mdata x))%nat ->
  (j + ncols v <= ncols x)%nat ->
  block_write (Z.of_nat i) (Z.of_nat j) (mrows v) (mcols v) v x
  = ({| ncols := ncols x;
        mdata :=
          take i (mdata x)
          ++ zip_with (fun row w => take j row ++ w ++ drop (j + ncols v) row)
                      (take (length (mdata v)) (drop i (mdata x))) (mdata v)
          ++ drop (i + length (mdata v)) (mdata x) |}, Ret tt).
Proof.
  intros Hrows Hcols. unfold block_write, mrows, mcols.
  replace ((0 <=? Z.of_nat i) && (0 <=? Z.of_nat j)
           && (0 <=? Z.of_nat (length (mdata v)))
           && (0 <=? Z.of_nat (ncols v))
           && (Z.of_nat i + Z.of_nat (length (mdata v))
               <=? Z.of_nat (length (mdata x)))
           && (Z.of_nat j + Z.of_nat (ncols v) <=? Z.of_nat (ncols x))
           && (Z.of_nat (length (mdata v)) =? Z.of_nat (length (mdata v)))
           && (Z.of_nat (ncols v) =? Z.of_nat (ncols v))) with true.
  - rewrite !Nat2Z.id.
    replace (Z.to_nat (Z.of_nat j + Z.of_nat (ncols v)))
      with (j + ncols v)%nat by lia.
    replace (Z.to_nat (Z.of_nat i + Z.of_nat (length (mdata v))))
      with (i + length (mdata v))%nat by lia.
    reflexivity.
  - symmetry. rewrite !andb_true_iff.
    repeat split; try apply Z.leb_le; try apply Z.eqb_eq; lia.
Qed.

Lemma block_rows_lookup (x v : matrix T) (i j r : nat) :
  (i + length (mdata v) <= length (mdata x))%nat ->
  (take i (mdata x)
   ++ zip_with (fun row w => take j row ++ w ++ drop (j + ncols v) row)
               (take (length (mdata v)) (drop i (mdata x))) (mdata v)
   ++ drop (i + length (mdata v)) (mdata x)) !! r
  = if decide (i <= r < i + length (mdata v))%nat
    then match mdata x !! r, mdata v !! (r - i)%nat with
         | Some row, Some w => Some (take j row ++ w ++ drop (j + ncols v) row)
         | _, _ => None
         end
    else mdata x !! r.
Proof.
  intros Hrows.
  set (mid := zip_with _ _ _).
  assert (Hmid : length mid = length (mdata v)).
  { subst mid. rewrite length_zip_with, length_take, length_drop. lia. }
  pose proof (lookup_splice (mdata x) mid i r) as Hsplice.
  rewrite Hmid in Hsplice. rewrite Hsplice by lia. clear Hsplice.
  destruct (decide (i <= r < i + length (mdata v))%nat) as [Hin | Hout];
    [| reflexivity].
  subst mid. rewrite lookup_zip_with, lookup_take_lt by lia.
  rewrite lookup_drop. replace (i + (r - i))%nat with r by lia.
  destruct (mdata x !! r); simpl; [| reflexivity].
  now destruct (mdata v !! (r - i)%nat).
Qed.

(** Coefficient by coefficient: inside the block the matrix reads the
    value, outside it reads what it held. *)
Lemma block_write_lookup (x v : matrix T) (i j r c : nat) :
  mwf x -> mwf v ->
  (i + length (mdata v) <= length (mdata x))%nat ->
  (j + ncols v <= ncols x)%nat ->
  mlookup (block_write (Z.of_nat i) (Z.of_nat j) (mrows v) (mcols v) v x).1
    r c
  = if decide ((i <= r < i + length (mdata v))%nat
               /\ (j <= c < j + ncols v)%nat)
    then mlookup v (r - i) (c - j)
    else mlookup x r c.
Proof.
  intros Hwx Hwv Hrows Hcols.
  rewrite block_write_fits by assumption.
  unfold mlookup. cbn [fst mdata].
  rewrite block_rows_lookup by assumption.
  unfold mwf in Hwx, Hwv. rewrite Forall_lookup in Hwx, Hwv.
  destruct (decide (i <= r < i + length (mdata v))%nat) as [Hr | Hr].
  - assert (Hrx : (r < length (mdata x))%nat) by lia.
    destruct (lookup_lt_is_Some_2 _ _ Hrx) as [row Hrow].
    assert (Hrv : (r - i < length (mdata v))%nat) by lia.
    destruct (lookup_lt_is_Some_2 _ _ Hrv) as [w Hw].
    rewrite Hrow, Hw.
    pose proof (Hwx r row Hrow) as Hlrow.
    pose proof (Hwv _ w Hw) as Hlw.
    pose proof (lookup_splice row w j c) as Hsplice.
    rewrite Hlw in Hsplice. rewrite Hsplice by lia. clear Hsplice.
    destruct (decide (j <= c < j + ncols v)%nat) as [Hc | Hc].
    + rewrite decide_True by tauto. reflexivity.
    + rewrite decide_False by tauto. reflexivity.
  - rewrite decide_False by tauto. reflexivity.
Qed.

Lemma block_write_wf (x v : matrix T) (i j : nat) :
  mwf x -> mwf v ->
  (i + length (mdata v) <= length (mdata x))%nat ->
  (j + ncols v <= ncols x)%nat ->
  let x' := (block_write (Z.of_nat i) (Z.of_nat j) (mrows v) (mcols v) v x).1
  in mwf x' /\ mrows x' = mrows x /\ mcols x' = mcols x.
Proof.
  intros Hwx Hwv Hrows Hcols. cbv zeta.
  rewrite block_write_fits by assumption. cbn [fst].
  unfold mwf, mrows, mcols in *. cbn [mdata ncols].
  rewrite Forall_lookup in Hwx, Hwv.
  split; [| split; [| reflexivity]].
  - apply Forall_lookup. intros r row' Hrow'.
    rewrite block_rows_lookup in Hrow' by assumption.
    destruct (decide (i <= r < i + length (mdata v))%nat).
    + destruct (mdata x !! r) as [row |] eqn:Hrow; [| discriminate].
      destruct (mdata v !! (r - i)%nat) as [w |] eqn:Hw; [| discriminate].
      injection Hrow' as <-.
      pose proof (Hwx r row Hrow). pose proof (Hwv _ w Hw).
      rewrite !length_app, length_take, length_drop. lia.
    + exact (Hwx r row' Hrow').
  - f_equal. set (mid := zip_with _ _ _).
    assert (Hmid : length mid = length (mdata v)).
    { subst mid. rewrite length_zip_with, length_take, length_drop. lia. }
    rewrite !length_app, length_take, length_drop, Hmid. lia.
Qed.

End BlockFacts.

(** X10.  An ascending min-max x min-max assignment whose block lies
    inside the matrix and whose value has the dimensions of the block
    returns normally; every coefficient of the block reads the coefficient
    of the value at the same offset, every coefficient outside the block is
    unchanged, and the dimensions are the ones the matrix had. *)
Theorem assign_mat_min_max_block {T} (x y : matrix T) (rlo rhi clo chi : Z) :
  mwf x -> mwf y ->
  1 <= rlo -> rhi <= mrows x -> 1 <= clo -> chi <= mcols x ->
  mrows y = rhi - rlo + 1 -> mcols y = chi - clo + 1 ->
  exists x' : matrix T,
    assign_mat_min_max
      {| min_ := rlo; max_ := rhi; positive_idx_ := true |}
      {| min_ := clo; max_ := chi; positive_idx_ := true |} y x
    = (x', Ret tt)
    /\ (forall a b : nat,
          Z.of_nat a < mrows y -> Z.of_nat b < mcols y ->
          mlookup x' (Z.to_nat (rlo - 1) + a) (Z.to_nat (clo - 1) + b)
          = mlookup y a b)
    /\ (forall r c : nat,
          ~ (rlo - 1 <= Z.of_nat r < rhi /\ clo - 1 <= Z.of_nat c < chi) ->
          mlookup x' r c = mlookup x r c)
    /\ mwf x' /\ mrows x' = mrows x /\ mcols x' = mcols x.
Proof.
  intros Hwx Hwy Hrlo Hrhi Hclo Hchi Hrows Hcols.
  set (i := Z.to_nat (rlo - 1)). set (j := Z.to_nat (clo - 1)).
  assert (Hfit_r : (i + length (mdata y) <= length (mdata x))%nat)
    by (unfold mrows in *; lia).
  assert (Hfit_c : (j + ncols y <= ncols x)%nat) by (unfold mcols in *; lia).
  assert (Hcall :
    assign_mat_min_max
      {| min_ := rlo; max_ := rhi; positive_idx_ := true |}
      {| min_ := clo; max_ := chi; positive_idx_ := true |} y x
    = block_write (Z.of_nat i) (Z.of_nat j) (mrows y) (mcols y) y x).
  { unfold assign_mat_min_max. cbn [positive_idx_ min_ max_]. cbv zeta.
    rewrite (mbind_ret _ _ x x tt) by (apply check_size_match_eq; lia).
    rewrite (mbind_ret _ _ x x tt) by (apply check_size_match_eq; lia).
    f_equal; lia. }
  exists (block_write (Z.of_nat i) (Z.of_nat j) (mrows y) (mcols y) y x).1.
  split.
  - rewrite Hcall. now rewrite block_write_fits.
  - split; [| split].
    + intros a b Ha Hb. rewrite block_write_lookup by assumption.
      rewrite decide_True by (unfold mrows, mcols in *; lia).
      f_equal; lia.
    + intros r c Hout. rewrite block_write_lookup by assumption.
      rewrite decide_False; [reflexivity |].
      unfold mrows, mcols in *. lia.
    + now apply block_write_wf.
Qed.

Lemma assign_mat_min_max_block_witness :
  let x := {| ncols := 3; mdata := [[1; 2; 3]; [4; 5; 6]; [7; 8; 9]] |} in
  let y := {| ncols := 2; mdata := [[10; 20]; [30; 40]] |} in
  exists x' : matrix Z,
    assign_mat_min_max
      {| min_ := 2; max_ := 3; positive_idx_ := true |}
      {| min_ := 1; max_ := 2; positive_idx_ := true |} y x
    = (x', Ret tt)
    /\ (forall a b : nat,
          Z.of_nat a < mrows y -> Z.of_nat b < mcols y ->
          mlookup x' (Z.to_nat (2 - 1) + a) (Z.to_nat (1 - 1) + b)
          = mlookup y a b)
    /\ (forall r c : nat,
          ~ (2 - 1 <= Z.of_nat r < 3 /\ 1 - 1 <= Z.of_nat c < 2) ->
          mlookup x' r c = mlookup x r c)
    /\ mwf x' /\ mrows x' = mrows x /\ mcols x' = mcols x.
Proof.
  apply (assign_mat_min_max_block
           {| ncols := 3; mdata := [[1; 2; 3]; [4; 5; 6]; [7; 8; 9]] |}
           {| ncols := 2; mdata := [[10; 20]; [30; 40]] |} 2 3 1 2);
    try (repeat constructor); try reflexivity; vm_compute; discriminate.
Defined.

Lemma rev_lookup {A} (l : list A) (k : nat) :
  (k < length l)%nat -> rev l !! k = l !! (length l - S k)%nat.
Proof. intros Hk. rewrite rev_alt. now apply reverse_lookup. Qed.

(** X11.  A reversed min-max index does what the ascending index with the
    two bounds exchanged does on the value reversed along that dimension:
    the rows in reverse order for a reversed row index, the coefficients of
    each row in reverse order for a reversed column index, both for two
    reversed indexes; the reversed value reads the value from the far
    end. *)
Theorem assign_mat_min_max_reversed {T} (x y : matrix T) (a b c d : Z) :
  (assign_mat_min_max
     {| min_ := a; max_ := b; positive_idx_ := false |}
     {| min_ := c; max_ := d; positive_idx_ := true |} y x
   = assign_mat_min_max
       {| min_ := b; max_ := a; positive_idx_ := true |}
       {| min_ := c; max_ := d; positive_idx_ := true |}
       (colwise_reverse y) x)
  /\ (assign_mat_min_max
        {| min_ := a; max_ := b; positive_idx_ := true |}
        {| min_ := c; max_ := d; positive_idx_ := false |} y x
      = assign_mat_min_max
          {| min_ := a; max_ := b; positive_idx_ := true |}
          {| min_ := d; max_ := c; positive_idx_ := true |}
          (rowwise_reverse y) x)
  /\ (assign_mat_min_max
        {| min_ := a; max_ := b; positive_idx_ := false |}
        {| min_ := c; max_ := d; positive_idx_ := false |} y x
      = assign_mat_min_max
          {| min_ := b; max_ := a; positive_idx_ := true |}
          {| min_ := d; max_ := c; positive_idx_ := true |}
          (mreverse y) x)
  /\ (forall i j : nat,
        (i < length (mdata y))%nat ->
        mlookup (colwise_reverse y) i j
        = mlookup y (length (mdata y) - S i) j)
  /\ (forall i j : nat,
        mwf y -> (j < ncols y)%nat ->
        mlookup (rowwise_reverse y) i j = mlookup y i (ncols y - S j))
  /\ (forall i j : nat,
        mwf y -> (i < length (mdata y))%nat -> (j < ncols y)%nat ->
        mlookup (mreverse y) i j
        = mlookup y (length (mdata y) - S i) (ncols y - S j)).
Proof.
  assert (Hrow : forall i j : nat,
            mwf y -> (j < ncols y)%nat ->
            match map (@rev T) (mdata y) !! i with
            | Some row => row !! j
            | None => None
            end = mlookup y i (ncols y - S j)).
  { intros i j Hwf Hj. unfold mlookup.
    change (map (@rev T) (mdata y)) with ((@rev T) <$> mdata y).
    rewrite list_lookup_fmap.
    destruct (mdata y !! i) as [row |] eqn:Hr; simpl; [| reflexivity].
    unfold mwf in Hwf. rewrite Forall_lookup in Hwf.
    pose proof (Hwf i row Hr) as Hlen.
    rewrite rev_lookup by lia. now rewrite Hlen. }
  unfold assign_mat_min_max, colwise_reverse, rowwise_reverse, mreverse,
    mrows, mcols.
  cbn [positive_idx_ min_ max_ mdata ncols]. cbv zeta.
  rewrite !length_rev, !length_map.
  repeat split.
  - intros i j Hi. unfold mlookup. cbn [mdata]. now rewrite rev_lookup.
  - intros i j Hwf Hj. unfold mlookup at 1. cbn [mdata]. now apply Hrow.
  - intros i j Hwf Hi Hj. unfold mlookup at 1. cbn [mdata].
    rewrite rev_lookup by (now rewrite length_map).
    rewrite length_map. now apply Hrow.
Qed.

(** X12.  The min-max x min-max overload has no range check.  With a value
    of the dimensions of the addressed block and a block that leaves the
    matrix, the ascending form goes on to [x.block(...)] unchecked; on no
    input does any of the four forms throw the out-of-range error, and
    unless the call returns normally the matrix is unmodified. *)
Theorem assign_mat_min_max_unchecked {T} (x y : matrix T)
    (rlo rhi clo chi : Z) :
  mrows y = rhi - rlo + 1 -> mcols y = chi - clo + 1 ->
  rlo < 1 \/ mrows x < rhi \/ clo < 1 \/ mcols x < chi ->
  assign_mat_min_max
    {| min_ := rlo; max_ := rhi; positive_idx_ := true |}
    {| min_ := clo; max_ := chi; positive_idx_ := true |} y x
  = (x, Undefined)
  /\ forall (x' y' : matrix T) (ridx cidx : index_min_max),
       (assign_mat_min_max ridx cidx y' x').2 <> Throw OutOfRange
       /\ ((assign_mat_min_max ridx cidx y' x').1 = x'
           \/ (assign_mat_min_max ridx cidx y' x').2 = Ret tt).
Proof.
  intros Hrows Hcols Hout. split.
  - unfold assign_mat_min_max. cbn [positive_idx_ min_ max_]. cbv zeta.
    rewrite (mbind_ret _ _ x x tt) by (apply check_size_match_eq; lia).
    rewrite (mbind_ret _ _ x x tt) by (apply check_size_match_eq; lia).
    unfold block_write.
    destruct (_ && _) eqn:E; [| reflexivity].
    repeat (apply andb_true_iff in E as [E ?]).
    repeat match goal with
           | Hb : (_ <=? _) = true |- _ => apply Z.leb_le in Hb
           end.
    lia.
  - intros x' y' ridx cidx. unfold assign_mat_min_max.
    destruct (positive_idx_ ridx), (positive_idx_ cidx); cbv zeta;
      unfold mbind, check_size_match, block_write;
      repeat (match goal with
              | |- context [if ?b then _ else _] => destruct b
              end; simpl);
      split; try discriminate; auto.
Qed.

Lemma assign_mat_min_max_unchecked_witness :
  let x := {| ncols := 2; mdata := [[1; 2]; [3; 4]] |} in
  let y := {| ncols := 2; mdata := [[10; 20]; [30; 40]] |} in
  assign_mat_min_max
    {| min_ := 2; max_ := 3; positive_idx_ := true |}
    {| min_ := 1; max_ := 2; positive_idx_ := true |} y x
  = (x, Undefined)
  /\ forall (x' y' : matrix Z) (ridx cidx : index_min_max),
       (assign_mat_min_max ridx cidx y' x').2 <> Throw OutOfRange
       /\ ((assign_mat_min_max ridx cidx y' x').1 = x'
           \/ (assign_mat_min_max ridx cidx y' x').2 = Ret tt).
Proof.
  apply (assign_mat_min_max_unchecked
           {| ncols := 2; mdata := [[1; 2]; [3; 4]] |}
           {| ncols := 2; mdata := [[10; 20]; [30; 40]] |} 2 3 1 2).
  - reflexivity.
  - reflexivity.
  - right. left. reflexivity.
Defined.

Section RowLoop.
Context {T I : Type} `{MultiIndex I}.
Variables (cidx : I) (y : list T) (m : Z) (width : nat)
          (rows : list (list T)).
Hypothesis m_in : 1 <= m <= Z.of_nat (length rows).

Lemma alter_insert_same {A} (g : A -> A) (l : list A) (k : nat) (a : A) :
  (k < length l)%nat -> alter g k (<[k := a]> l) = <[k := g a]> l.
Proof.
  intros Hk. apply list_eq. intros i.
  destruct (decide (i = k)) as [-> | Hne].
  - rewrite list_lookup_alter_eq, !list_lookup_insert_eq by lia. reflexivity.
  - rewrite list_lookup_alter_ne, !list_lookup_insert_ne by congruence.
    reflexivity.
Qed.

(** One iteration of mat[uni, multi] on a matrix is the iteration of
    vec[multi] on its row [m]. *)
Lemma uni_multi_step_row (n : Z) (row : list T) :
  length row = width ->
  assign_mat_uni_multi_step m cidx y n
    {| ncols := width; mdata := <[Z.to_nat (m - 1) := row]> rows |}
  = ({| ncols := width;
        mdata := <[Z.to_nat (m - 1) :=
                    (assign_vec_multi_step cidx y n row).1]> rows |},
     (assign_vec_multi_step cidx y n row).2).
Proof.
  intros Hrow.
  unfold assign_mat_uni_multi_step, assign_vec_multi_step. cbv zeta.
  rewrite !mbind_mget.
  unfold mbind, check_range, mcols, vsize. cbn [ncols]. rewrite Hrow.
  destruct ((1 <=? rvalue_at n cidx) && (rvalue_at n cidx <=? Z.of_nat width))
    eqn:Hrange; [| reflexivity].
  apply andb_true_iff in Hrange as [Hlo Hhi].
  apply Z.leb_le in Hlo, Hhi.
  unfold mret, mthrow, coeff_read.
  destruct (if 0 <=? n then y !! Z.to_nat n else None) as [v |];
    [| reflexivity].
  unfold mret, mcoeff_write, coeff_write, mrows, mcols, vsize.
  cbn [ncols mdata]. rewrite length_insert, Hrow.
  replace ((0 <=? m - 1) && (m - 1 <? Z.of_nat (length rows))
           && (0 <=? rvalue_at n cidx - 1)
           && (rvalue_at n cidx - 1 <? Z.of_nat width)) with true.
  2:{ symmetry. rewrite !andb_true_iff.
      repeat split; try apply Z.leb_le; try apply Z.ltb_lt; lia. }
  replace ((0 <=? rvalue_at n cidx - 1)
           && (rvalue_at n cidx - 1 <? Z.of_nat width)) with true.
  2:{ symmetry. rewrite !andb_true_iff.
      split; [apply Z.leb_le | apply Z.ltb_lt]; lia. }
  cbn [fst snd]. now rewrite alter_insert_same by lia.
Qed.

Lemma vec_multi_step_keeps_length (n : Z) (row : list T) :
  length (assign_vec_multi_step cidx y n row).1 = length row.
Proof.
  unfold assign_vec_multi_step. rewrite mbind_mget.
  apply mbind_keeps_length.
  - intros s'. now rewrite check_range_keeps.
  - intros _. apply mbind_keeps_length.
    + intros s'. now rewrite coeff_read_keeps.
    + intros w s'. apply coeff_write_keeps_length.
Qed.

Lemma uni_multi_loop_row (ns : list Z) :
  forall row : list T,
    length row = width ->
    mfor ns (assign_mat_uni_multi_step m cidx y)
      {| ncols := width; mdata := <[Z.to_nat (m - 1) := row]> rows |}
    = ({| ncols := width;
          mdata := <[Z.to_nat (m - 1) :=
                      (mfor ns (assign_vec_multi_step cidx y) row).1]> rows |},
       (mfor ns (assign_vec_multi_step cidx y) row).2).
Proof.
  induction ns as [| n ns IH]; intros row Hrow; [reflexivity |].
  cbn [mfor]. unfold mbind at 1. rewrite uni_multi_step_row by exact Hrow.
  unfold mbind.
  pose proof (vec_multi_step_keeps_length n row) as Hkeep.
  destruct (assign_vec_multi_step cidx y n row) as [row' [[] | e |]];
    cbn [fst snd] in *; try reflexivity.
  apply IH. congruence.
Qed.

End RowLoop.

(** X13.  Assigning a row vector through [uni, multi] with the row index
    within [1, rows] acts on that row exactly as the multiple-index
    assignment acts on a vector: the row becomes the vector that assignment
    leaves (partial writes included), the other rows are unchanged, and the
    outcome is its outcome. *)
Theorem assign_mat_uni_multi_as_row {T I} `{MultiIndex I} (x : matrix T)
    (m : Z) (cidx : I) (y row : list T) :
  1 <= m <= mrows x ->
  mdata x !! Z.to_nat (m - 1) = Some row ->
  length row = ncols x ->
  assign_mat_uni_multi {| n_ := m |} cidx y x
  = ({| ncols := ncols x;
        mdata := <[Z.to_nat (m - 1) := (assign_vec_multi cidx y row).1]>
                 (mdata x) |},
     (assign_vec_multi cidx y row).2).
Proof.
  intros Hm Hrow Hlen. destruct x as [width rows].
  unfold mrows in Hm. cbn [mdata ncols] in *.
  assert (Hsize : vsize row = Z.of_nat width) by (unfold vsize; lia).
  unfold assign_mat_uni_multi, assign_vec_multi. cbv zeta.
  rewrite !mbind_mget. cbn [n_].
  unfold mcols. cbn [ncols]. rewrite Hsize.
  destruct (Z.eq_dec (rvalue_index_size cidx (Z.of_nat width)) (vsize y))
    as [Heq | Hne].
  - rewrite (mbind_ret _ _ _ _ tt) by now apply check_size_match_eq.
    rewrite (mbind_ret _ _ _ _ tt)
      by (apply check_range_in; unfold mrows; exact Hm).
    rewrite (mbind_ret _ _ row row tt) by now apply check_size_match_eq.
    rewrite <- (list_insert_id rows _ _ Hrow) at 1.
    now rewrite (uni_multi_loop_row cidx y m width rows Hm).
  - rewrite (mbind_throw _ _ _ _ SizeMismatch)
      by now apply check_size_match_ne.
    rewrite (mbind_throw _ _ row row SizeMismatch)
      by now apply check_size_match_ne.
    cbn [fst snd]. now rewrite list_insert_id.
Qed.

Lemma assign_mat_uni_multi_as_row_witness :
  let x := {| ncols := 3; mdata := [[1; 2; 3]; [4; 5; 6]] |} in
  assign_mat_uni_multi {| n_ := 2 |} {| ns_ := [3; 7] |} [10; 20] x
  = ({| ncols := 3;
        mdata := <[Z.to_nat (2 - 1) :=
                    (assign_vec_multi {| ns_ := [3; 7] |} [10; 20]
                       [4; 5; 6]).1]> (mdata x) |},
     (assign_vec_multi {| ns_ := [3; 7] |} [10; 20] [4; 5; 6]).2).
Proof.
  apply (assign_mat_uni_multi_as_row
           {| ncols := 3; mdata := [[1; 2; 3]; [4; 5; 6]] |} 2
           {| ns_ := [3; 7] |} [10; 20] [4; 5; 6]).
  - vm_compute. split; discriminate.
  - reflexivity.
  - reflexivity.
Defined.

(** X14.  Assignment to an array through a leading single index within
    [1, size] is the assignment of the rest of the index list to that one
    element: the element becomes what the inner assignment leaves (also
    when it throws after partial writes), the other elements are unchanged,
    and the outcome is the inner outcome. *)
Theorem assign_array_uni_composes {E} (x : list E) (n : Z)
    (tail : Mut E unit) (e : E) :
  1 <= n <= Z.of_nat (length x) ->
  x !! Z.to_nat (n - 1) = Some e ->
  assign_array_uni {| n_ := n |} tail x
  = (<[Z.to_nat (n - 1) := (tail e).1]> x, (tail e).2).
Proof.
  intros Hn He. unfold assign_array_uni. rewrite mbind_mget. cbn [n_].
  rewrite (mbind_ret _ _ x x tt) by now apply check_range_in.
  unfold on_element.
  replace (0 <=? n - 1) with true by (symmetry; apply Z.leb_le; lia).
  rewrite He. now destruct (tail e).
Qed.

Lemma assign_array_uni_composes_witness :
  assign_array_uni {| n_ := 2 |} (assign_vec_uni {| n_ := 3 |} 9)
    [[1; 2; 3]; [4; 5; 6]]
  = (<[Z.to_nat (2 - 1) := (assign_vec_uni {| n_ := 3 |} 9 [4; 5; 6]).1]>
       [[1; 2; 3]; [4; 5; 6]],
     (assign_vec_uni {| n_ := 3 |} 9 [4; 5; 6]).2).
Proof.
  apply (assign_array_uni_composes [[1; 2; 3]; [4; 5; 6]] 2
           (assign_vec_uni {| n_ := 3 |} 9) [4; 5; 6]).
  - vm_compute. split; discriminate.
  - reflexivity.
Defined.

(** X15.  A leading single index out of range on an array makes the call
    throw the out-of-range error before the rest of the index list is
    looked at: the array is unmodified whatever the inner assignment would
    do. *)
Theorem assign_array_uni_out_of_range {E} (x : list E) (n : Z)
    (tail : Mut E unit) :
  ~ (1 <= n <= Z.of_nat (length x)) ->
  assign_array_uni {| n_ := n |} tail x = (x, Throw OutOfRange).
Proof.
  intros Hout. unfold assign_array_uni. rewrite mbind_mget.
  apply mbind_throw. now apply check_range_out.
Qed.

Lemma assign_array_uni_out_of_range_witness :
  assign_array_uni {| n_ := 3 |} (assign_vec_uni {| n_ := 1 |} 9)
    [[1; 2; 3]; [4; 5; 6]]
  = ([[1; 2; 3]; [4; 5; 6]], Throw OutOfRange).
Proof.
  apply (assign_array_uni_out_of_range [[1; 2; 3]; [4; 5; 6]] 3
           (assign_vec_uni {| n_ := 1 |} 9)).
  vm_compute. intros [_ Hle]. apply Hle. reflexivity.
Defined.

(** X16.  In an array of vectors, assigning a scalar through two single
    indexes in range returns normally; the coefficient read back at that
    element and position is the scalar, the other coefficients of the
    element and the other elements are unchanged. *)
Theorem assign_array_vec_round_trip {T} (x : list (list T)) (i j : Z)
    (v : T) (row : list T) :
  1 <= i <= Z.of_nat (length x) ->
  x !! Z.to_nat (i - 1) = Some row ->
  1 <= j <= vsize row ->
  exists row' : list T,
    assign_array_uni {| n_ := i |} (assign_vec_uni {| n_ := j |} v) x
    = (<[Z.to_nat (i - 1) := row']> x, Ret tt)
    /\ row' !! Z.to_nat (j - 1) = Some v
    /\ length row' = length row
    /\ (forall k : nat, k <> Z.to_nat (j - 1) -> row' !! k = row !! k)
    /\ (forall k : nat,
          k <> Z.to_nat (i - 1) ->
          <[Z.to_nat (i - 1) := row']> x !! k = x !! k).
Proof.
  intros Hi Hrow Hj. exists (<[Z.to_nat (j - 1) := v]> row).
  split.
  - unfold assign_array_uni. rewrite mbind_mget. cbn [n_].
    rewrite (mbind_ret _ _ x x tt) by now apply check_range_in.
    unfold on_element.
    replace (0 <=? i - 1) with true by (symmetry; apply Z.leb_le; lia).
    rewrite Hrow. now rewrite assign_vec_uni_in.
  - split; [apply list_lookup_insert_eq; unfold vsize in Hj; lia |].
    split; [apply length_insert |].
    split; intros k Hk; now apply list_lookup_insert_ne.
Qed.

Lemma assign_array_vec_round_trip_witness :
  exists row' : list Z,
    assign_array_uni {| n_ := 2 |} (assign_vec_uni {| n_ := 1 |} 9)
      [[1; 2]; [3; 4]]
    = (<[Z.to_nat (2 - 1) := row']> [[1; 2]; [3; 4]], Ret tt)
    /\ row' !! Z.to_nat (1 - 1) = Some 9
    /\ length row' = length [3; 4]
    /\ (forall k : nat, k <> Z.to_nat (1 - 1) -> row' !! k = [3; 4] !! k)
    /\ (forall k : nat,
          k <> Z.to_nat (2 - 1) ->
          <[Z.to_nat (2 - 1) := row']> [[1; 2]; [3; 4]] !! k
          = [[1; 2]; [3; 4]] !! k).
Proof.
  apply (assign_array_vec_round_trip [[1; 2]; [3; 4]] 2 1 9 [3; 4]).
  - vm_compute. split; discriminate.
  - reflexivity.
  - vm_compute. split; discriminate.
Defined.

Section ArrayFacts.
Context {T : Type}.

Lemma mfor_ext {S} (body1 body2 : Z -> Mut S unit) (ns : list Z) :
  (forall n s, body1 n s = body2 n s) ->
  forall s, mfor ns body1 s = mfor ns body2 s.
Proof.
  intros Hext. induction ns as [| n ns IH]; intros s; [reflexivity |].
  cbn [mfor]. unfold mbind. rewrite Hext.
  destruct (body2 n s) as [s' [[] | e |]]; auto.
Qed.

(** Writing a scalar into an element of an array is the coefficient write
    of a vector. *)
Lemma on_element_assign_nil (i : Z) (v : T) (x : list T) :
  on_element i (assign_nil v) x = coeff_write i v x.
Proof.
  unfold on_element, coeff_write, assign_nil, mput, vsize.
  destruct (Z.leb_spec 0 i) as [Hi | Hi]; cbn [andb].
  - destruct (x !! Z.to_nat i) as [e |] eqn:He.
    + apply lookup_lt_Some in He.
      replace (i <? Z.of_nat (length x)) with true
        by (symmetry; apply Z.ltb_lt; lia).
      reflexivity.
    + apply lookup_ge_None in He.
      replace (i <? Z.of_nat (length x)) with false
        by (symmetry; apply Z.ltb_ge; lia).
      reflexivity.
  - reflexivity.
Qed.

End ArrayFacts.

(** X17.  On a standard vector of scalars the array overloads do exactly
    what the Eigen vector overloads do, for a single index and for a
    multiple index, on every input: same target afterwards, same
    outcome. *)
Theorem assign_array_scalars_as_vector {T I} `{MultiIndex I} (x : list T)
    (u : index_uni) (v : T) (idx : I) (y : list T) :
  assign_array_uni u (assign_nil v) x = assign_vec_uni u v x
  /\ assign_array_multi idx (fun w => assign_nil w) y x
     = assign_vec_multi idx y x.
Proof.
  split.
  - unfold assign_array_uni, assign_vec_uni. rewrite !mbind_mget.
    unfold mbind, vsize.
    destruct (check_range (Z.of_nat (length x)) (n_ u) x) as [s [[] | e |]];
      auto.
    apply on_element_assign_nil.
  - unfold assign_array_multi, assign_vec_multi. cbv zeta.
    rewrite !mbind_mget. unfold mbind, vsize.
    destruct (check_size_match _ _ x) as [s [[] | e |]]; auto.
    apply mfor_ext. intros n s'.
    unfold assign_array_multi_step, assign_vec_multi_step. cbv zeta.
    rewrite !mbind_mget. unfold mbind, vsize.
    destruct (check_range _ _ s') as [s'' [[] | e |]]; auto.
    unfold elem_read, coeff_read.
    destruct (if 0 <=? n then y !! Z.to_nat n else None) as [w |];
      [| reflexivity].
    unfold mret. apply on_element_assign_nil.
Qed.

Section RowsLoop.
Context {T I : Type} `{MultiIndex I}.
Variables (idx : I) (y : matrix T) (width : nat).
Hypothesis y_wf : mwf y.
Hypothesis y_cols : ncols y = width.

(** One iteration of mat[multi] is the iteration of the array overload on
    the list of the rows. *)
Lemma mat_multi_step_rows (i : Z) (rows : list (list T)) :
  assign_mat_multi_step idx y i {| ncols := width; mdata := rows |}
  = ({| ncols := width;
        mdata := (assign_array_multi_step idx (fun r => assign_nil r)
                    (mdata y) i rows).1 |},
     (assign_array_multi_step idx (fun r => assign_nil r)
        (mdata y) i rows).2).
Proof.
  unfold assign_mat_multi_step, assign_array_multi_step. cbv zeta.
  rewrite !mbind_mget. unfold mbind, check_range, mrows. cbn [mdata].
  destruct ((1 <=? rvalue_at i idx)
            && (rvalue_at i idx <=? Z.of_nat (length rows))) eqn:Hrange;
    [| reflexivity].
  apply andb_true_iff in Hrange as [Hlo Hhi].
  apply Z.leb_le in Hlo, Hhi.
  unfold mret, row_read, elem_read.
  destruct (if 0 <=? i then mdata y !! Z.to_nat i else None) as [r |] eqn:Hr;
    [| reflexivity].
  assert (Hlen : length r = width).
  { destruct (0 <=? i); [| discriminate].
    unfold mwf in y_wf. rewrite Forall_lookup in y_wf.
    rewrite <- y_cols. exact (y_wf _ r Hr). }
  unfold mret, row_write, on_element, assign_nil, mput, mrows, mcols, vsize.
  cbn [mdata ncols]. rewrite Hlen.
  replace ((0 <=? rvalue_at i idx - 1)
           && (rvalue_at i idx - 1 <? Z.of_nat (length rows))
           && (Z.of_nat width =? Z.of_nat width)) with true.
  2:{ symmetry. rewrite !andb_true_iff.
      repeat split; [apply Z.leb_le | apply Z.ltb_lt | apply Z.eqb_eq]; lia. }
  replace (0 <=? rvalue_at i idx - 1) with true
    by (symmetry; apply Z.leb_le; lia).
  assert (Hk : (Z.to_nat (rvalue_at i idx - 1) < length rows)%nat) by lia.
  destruct (lookup_lt_is_Some_2 _ _ Hk) as [old Hold].
  now rewrite Hold.
Qed.

Lemma mat_multi_loop_rows (ns : list Z) :
  forall rows : list (list T),
    mfor ns (assign_mat_multi_step idx y) {| ncols := width; mdata := rows |}
    = ({| ncols := width;
          mdata := (mfor ns (assign_array_multi_step idx
                               (fun r => assign_nil r) (mdata y)) rows).1 |},
       (mfor ns (assign_array_multi_step idx
                   (fun r => assign_nil r) (mdata y)) rows).2).
Proof.
  induction ns as [| n ns IH]; intros rows; [reflexivity |].
  cbn [mfor]. unfold mbind at 1. rewrite mat_multi_step_rows.
  unfold mbind.
  destruct (assign_array_multi_step idx _ (mdata y) n rows)
    as [rows' [[] | e |]]; cbn [fst snd]; try reflexivity.
  apply IH.
Qed.

End RowsLoop.

(** X18.  Assigning a matrix with the column count of the target through a
    multiple row index acts on the rows of the target exactly as the array
    overload acts on a standard vector whose elements are those rows: same
    rows afterwards (partial writes included), same outcome, and the
    column count is kept. *)
Theorem assign_mat_multi_as_array {T I} `{MultiIndex I} (x y : matrix T)
    (idx : I) :
  mwf y ->
  ncols y = ncols x ->
  assign_mat_multi idx y x
  = ({| ncols := ncols x;
        mdata := (assign_array_multi idx (fun r => assign_nil r)
                    (mdata y) (mdata x)).1 |},
     (assign_array_multi idx (fun r => assign_nil r) (mdata y) (mdata x)).2).
Proof.
  intros Hwf Hcols. destruct x as [width rows]. cbn [ncols mdata] in *.
  unfold assign_mat_multi, assign_array_multi. cbv zeta.
  rewrite !mbind_mget. unfold mrows, mcols. cbn [mdata ncols].
  destruct (Z.eq_dec (rvalue_index_size idx (Z.of_nat (length rows)))
              (Z.of_nat (length (mdata y)))) as [Heq | Hne].
  - rewrite (mbind_ret _ _ _ _ tt) by now apply check_size_match_eq.
    rewrite (mbind_ret _ _ _ _ tt) by (apply check_size_match_eq; lia).
    rewrite (mbind_ret _ _ rows rows tt) by now apply check_size_match_eq.
    now apply mat_multi_loop_rows.
  - rewrite (mbind_throw _ _ _ _ SizeMismatch)
      by now apply check_size_match_ne.
    now rewrite (mbind_throw _ _ rows rows SizeMismatch)
      by now apply check_size_match_ne.
Qed.

Lemma assign_mat_multi_as_array_witness :
  let x := {| ncols := 2; mdata := [[1; 2]; [3; 4]; [5; 6]] |} in
  let y := {| ncols := 2; mdata := [[10; 20]; [30; 40]] |} in
  assign_mat_multi {| ns_ := [3; 1] |} y x
  = ({| ncols := ncols x;
        mdata := (assign_array_multi {| ns_ := [3; 1] |}
                    (fun r => assign_nil r) (mdata y) (mdata x)).1 |},
     (assign_array_multi {| ns_ := [3; 1] |}
        (fun r => assign_nil r) (mdata y) (mdata x)).2).
Proof.
  apply (assign_mat_multi_as_array
           {| ncols := 2; mdata := [[1; 2]; [3; 4]; [5; 6]] |}
           {| ncols := 2; mdata := [[10; 20]; [30; 40]] |}
           {| ns_ := [3; 1] |}).
  - repeat constructor.
  - reflexivity.
Defined.

Section ArrayNil.
Context {E U : Type}.
Variables (conv : U -> E) (elem : U -> Mut E unit).
Hypothesis elem_assigns : forall (u : U) (e : E), elem u e = (conv u, Ret tt).

Lemma array_nil_step (y : list U) (k : nat) (u : U) (pre : list E) (e : E)
    (rest : list E) :
  y !! k = Some u -> length pre = k ->
  (w <- elem_read y (Z.of_nat k) ;; on_element (Z.of_nat k) (elem w))
    (pre ++ e :: rest)
  = (pre ++ conv u :: rest, Ret tt).
Proof.
  intros Hu Hpre. unfold mbind, elem_read, on_element.
  replace (0 <=? Z.of_nat k) with true by (symmetry; apply Z.leb_le; lia).
  rewrite Nat2Z.id, Hu. unfold mret.
  rewrite lookup_app_r by lia. rewrite Hpre, Nat.sub_diag. cbn [lookup].
  simpl. rewrite elem_assigns. f_equal.
  replace k with (length pre + 0)%nat by lia.
  now rewrite insert_app_r.
Qed.

(** The loop of lines 52-53 from element [k] on, the elements before
    already being those of the value. *)
Lemma array_nil_loop (y : list U) (rest : list E) :
  forall k : nat,
    (k + length rest = length y)%nat ->
    mfor (seqZ (Z.of_nat k) (Z.of_nat (length rest)))
      (fun i => u <- elem_read y i ;; on_element i (elem u))
      (map conv (take k y) ++ rest)
    = (map conv y, Ret tt).
Proof.
  induction rest as [| e rest IH]; intros k Hk.
  - cbn [length] in *. rewrite seqZ_nil by lia. cbn [mfor]. unfold mret.
    rewrite app_nil_r, take_ge by lia. reflexivity.
  - cbn [length] in Hk.
    assert (Hky : (k < length y)%nat) by lia.
    destruct (lookup_lt_is_Some_2 _ _ Hky) as [u Hu].
    assert (Hpre : length (map conv (take k y)) = k)
      by (rewrite length_map, length_take; lia).
    rewrite seqZ_cons by (cbn [length]; lia). cbn [mfor].
    rewrite (mbind_ret _ _ _ _ tt (array_nil_step y k u _ e rest Hu Hpre)).
    replace (Z.succ (Z.of_nat k)) with (Z.of_nat (S k)) by lia.
    replace (Z.pred (Z.of_nat (length (e :: rest))))
      with (Z.of_nat (length rest)) by (cbn [length]; lia).
    rewrite <- (IH (S k)) by lia.
    rewrite (take_S_r y k u Hu), map_app. cbn [map].
    rewrite <- app_assoc. reflexivity.
Qed.

End ArrayNil.

(** X19.  Assigning a standard vector with an empty index list replaces the
    target whatever it held: when the assignment of one element overwrites
    it with the converted value, the target afterwards is the value
    converted element by element, with the length of the value, and the
    call returns normally. *)
Theorem assign_array_nil_replaces {E U} (conv : U -> E)
    (elem : U -> Mut E unit) (dflt : E) (y : list U) (x : list E) :
  (forall (u : U) (e : E), elem u e = (conv u, Ret tt)) ->
  assign_array_nil dflt elem y x = (map conv y, Ret tt).
Proof.
  intros Helem. unfold assign_array_nil.
  unfold mbind at 1. unfold resize. rewrite Nat2Z.id.
  set (x1 := take (length y) x ++ replicate (length y - length x) dflt).
  assert (Hx1 : length x1 = length y).
  { subst x1. rewrite length_app, length_take, length_replicate. lia. }
  rewrite <- Hx1 at 1.
  exact (array_nil_loop conv elem Helem y x1 0%nat Hx1).
Qed.

(** An array of arrays: the inner assignment is the same overload. *)
Lemma assign_array_nil_replaces_witness :
  assign_array_nil [] (assign_array_nil 0 (fun u => assign_nil u))
    [[1; 2]; [3]] [[7; 8; 9]]
  = (map (fun r : list Z => r) [[1; 2]; [3]], Ret tt).
Proof.
  apply (assign_array_nil_replaces (fun r : list Z => r)).
  intros u e.
  rewrite (assign_array_nil_replaces (fun v : Z => v) _ 0 u e)
    by reflexivity.
  now rewrite map_id.
Defined.

Section ShapeKept.
Context {T : Type}.

Lemma keeps_shape_same {A} (c : Mut (matrix T) A) :
  (forall x, (c x).1 = x) -> keeps_shape c.
Proof. intros Hc x. rewrite Hc. auto. Qed.

Lemma keeps_shape_bind {A B} (c : Mut (matrix T) A)
    (k : A -> Mut (matrix T) B) :
  keeps_shape c -> (forall a, keeps_shape (k a)) -> keeps_shape (mbind c k).
Proof.
  intros Hc Hk x. unfold mbind. specialize (Hc x).
  destruct (c x) as [x1 [a | e |]]; cbn [fst] in *; try exact Hc.
  destruct Hc as (Hc1 & Hc2 & Hc3).
  destruct (Hk a x1) as (Hk1 & Hk2 & Hk3).
  repeat split; [congruence | congruence | auto].
Qed.

Lemma keeps_shape_for (body : Z -> Mut (matrix T) unit) (ns : list Z) :
  (forall n, keeps_shape (body n)) -> keeps_shape (mfor ns body).
Proof.
  intros Hbody. induction ns as [| n ns IH]; cbn [mfor].
  - now apply keeps_shape_same.
  - apply keeps_shape_bind; [apply Hbody | intros _; exact IH].
Qed.

Lemma keeps_shape_get : keeps_shape (@mget (matrix T)).
Proof. now apply keeps_shape_same. Qed.

Lemma keeps_shape_range (max index : Z) :
  keeps_shape (@check_range (matrix T) max index).
Proof.
  apply keeps_shape_same. intros x. unfold check_range.
  now destruct (_ && _).
Qed.

Lemma keeps_shape_size (i j : Z) :
  keeps_shape (@check_size_match (matrix T) i j).
Proof.
  apply keeps_shape_same. intros x. unfold check_size_match.
  now destruct (_ =? _).
Qed.

Lemma keeps_shape_coeff_read (y : list T) (n : Z) :
  keeps_shape (@coeff_read T (matrix T) y n).
Proof.
  apply keeps_shape_same. intros x. unfold coeff_read.
  now destruct (if 0 <=? n then _ else _).
Qed.

Lemma keeps_shape_row_read (y : matrix T) (i : Z) :
  keeps_shape (@row_read T (matrix T) y i).
Proof.
  apply keeps_shape_same. intros x. unfold row_read.
  now destruct (if 0 <=? i then _ else _).
Qed.

Lemma keeps_shape_mcoeff_read (y : matrix T) (i j : Z) :
  keeps_shape (@mcoeff_read T (matrix T) y i j).
Proof.
  apply keeps_shape_same. intros x. unfold mcoeff_read.
  now destruct (if _ && _ then _ else _).
Qed.

Lemma keeps_shape_row_write (i : Z) (y : list T) :
  keeps_shape (row_write i y).
Proof.
  intros x. unfold row_write.
  destruct (_ && _) eqn:E; cbn [fst ncols mdata]; [| auto].
  apply andb_true_iff in E as [_ E]. apply Z.eqb_eq in E.
  unfold vsize, mcols in E.
  repeat split; [apply length_insert |].
  intros Hwf. apply mwf_insert_row; [exact Hwf | lia].
Qed.

Lemma keeps_shape_col_write (n : Z) (y : list T) :
  keeps_shape (col_write n y).
Proof.
  intros x. unfold col_write.
  destruct (_ && _) eqn:E; cbn [fst ncols mdata]; [| auto].
  apply andb_true_iff in E as [_ E]. apply Z.eqb_eq in E.
  unfold vsize, mrows in E.
  repeat split; [rewrite length_zip_with; lia |].
  unfold mwf. cbn [mdata ncols]. intros Hwf.
  rewrite Forall_lookup in Hwf. apply Forall_lookup.
  intros i row' Hrow'. rewrite lookup_zip_with in Hrow'.
  destruct (mdata x !! i) as [row |] eqn:Hrow; simpl in Hrow';
    [| discriminate].
  destruct (y !! i); simpl in Hrow'; [| discriminate].
  injection Hrow' as <-. rewrite length_insert. exact (Hwf i row Hrow).
Qed.

Lemma keeps_shape_mcoeff_write (m n : Z) (v : T) :
  keeps_shape (mcoeff_write m n v).
Proof.
  intros x. unfold mcoeff_write.
  destruct (_ && _); cbn [fst ncols mdata]; [| auto].
  repeat split; [apply length_alter |].
  unfold mwf. cbn [mdata ncols]. intros Hwf.
  apply Forall_alter; [exact Hwf |].
  intros row Hrow. now rewrite length_insert.
Qed.

End ShapeKept.

(** X20.  The overloads that assign a scalar, a vector or the rows of a
    matrix into a matrix keep its shape on every input and whatever the
    outcome (normal return, throw after partial writes, undefined access):
    the row and column counts afterwards are the ones before, and rows of
    one length stay so. *)
Theorem assign_mat_keeps_shape {T I1 I2} `{MultiIndex I1} `{MultiIndex I2}
    (u w : index_uni) (ridx : I1) (cidx : I2) (v : T) (y : list T)
    (ym : matrix T) :
  keeps_shape (assign_mat_uni u y)
  /\ keeps_shape (assign_mat_omni_uni u y)
  /\ keeps_shape (assign_mat_uni_omni u y)
  /\ keeps_shape (assign_mat_uni_uni u w v)
  /\ keeps_shape (assign_mat_multi ridx ym)
  /\ keeps_shape (assign_mat_uni_multi u cidx y)
  /\ keeps_shape (assign_mat_multi_uni ridx u y)
  /\ keeps_shape (assign_mat_multi_multi ridx cidx ym).
Proof.
  repeat split;
    unfold assign_mat_uni, assign_mat_omni_uni, assign_mat_uni_omni,
      assign_mat_uni_uni, assign_mat_multi, assign_mat_uni_multi,
      assign_mat_multi_uni, assign_mat_multi_multi,
      assign_mat_multi_step, assign_mat_uni_multi_step,
      assign_mat_multi_uni_step, assign_mat_multi_multi_step;
    cbv zeta;
    repeat first
      [ apply keeps_shape_get
      | apply keeps_shape_range
      | apply keeps_shape_size
      | apply keeps_shape_coeff_read
      | apply keeps_shape_row_read
      | apply keeps_shape_mcoeff_read
      | apply keeps_shape_row_write
      | apply keeps_shape_col_write
      | apply keeps_shape_mcoeff_write
      | apply keeps_shape_for; intros ?
      | apply keeps_shape_bind; [| intros ?] ].
Qed.

(** * Further properties of the adaptation code *)

Section CovarianceShape.
Context {F : Type} `{Scalar F}.

Lemma table_symmetric (g : nat -> nat -> F) (n j k : nat) :
  (forall a b, g a b = g b a) ->
  nth k (nth j (map (fun a => map (fun b => g a b) (seq 0 n)) (seq 0 n)) [])
      s0
  = nth j (nth k (map (fun a => map (fun b => g a b) (seq 0 n)) (seq 0 n)) [])
      s0.
Proof.
  intros Hg.
  assert (Hentry : forall a b,
    nth b (nth a (map (fun a => map (fun b => g a b) (seq 0 n)) (seq 0 n)) [])
        s0
    = if decide (a < n /\ b < n)%nat then g a b else s0).
  { intros a b.
    assert (Hrow : forall (A : Type) (G : nat -> A) (dflt : A) (i : nat),
              nth i (map G (seq 0 n)) dflt
              = if decide (i < n)%nat then G i else dflt).
    { intros A G dflt i. destruct (decide (i < n)%nat) as [Hi | Hi].
      - rewrite (nth_indep _ dflt (G 0%nat))
          by (now rewrite length_map, length_seq).
        rewrite map_nth, seq_nth by exact Hi. reflexivity.
      - apply nth_overflow. rewrite length_map, length_seq. lia. }
    rewrite Hrow.
    destruct (decide (a < n)%nat) as [Ha | Ha].
    - rewrite Hrow.
      destruct (decide (b < n)%nat) as [Hb | Hb].
      + now rewrite decide_True by tauto.
      + now rewrite decide_False by tauto.
    - rewrite decide_False by tauto. now destruct b. }
  rewrite !Hentry.
  destruct (decide (j < n /\ k < n)%nat), (decide (k < n /\ j < n)%nat);
    try tauto. apply Hg.
Qed.

End CovarianceShape.

(** X21.  On a matrix that has coefficients [covariance] returns a square
    matrix: as many rows and as many columns as the data has columns, every
    row of that length.  It reaches no undefined product. *)
Theorem covariance_square {F} `{Scalar F} (Y : matrix F) :
  0 < mrows Y * mcols Y ->
  exists C : matrix F,
    covariance Y = Ret C
    /\ ncols C = ncols Y
    /\ length (mdata C) = ncols Y
    /\ mwf C.
Proof.
  intros Hsize. eexists. split; [now apply covariance_unfolded |].
  cbn [ncols mdata]. repeat split.
  - now rewrite length_map, length_seq.
  - unfold mwf. cbn [ncols mdata]. apply Forall_forall. intros row Hrow.
    apply list_elem_of_In, in_map_iff in Hrow as (j & <- & _).
    now rewrite length_map, length_seq.
Qed.

Lemma covariance_square_witness :
  exists C : matrix float,
    covariance {| ncols := 2;
                  mdata := [[1%float; 2%float]; [3%float; 5%float];
                            [4%float; 9%float]] |}
    = Ret C
    /\ ncols C = 2%nat /\ length (mdata C) = 2%nat /\ mwf C.
Proof.
  apply (covariance_square
           {| ncols := 2;
              mdata := [[1%float; 2%float]; [3%float; 5%float];
                        [4%float; 9%float]] |}).
  reflexivity.
Defined.

(** X22.  When the product of two scalars does not depend on their order,
    the matrix [covariance] returns is symmetric: the coefficient in row
    [j] and column [k] is the coefficient in row [k] and column [j]. *)
Theorem covariance_symmetric {F} `{Scalar F} (Y C : matrix F) (j k : nat) :
  (forall a b : F, smul a b = smul b a) ->
  covariance Y = Ret C ->
  mcoeff C j k = mcoeff C k j.
Proof.
  intros Hcomm Hcov.
  destruct (Z.ltb_spec 0 (mrows Y * mcols Y)) as [Hsize | Hsize].
  - rewrite covariance_unfolded in Hcov by exact Hsize.
    injection Hcov as <-. unfold mcoeff. cbn [mdata].
    set (centered := {| ncols := ncols Y; mdata := _ |}).
    set (d := smax _ _).
    apply (table_symmetric
             (fun a b => sdiv (vsum (zip_with smul (mcol centered a)
                                                  (mcol centered b))) d)).
    intros a b. f_equal. f_equal.
    generalize (mcol centered a) (mcol centered b).
    induction l as [| p l IH]; intros [| q l']; cbn; try reflexivity.
    now rewrite Hcomm, IH.
  - unfold covariance, check_nonzero_size in Hcov.
    replace (0 <? mrows Y * mcols Y) with false in Hcov
      by (symmetry; now apply Z.ltb_ge).
    discriminate.
Qed.

Lemma covariance_symmetric_witness :
  let Y := {| ncols := 2;
              mdata := [[Q2Qc 1; Q2Qc 2]; [Q2Qc 3; Q2Qc 5];
                        [Q2Qc 4; Q2Qc 9]] |} in
  exists C : matrix Qc,
    covariance Y = Ret C /\ mcoeff C 0 1 = mcoeff C 1 0.
Proof.
  intros Y.
  assert (Hsize : 0 < mrows Y * mcols Y) by reflexivity.
  pose proof (covariance_unfolded Y Hsize) as HC. cbv zeta in HC.
  eexists. split; [exact HC |].
  exact (covariance_symmetric Y _ 0 1 Qcmult_comm HC).
Defined.

Section PowerOutcomes.
Context {F : Type} `{Scalar F} `{Sqrt F}.
Variable f : list F -> outcome (list F).

Lemma mbind_lift {S X Y} (o : outcome X) (k : X -> Mut S Y) (s : S) :
  mbind (lift o) k s
  = match o with
    | Ret a => k a s
    | Throw e => (s, Throw e)
    | Undefined => (s, Undefined)
    end.
Proof. now destruct o. Qed.

(** The loop writes the in-out parameters only on its way out through the
    [break]. *)
Lemma power_loop_writes_on_return (iters : list Z) :
  forall (v Av : list F) (eval : F) (r : pm_ref F),
    (power_loop f iters v Av eval r).1 = r
    \/ exists e : F, (power_loop f iters v Av eval r).2 = Ret e.
Proof.
  induction iters as [| i iters IH]; intros v Av eval r.
  - right. now exists eval.
  - cbn [power_loop]. rewrite mbind_mget, mbind_lift.
    destruct (vdot v Av) as [d | e |]; cbn [fst snd]; auto.
    destruct (_ || _).
    + right. eexists. reflexivity.
    + rewrite mbind_lift.
      destruct (f (vdiv Av (vnorm Av))) as [Av' | e |]; cbn [fst snd]; auto.
Qed.

(** From iteration [j] on with [m] iterations left, a normal return of the
    loop leaves a count between [j + 1] and [j + m]. *)
Lemma power_loop_count (m : nat) :
  forall (j : Z) (v Av : list F) (eval : F) (r r' : pm_ref F) (e : F),
    max_iterations r = j + Z.of_nat m ->
    power_loop f (seqZ j (Z.of_nat m)) v Av eval r = (r', Ret e) ->
    (m = 0%nat /\ r' = r /\ e = eval)
    \/ (j + 1 <= max_iterations r' <= j + Z.of_nat m).
Proof.
  induction m as [| m IH]; intros j v Av eval r r' e Hcap Hrun.
  - left. cbn in Hrun. unfold mret in Hrun. injection Hrun as <- <-. auto.
  - right. rewrite seqZ_cons in Hrun by lia. cbn [power_loop] in Hrun.
    rewrite mbind_mget, mbind_lift in Hrun.
    destruct (vdot v Av) as [d | |]; try discriminate.
    destruct (_ || _).
    + cbn in Hrun. injection Hrun as <- _. cbn [max_iterations]. lia.
    + rewrite mbind_lift in Hrun.
      destruct (f (vdiv Av (vnorm Av))) as [Av' | |]; try discriminate.
      replace (Z.pred (Z.of_nat (S m))) with (Z.of_nat m) in Hrun by lia.
      apply IH in Hrun as [(-> & Hr & _) | Hcount]; [| lia | lia].
      subst r'. lia.
Qed.

End PowerOutcomes.

(** X23.  [power_method] writes its two in-out parameters only when it
    returns normally: when the operator throws or returns a vector of
    another size (at the first call: the size-mismatch error), or an Eigen
    operation is undefined, [max_iterations] and [tol] still hold the
    supplied values. *)
Theorem power_method_writes_on_return {F} `{Scalar F} `{Sqrt F}
    (f : list F -> outcome (list F)) (v0 : list F) (r0 : pm_ref F) :
  ((power_method f v0 r0).1 = r0
   \/ exists e : F, (power_method f v0 r0).2 = Ret e)
  /\ forall Av : list F,
       f v0 = Ret Av -> length Av <> length v0 ->
       power_method f v0 r0 = (r0, Throw SizeMismatch).
Proof.
  split.
  - unfold power_method. rewrite mbind_mget, mbind_lift.
    destruct (f v0) as [Av | e |]; cbn [fst snd]; auto.
    unfold mbind, check_size_match.
    destruct (vsize Av =? vsize v0); cbn [fst snd]; auto.
    apply power_loop_writes_on_return.
  - intros Av HAv Hlen. unfold power_method.
    rewrite mbind_mget, mbind_lift, HAv.
    apply mbind_throw, check_size_match_ne. unfold vsize. lia.
Qed.

(** X24.  Whatever the operator, when [power_method] returns normally with
    a supplied cap of at least 1, [max_iterations] holds a count between 1
    and the cap. *)
Theorem power_method_count_within_cap {F} `{Scalar F} `{Sqrt F}
    (f : list F -> outcome (list F)) (v0 : list F) (r0 r' : pm_ref F)
    (e : F) :
  1 <= max_iterations r0 ->
  power_method f v0 r0 = (r', Ret e) ->
  1 <= max_iterations r' <= max_iterations r0.
Proof.
  intros Hcap Hrun. unfold power_method in Hrun.
  rewrite mbind_mget, mbind_lift in Hrun.
  destruct (f v0) as [Av | |]; try discriminate.
  unfold mbind at 1, check_size_match in Hrun.
  destruct (vsize Av =? vsize v0); try discriminate.
  cbn in Hrun.
  replace (max_iterations r0) with (Z.of_nat (Z.to_nat (max_iterations r0)))
    in Hrun at 1 by lia.
  apply power_loop_count in Hrun as [(Hz & _ & _) | Hcount]; lia.
Qed.

Lemma power_method_count_within_cap_witness :
  1 <= max_iterations
         {| max_iterations := 2; tol := 0x1.0000000000001p-52%float |}
    <= max_iterations {| max_iterations := 100; tol := 0.001%float |}.
Proof.
  apply (power_method_count_within_cap
           (fun v => Ret (map (smul 2%float) v)) [1%float; 1%float]
           {| max_iterations := 100; tol := 0.001%float |}
           {| max_iterations := 2; tol := 0x1.0000000000001p-52%float |}
           2%float).
  - vm_compute. discriminate.
  - vm_compute. reflexivity.
Defined.

(** X25.  [add_sample] keeps the five most recent draws: when it returns
    and at most five draws were retained before, the retained draws
    afterwards are the last five of the old ones with the new draw
    appended, the new draw is the last of them, the request counter has advanced by
    one, and the sample matrix and the collected count are unchanged. *)
Theorem add_sample_keeps_last_five {F} (gathered : matrix F) (q : list F)
    (curr_win_count : Z) (h h' : heap F) :
  add_sample gathered q curr_win_count h = (h', Ret tt) ->
  (length (last_qs_ (this h)) <= 5)%nat ->
  last_qs_ (this h')
  = drop (length (last_qs_ (this h)) + 1 - 5) (last_qs_ (this h) ++ [q])
  /\ (length (last_qs_ (this h')) <= 5)%nat
  /\ last (last_qs_ (this h')) = Some q
  /\ draw_req_counter_ (this h') = draw_req_counter_ (this h) + 1
  /\ draws (this h') !! Z.to_nat (draw_req_counter_ (this h)) = Some gathered
  /\ Y_ (this h') = Y_ (this h)
  /\ draws_collected_counter_ (this h')
     = draws_collected_counter_ (this h).
Proof.
  intros Hrun Hfive. unfold add_sample in Hrun.
  rewrite mbind_mget in Hrun. cbv zeta in Hrun.
  destruct (_ && _) eqn:Hslot; [| discriminate].
  injection Hrun as <-. cbn [this last_qs_ draw_req_counter_ draws Y_
    draws_collected_counter_].
  repeat (apply andb_true_iff in Hslot as [Hslot ?]).
  apply Z.leb_le in Hslot.
  repeat match goal with
         | Hb : (_ <? _) = true |- _ => apply Z.ltb_lt in Hb
         end.
  assert (Hlast : last_qs_ (this h) ++ [q] <> []) by (now destruct (last_qs_ (this h))).
  assert (Hkeep :
    (if (5 <? length (last_qs_ (this h) ++ [q]))%nat
     then tail (last_qs_ (this h) ++ [q]) else last_qs_ (this h) ++ [q])
    = drop (length (last_qs_ (this h)) + 1 - 5) (last_qs_ (this h) ++ [q])).
  { rewrite length_app. cbn [length].
    destruct (Nat.ltb_spec 5 (length (last_qs_ (this h)) + 1)) as [Hgt | Hle].
    - replace (length (last_qs_ (this h)) + 1 - 5)%nat with 1%nat by lia.
      now destruct (last_qs_ (this h) ++ [q]).
    - replace (length (last_qs_ (this h)) + 1 - 5)%nat with 0%nat by lia.
      reflexivity. }
  rewrite Hkeep. repeat split.
  - rewrite length_drop, length_app. cbn [length]. lia.
  - rewrite drop_app_le by lia. apply last_snoc.
  - apply list_lookup_insert_eq. lia.
Qed.

Lemma add_sample_keeps_last_five_witness :
  let o : mpi_auto_adaptation Z :=
    {| num_chains_ := 1; n_params_ := 1; window_size_ := 3;
       init_buffer_ := 0; draw_req_counter_ := 1;
       draws_collected_counter_ := 4;
       last_qs_ := [[1]; [2]; [3]; [4]; [5]];
       draws := replicate 3 {| ncols := 1; mdata := [[0]] |};
       Y_ := {| ncols := 1; mdata := replicate 8 [0] |};
       is_diagonal_ := false |} in
  let h := {| this := o; covar := {| ncols := 0; mdata := [] |}; rng := 0 |} in
  let h' := (add_sample {| ncols := 1; mdata := [[6]] |} [6] 0 h).1 in
  last_qs_ (this h') = drop (5 + 1 - 5) ([[1]; [2]; [3]; [4]; [5]] ++ [[6]])
  /\ (length (last_qs_ (this h')) <= 5)%nat
  /\ last (last_qs_ (this h')) = Some [6]
  /\ draw_req_counter_ (this h') = 1 + 1
  /\ draws (this h') !! Z.to_nat 1 = Some {| ncols := 1; mdata := [[6]] |}
  /\ Y_ (this h') = Y_ o
  /\ draws_collected_counter_ (this h') = 4.
Proof.
  intros o h h'.
  apply (add_sample_keeps_last_five {| ncols := 1; mdata := [[6]] |} [6] 0
           h h').
  - reflexivity.
  - vm_compute. lia.
Defined.

Section CollectFacts.
Context {F : Type} `{Scalar F}.

Lemma window_frame_refl (h : heap F) : window_frame h h.
Proof. unfold window_frame. repeat split; auto. Qed.

Lemma window_frame_trans (h1 h2 h3 : heap F) :
  window_frame h1 h2 -> window_frame h2 h3 -> window_frame h1 h3.
Proof.
  unfold window_frame.
  intros (A1 & A2 & A3 & A4 & A5 & A6 & A7 & A8 & A9 & A10 & A11 & A12
          & A13 & A14)
         (B1 & B2 & B3 & B4 & B5 & B6 & B7 & B8 & B9 & B10 & B11 & B12
          & B13 & B14).
  repeat split; try congruence.
  intros r Hr. rewrite B14, A14; [reflexivity | exact Hr |].
  rewrite A6, A1. exact Hr.
Qed.

(** One draw stored: a single row of [Y_] at or above the rows of the
    draws collected before is written, nothing else. *)
Lemma store_draw_frame (index chain : Z) (h : heap F) :
  0 <= num_chains_ (this h) ->
  window_frame h (store_draw index chain h).1.
Proof.
  intros Hnc. unfold store_draw. rewrite mbind_mget. cbv zeta.
  destruct (if 0 <=? index then _ else None) as [d |] eqn:Hd;
    [| apply window_frame_refl].
  assert (Hindex : 0 <= index).
  { destruct (Z.leb_spec 0 index); [assumption | discriminate]. }
  destruct (_ && _) eqn:Hok; [| apply window_frame_refl].
  repeat (apply andb_true_iff in Hok as [Hok ?]).
  apply Z.leb_le in Hok.
  repeat match goal with
         | Hb : (_ <=? _) = true |- _ => apply Z.leb_le in Hb
         | Hb : (_ <? _) = true |- _ => apply Z.ltb_lt in Hb
         end.
  unfold window_frame, set_this, set_Y.
  cbn [fst this covar rng num_chains_ n_params_ window_size_ init_buffer_
       draw_req_counter_ draws_collected_counter_ last_qs_ draws Y_
       is_diagonal_ ncols mdata].
  repeat split; try reflexivity.
  - apply length_insert.
  - intros r Hr. apply list_lookup_insert_ne. nia.
Qed.

Lemma store_draw_no_throw (index chain : Z) (h : heap F) (e : exn) :
  (store_draw index chain h).2 <> Throw e.
Proof.
  unfold store_draw. rewrite mbind_mget. cbv zeta.
  destruct (if 0 <=? index then _ else None); [| discriminate].
  destruct (_ && _); discriminate.
Qed.

Lemma mfor_no_throw {S} (body : Z -> Mut S unit) (ns : list Z) (e : exn) :
  (forall n s, (body n s).2 <> Throw e) ->
  forall s, (mfor ns body s).2 <> Throw e.
Proof.
  intros Hbody. induction ns as [| n ns IH]; intros s; [discriminate |].
  cbn [mfor]. unfold mbind. specialize (Hbody n s).
  destruct (body n s) as [s' [[] | e' |]]; cbn [snd] in *;
    [apply IH | congruence | discriminate].
Qed.

Lemma chains_loop_frame (index : Z) (chains : list Z) :
  forall h : heap F,
    0 <= num_chains_ (this h) ->
    window_frame h (mfor chains (store_draw index) h).1.
Proof.
  induction chains as [| c chains IH]; intros h Hnc;
    [apply window_frame_refl |].
  cbn [mfor]. unfold mbind.
  pose proof (store_draw_frame index c h Hnc) as Hstep.
  destruct (store_draw index c h) as [h1 [[] | e |]]; cbn [fst] in *;
    try exact Hstep.
  apply (window_frame_trans h h1); [exact Hstep |].
  apply IH. destruct Hstep as (Hn & _). lia.
Qed.

Lemma slot_loop_frame (index : Z) (h : heap F) :
  window_frame h
    ((h0 <- mget ;;
      mfor (seqZ 0 (num_chains_ (this h0))) (store_draw index)) h).1.
Proof.
  rewrite mbind_mget.
  destruct (Z_le_dec 0 (num_chains_ (this h))) as [Hnc | Hnc].
  - now apply chains_loop_frame.
  - rewrite seqZ_nil by lia. apply window_frame_refl.
Qed.

Lemma slots_loop_frame (completed : list Z) :
  forall h : heap F,
    window_frame h
      (mfor completed (fun index =>
         h0 <- mget ;;
         mfor (seqZ 0 (num_chains_ (this h0))) (store_draw index)) h).1.
Proof.
  induction completed as [| index completed IH]; intros h;
    [apply window_frame_refl |].
  cbn [mfor]. unfold mbind at 1.
  pose proof (slot_loop_frame index h) as Hstep.
  destruct ((h0 <- mget ;; mfor _ (store_draw index)) h)
    as [h1 [[] | e |]]; cbn [fst] in *; try exact Hstep.
  apply (window_frame_trans h h1); [exact Hstep | apply IH].
Qed.

Lemma collect_draws_no_throw (completed : list Z) (win : Z) (h : heap F)
    (e : exn) :
  (collect_draws completed win h).2 <> Throw e.
Proof.
  unfold collect_draws. rewrite mbind_mget.
  destruct (_ =? _); [| discriminate].
  unfold mbind at 1.
  pose proof (mfor_no_throw
    (fun index => h0 <- mget ;;
       mfor (seqZ 0 (num_chains_ (this h0))) (store_draw index))
    completed e) as Hloop.
  assert (Hbody : forall n s,
    ((h0 <- mget ;; mfor (seqZ 0 (num_chains_ (this h0))) (store_draw n)) s).2
    <> Throw e).
  { intros n s. rewrite mbind_mget. apply mfor_no_throw.
    intros c s'. apply store_draw_no_throw. }
  specialize (Hloop Hbody h).
  destruct (mfor completed _ h) as [h1 [[] | e' |]]; cbn [snd] in *;
    [| congruence | discriminate].
  rewrite mbind_mget. discriminate.
Qed.

End CollectFacts.




(** * Coefficients of the candidate metrics *)

Section MetricCoefficients.
Context {F : Type} `{Scalar F}.

Lemma lookup_map {A B} (g : A -> B) (l : list A) (i : nat) :
  map g l !! i = g <$> l !! i.
Proof.
  revert i. induction l as [| a l IH]; intros [| i]; simpl; auto.
Qed.

Lemma mcoeff_lookup (m : matrix F) (i j : nat) (row : list F) (a : F) :
  mdata m !! i = Some row -> row !! j = Some a -> mcoeff m i j = a.
Proof.
  intros Hrow Ha. unfold mcoeff.
  rewrite (nth_lookup_Some _ _ _ _ Hrow). now apply nth_lookup_Some.
Qed.

(** A well-formed matrix has a coefficient at every position inside its
    dimensions, and [mcoeff] reads it. *)
Lemma mwf_coeff (m : matrix F) (i j : nat) :
  mwf m -> (i < length (mdata m))%nat -> (j < ncols m)%nat ->
  exists row : list F,
    mdata m !! i = Some row /\ row !! j = Some (mcoeff m i j).
Proof.
  intros Hwf Hi Hj.
  destruct (lookup_lt_is_Some_2 _ _ Hi) as [row Hrow].
  unfold mwf in Hwf. rewrite Forall_lookup in Hwf.
  pose proof (Hwf _ _ Hrow) as Hlen.
  destruct (lookup_lt_is_Some_2 row j ltac:(lia)) as [a Ha].
  exists row. split; [exact Hrow |].
  now rewrite (mcoeff_lookup m i j row a Hrow Ha).
Qed.

Lemma as_diagonal_shape (d : list F) :
  ncols (as_diagonal d) = length d
  /\ length (mdata (as_diagonal d)) = length d.
Proof. unfold as_diagonal. cbn [ncols mdata]. now rewrite length_imap. Qed.

(** A matrix made by [asDiagonal] has the vector on its diagonal. *)
Lemma as_diagonal_on (d : list F) (i : nat) (a : F) :
  d !! i = Some a -> mcoeff (as_diagonal d) i i = a.
Proof.
  intros Ha. pose proof (lookup_lt_Some _ _ _ Ha) as Hi.
  apply (mcoeff_lookup _ i i (<[i := a]> (replicate (length d) s0))).
  - unfold as_diagonal. cbn [mdata]. now rewrite list_lookup_imap, Ha.
  - apply list_lookup_insert_eq. now rewrite length_replicate.
Qed.

(** The matrix of the handler, coefficient by coefficient. *)
Lemma fallback_metric_coeff (M num_draws : Z) :
  exists m : matrix F,
    fallback_metric M num_draws = Ret m
    /\ ncols m = Z.to_nat M
    /\ length (mdata m) = Z.to_nat M
    /\ forall i j : nat,
         (i < Z.to_nat M)%nat -> (j < Z.to_nat M)%nat ->
         mcoeff m i j
         = if Nat.eqb i j
           then sadd (smul (sdiv (of_int num_draws)
                                 (sadd (of_int num_draws) (lit 5))) s0)
                     (smul (smul (lit (1 # 1000))
                                 (sdiv (lit 5)
                                       (sadd (of_int num_draws) (lit 5))))
                           s1)
           else s0.
Proof.
  eexists. split; [apply fallback_metric_closed |].
  destruct (as_diagonal_shape
              (replicate (Z.to_nat M)
                 (sadd (smul (sdiv (of_int num_draws)
                                   (sadd (of_int num_draws) (lit 5))) s0)
                       (smul (smul (lit (1 # 1000))
                                   (sdiv (lit 5)
                                         (sadd (of_int num_draws) (lit 5))))
                             s1)))) as [Hc Hr].
  rewrite length_replicate in Hc, Hr.
  split; [exact Hc |]. split; [exact Hr |].
  intros i j Hi Hj. destruct (Nat.eqb_spec i j) as [-> | Hne].
  - apply as_diagonal_on. now apply lookup_replicate_2.
  - now apply as_diagonal_off.
Qed.

(** The dense candidate of lines 831-832, coefficient by coefficient, for
    a square training covariance. *)
Lemma shrink_coeff (n : Z) (cov : matrix F) (c : nat) :
  ncols cov = c -> length (mdata cov) = c -> mwf cov ->
  exists d : matrix F,
    shrink n cov = Ret d
    /\ ncols d = c
    /\ length (mdata d) = c
    /\ mwf d
    /\ forall i j : nat,
         (i < c)%nat -> (j < c)%nat ->
         mcoeff d i j
         = sadd (smul (sdiv (of_int n) (sadd (of_int n) (lit 5)))
                      (mcoeff cov i j))
                (smul (smul (lit (1 # 1000))
                            (sdiv (lit 5) (sadd (of_int n) (lit 5))))
                      (if Nat.eqb i j then s1 else s0)).
Proof.
  intros Hc Hr Hwf. unfold shrink, madd, mscale, midentity.
  cbn [ncols mdata]. rewrite !length_map, length_seq, !Nat.eqb_refl.
  cbn [andb]. eexists. split; [reflexivity |]. cbn [ncols mdata].
  split; [exact Hc |].
  split; [now rewrite length_zip_with, !length_map, length_seq, Hr, Nat.min_id |].
  set (a := sdiv (of_int n) (sadd (of_int n) (lit 5))).
  set (b := smul (lit (1 # 1000)) (sdiv (lit 5) (sadd (of_int n) (lit 5)))).
  assert (Hrow : forall i : nat, (i < c)%nat ->
    exists row : list F,
      mdata cov !! i = Some row /\ length row = c
      /\ zip_with (zip_with sadd)
           (map (map (smul a)) (mdata cov))
           (map (map (smul b))
              (map (fun i0 => map (fun j => if Nat.eqb i0 j then s1 else s0)
                                  (seq 0 (ncols cov)))
                   (seq 0 (length (mdata cov))))) !! i
        = Some (zip_with sadd (map (smul a) row)
                  (map (smul b)
                     (map (fun j => if Nat.eqb i j then s1 else s0)
                          (seq 0 c))))).
  { intros i Hi.
    destruct (lookup_lt_is_Some_2 (mdata cov) i ltac:(lia)) as [row Hrow].
    exists row. split; [exact Hrow |].
    split.
    { unfold mwf in Hwf. rewrite Forall_lookup in Hwf.
      rewrite (Hwf _ _ Hrow). exact Hc. }
    rewrite lookup_zip_with, !lookup_map, Hrow, Hr, Hc.
    rewrite lookup_seq_lt by exact Hi. reflexivity. }
  split.
  - unfold mwf. cbn [ncols mdata]. apply Forall_lookup. intros i row Hi.
    pose proof (lookup_lt_Some _ _ _ Hi) as Hlt.
    rewrite length_zip_with, !length_map, length_seq, Hr, Nat.min_id in Hlt.
    destruct (Hrow i Hlt) as (r & _ & Hlen & Hd).
    rewrite Hd in Hi. injection Hi as <-.
    now rewrite length_zip_with, !length_map, length_seq, Hlen, Nat.min_id.
  - intros i j Hi Hj.
    destruct (Hrow i Hi) as (r & Hr_i & Hlen & Hd).
    destruct (lookup_lt_is_Some_2 r j ltac:(lia)) as [x Hx].
    rewrite (mcoeff_lookup cov i j r x Hr_i Hx).
    eapply mcoeff_lookup; [exact Hd |].
    rewrite lookup_zip_with, !lookup_map, Hx.
    rewrite lookup_seq_lt by exact Hj. reflexivity.
Qed.

(** The diagonal candidate of line 834, coefficient by coefficient. *)
Lemma diagonal_part_coeff (d : matrix F) (c : nat) :
  ncols d = c -> length (mdata d) = c ->
  ncols (diagonal_part d) = c
  /\ length (mdata (diagonal_part d)) = c
  /\ forall i j : nat,
       (i < c)%nat -> (j < c)%nat ->
       mcoeff (diagonal_part d) i j
       = if Nat.eqb i j then mcoeff d i i else s0.
Proof.
  intros Hc Hr. unfold diagonal_part.
  destruct (as_diagonal_shape (mdiagonal d)) as [Hc' Hr'].
  assert (Hlen : length (mdiagonal d) = c).
  { unfold mdiagonal. now rewrite length_map, length_seq, Hc, Hr, Nat.min_id. }
  rewrite Hlen in Hc', Hr'.
  split; [exact Hc' |]. split; [exact Hr' |].
  intros i j Hi Hj. destruct (Nat.eqb_spec i j) as [-> | Hne].
  - apply as_diagonal_on. unfold mdiagonal.
    rewrite lookup_map, Hc, Hr, Nat.min_id.
    now rewrite lookup_seq_lt by exact Hj.
  - now apply as_diagonal_off.
Qed.

(** The rows of a block of whole-width rows from column 0. *)
Lemma mblock_lookup (m b : matrix F) (i p q : Z) :
  mblock m i 0 p q = Ret b ->
  ncols b = Z.to_nat q
  /\ length (mdata b) = Z.to_nat p
  /\ forall r : nat,
       (r < Z.to_nat p)%nat ->
       mdata b !! r = take (Z.to_nat q) <$> mdata m !! (Z.to_nat i + r)%nat.
Proof.
  unfold mblock. destruct (_ && _) eqn:E; [| discriminate].
  intros [= <-]. cbn [ncols mdata].
  repeat (apply andb_true_iff in E as [E ?]).
  repeat match goal with
         | Hb : (_ <=? _) = true |- _ => apply Z.leb_le in Hb
         end.
  unfold mrows in *.
  split; [reflexivity |]. split.
  - rewrite length_map, length_take, length_drop. lia.
  - intros r Hr. rewrite lookup_map, lookup_take_lt by exact Hr.
    rewrite lookup_drop. change (Z.to_nat 0) with 0%nat.
    destruct (mdata m !! (Z.to_nat i + r)%nat); reflexivity.
Qed.

End MetricCoefficients.

(** * The handler and the passes of [learn_metric] *)

Section LearnFacts.
Context {F : Type} `{Scalar F} `{Sqrt F}.
Variable llt_matrixL : matrix F -> matrix F.
Variable lower_solve : matrix F -> matrix F -> outcome (matrix F).
Variable random_vector : nat -> Z -> list F.
Variable gradient : list F -> outcome (list F).

(** The handler always returns, with the diagonal fallback in [covar]. *)
Lemma learn_fallback_returns (num_draws : Z) (h : heap F) :
  exists m : matrix F,
    fallback_metric (n_params_ (this h)) num_draws = Ret m
    /\ learn_fallback num_draws h
       = ({| this := set_is_diagonal (this h) true; covar := m;
             rng := rng h |}, Ret tt).
Proof.
  eexists. split; [apply fallback_metric_closed |].
  unfold learn_fallback. rewrite mbind_mget, fallback_metric_closed.
  reflexivity.
Qed.

(** [learn_metric] from the point where the draws are collected and
    [first_draw] and [num_draws] are computed without overflow. *)
Lemma learn_metric_from_passes (completed : list Z)
    (win curr_win_count : Z) (h h1 : heap F) (first_draw n : Z) :
  collect_draws completed win h = (h1, Ret tt) ->
  first_draw_of (this h1) win = Ret first_draw ->
  num_draws_of (this h1) first_draw = Ret n ->
  learn_metric llt_matrixL lower_solve random_vector gradient
    completed win curr_win_count h
  = mcatch (learn_passes llt_matrixL lower_solve random_vector gradient
              first_draw n)
           (fun _ => learn_fallback n) h1.
Proof.
  intros Hcollect Hfirst Hnum. unfold learn_metric.
  rewrite (mbind_ret _ _ h h1 tt Hcollect), mbind_mget.
  rewrite Hfirst, mbind_lift_ret, Hnum, mbind_lift_ret. reflexivity.
Qed.

(** What the handler leaves when it runs on the state [h2]. *)
Lemma learn_fallback_state (n : Z) (h2 : heap F) :
  exists h' : heap F,
    learn_fallback n h2 = (h', Ret tt)
    /\ is_diagonal_ (this h') = true
    /\ same_but_is_diagonal (this h2) (this h')
    /\ rng h' = rng h2
    /\ ncols (covar h') = Z.to_nat (n_params_ (this h2))
    /\ length (mdata (covar h')) = Z.to_nat (n_params_ (this h2))
    /\ forall i j : nat,
         (i < Z.to_nat (n_params_ (this h2)))%nat ->
         (j < Z.to_nat (n_params_ (this h2)))%nat ->
         mcoeff (covar h') i j
         = if Nat.eqb i j
           then sadd (smul (sdiv (of_int n) (sadd (of_int n) (lit 5))) s0)
                     (smul (smul (lit (1 # 1000))
                                 (sdiv (lit 5) (sadd (of_int n) (lit 5))))
                           s1)
           else s0.
Proof.
  destruct (learn_fallback_returns n h2) as (m & Hm & Hrun).
  destruct (fallback_metric_coeff (n_params_ (this h2)) n)
    as (m' & Hm' & Hc & Hr & Hcoeff).
  assert (m' = m) as -> by congruence.
  eexists. split; [exact Hrun |]. cbn [this covar rng].
  split; [reflexivity |].
  split; [unfold same_but_is_diagonal; cbn; repeat split |].
  split; [reflexivity |]. auto.
Qed.

End LearnFacts.

(** C3.  When the draws are collected, [first_draw] and [num_draws] are
    computed without overflow and fewer than 10 draws are usable, the
    selection pass throws the insufficient-samples error at once; the
    error is caught inside [learn_metric], which returns normally with
    [is_diagonal_] true, every other field of the object and the random
    stream as [collect_draws] left them, and [covar] a square matrix of
    dimension [n_params_] that is zero off the diagonal and whose diagonal
    entries are [(n / (n + 5)) * 0 + 1e-3 * (5 / (n + 5)) * 1] for the [n]
    usable draws. *)
Theorem learn_metric_insufficient_samples {F} `{Scalar F} `{Sqrt F}
    (llt_matrixL : matrix F -> matrix F)
    (lower_solve : matrix F -> matrix F -> outcome (matrix F))
    (random_vector : nat -> Z -> list F)
    (gradient : list F -> outcome (list F))
    (completed : list Z) (win curr_win_count : Z) (h h1 : heap F)
    (first_draw n : Z) :
  collect_draws completed win h = (h1, Ret tt) ->
  first_draw_of (this h1) win = Ret first_draw ->
  num_draws_of (this h1) first_draw = Ret n ->
  n < 10 ->
  learn_pass llt_matrixL lower_solve random_vector gradient
    Selection first_draw n false h1
  = (h1, Throw InsufficientSamples)
  /\ learn_passes llt_matrixL lower_solve random_vector gradient
       first_draw n h1
     = (h1, Throw InsufficientSamples)
  /\ exists h' : heap F,
       learn_metric llt_matrixL lower_solve random_vector gradient
         completed win curr_win_count h
       = (h', Ret tt)
       /\ is_diagonal_ (this h') = true
       /\ same_but_is_diagonal (this h1) (this h')
       /\ rng h' = rng h1
       /\ ncols (covar h') = Z.to_nat (n_params_ (this h1))
       /\ length (mdata (covar h')) = Z.to_nat (n_params_ (this h1))
       /\ forall i j : nat,
            (i < Z.to_nat (n_params_ (this h1)))%nat ->
            (j < Z.to_nat (n_params_ (this h1)))%nat ->
            mcoeff (covar h') i j
            = if Nat.eqb i j
              then sadd (smul (sdiv (of_int n) (sadd (of_int n) (lit 5))) s0)
                        (smul (smul (lit (1 # 1000))
                                    (sdiv (lit 5) (sadd (of_int n) (lit 5))))
                              s1)
              else s0.
Proof.
  intros Hcollect Hfirst Hnum Hfew.
  assert (Hselection :
    learn_pass llt_matrixL lower_solve random_vector gradient
      Selection first_draw n false h1
    = (h1, Throw InsufficientSamples)).
  { unfold learn_pass.
    apply mbind_throw. now apply pass_metrics_insufficient. }
  assert (Hpasses :
    learn_passes llt_matrixL lower_solve random_vector gradient first_draw n h1
    = (h1, Throw InsufficientSamples)).
  { unfold learn_passes. now apply mbind_throw. }
  split; [exact Hselection |]. split; [exact Hpasses |].
  destruct (learn_fallback_state n h1) as (h' & Hrun & Hrest).
  exists h'. split; [| exact Hrest].
  rewrite (learn_metric_from_passes _ _ _ _ _ _ _ _ h1 first_draw n
             Hcollect Hfirst Hnum).
  unfold mcatch. rewrite Hpasses. exact Hrun.
Qed.

Lemma learn_metric_insufficient_samples_witness :
  let o : mpi_auto_adaptation float :=
    {| num_chains_ := 1; n_params_ := 2; window_size_ := 25;
       init_buffer_ := 0; draw_req_counter_ := 1;
       draws_collected_counter_ := 7; last_qs_ := [];
       draws := [ {| ncols := 1; mdata := [[0.5%float]; [1.5%float]] |} ];
       Y_ := mzero 10 2; is_diagonal_ := false |} in
  let h := {| this := o; covar := mzero 2 2; rng := 0 |} in
  let solve := fun (_ b : matrix float) => Ret b in
  let rnd := fun (_ : nat) (n : Z) => replicate (Z.to_nat n) 1%float in
  exists h1 h' : heap float,
    collect_draws [0] 0 h = (h1, Ret tt)
    /\ first_draw_of (this h1) 0 = Ret 0
    /\ num_draws_of (this h1) 0 = Ret 8
    /\ learn_passes (fun a => a) solve rnd Ret 0 8 h1
       = (h1, Throw InsufficientSamples)
    /\ learn_metric (fun a => a) solve rnd Ret [0] 0 0 h = (h', Ret tt)
    /\ is_diagonal_ (this h') = true
    /\ mcoeff (covar h') 0 0 = 0.00038461538461538467%float
    /\ mcoeff (covar h') 0 1 = 0%float
    /\ mcoeff (covar h') 1 0 = 0%float
    /\ mcoeff (covar h') 1 1 = 0.00038461538461538467%float.
Proof.
  intros o h solve rnd.
  pose (h1 := fst (collect_draws [0] 0 h)).
  assert (Hc : collect_draws [0] 0 h = (h1, Ret tt)) by reflexivity.
  assert (Hf : first_draw_of (this h1) 0 = Ret 0) by reflexivity.
  assert (Hd : num_draws_of (this h1) 0 = Ret 8) by reflexivity.
  assert (Hn : 8 < 10) by lia.
  destruct (learn_metric_insufficient_samples (fun a => a) solve rnd Ret
              [0] 0 0 h h1 0 8 Hc Hf Hd Hn)
    as (_ & Hp & h' & Hl & Hdiag & _ & _ & _ & _ & Hcoeff).
  exists h1, h'. split; [exact Hc |]. split; [exact Hf |].
  split; [exact Hd |]. split; [exact Hp |]. split; [exact Hl |].
  split; [exact Hdiag |].
  assert (Hv : sadd (smul (sdiv (of_int 8) (sadd (of_int 8) (lit 5))) s0)
                 (smul (smul (lit (1 # 1000))
                             (sdiv (lit 5) (sadd (of_int 8) (lit 5))))
                       s1)
               = 0.00038461538461538467%float) by (vm_compute; reflexivity).
  change (Z.to_nat (n_params_ (this h1))) with 2%nat in Hcoeff.
  rewrite !Hcoeff by lia. cbn [Nat.eqb]. rewrite Hv. auto.
Defined.

(** C8, as the code has it.  In each pass that gets as far as its
    candidates, the held-out size is the larger of 5 and [int(0.2 *
    num_draws)] in the selection pass and 0 in the refinement pass; the
    training set is made of the [num_draws - Ntest] rows of [Y_] from row
    [first_draw] on, each cut to [n_params_] columns; with [n] the number
    of rows of the training set, the coefficient (i, j) of the dense
    candidate is [n / (n + 5)] times that of the covariance of the training
    set plus [1e-3 * (5 / (n + 5))] times that of the identity; and the
    diagonal candidate has the diagonal of the dense one and 0 elsewhere. *)
Theorem pass_metrics_candidates {F} `{Scalar F} (p : pass)
    (first_draw num_draws : Z) (h h' : heap F) (l : pass_locals F) :
  pass_metrics p first_draw num_draws h = (h', Ret l) ->
  h' = h
  /\ Ntest l
     = match p with
       | Selection =>
           Z.max 5 (to_int (smul (lit (2 # 10)) (of_int num_draws)))
       | Refinement => 0
       end
  /\ (exists Ytrain : matrix F,
       mblock (Y_ (this h)) first_draw 0 (num_draws - Ntest l)
         (n_params_ (this h)) = Ret Ytrain
       /\ mrows Ytrain = num_draws - Ntest l
       /\ (forall r : nat,
             (r < Z.to_nat (num_draws - Ntest l))%nat ->
             mdata Ytrain !! r
             = take (Z.to_nat (n_params_ (this h)))
                 <$> mdata (Y_ (this h)) !! (Z.to_nat first_draw + r)%nat)
       /\ covariance Ytrain = Ret (cov_train l)
       /\ shrink (mrows Ytrain) (cov_train l) = Ret (dense l)
       /\ diag l = diagonal_part (dense l))
  /\ ncols (dense l) = Z.to_nat (n_params_ (this h))
  /\ length (mdata (dense l)) = Z.to_nat (n_params_ (this h))
  /\ ncols (diag l) = Z.to_nat (n_params_ (this h))
  /\ length (mdata (diag l)) = Z.to_nat (n_params_ (this h))
  /\ forall i j : nat,
       (i < Z.to_nat (n_params_ (this h)))%nat ->
       (j < Z.to_nat (n_params_ (this h)))%nat ->
       mcoeff (dense l) i j
       = sadd (smul (sdiv (of_int (num_draws - Ntest l))
                          (sadd (of_int (num_draws - Ntest l)) (lit 5)))
                    (mcoeff (cov_train l) i j))
              (smul (smul (lit (1 # 1000))
                          (sdiv (lit 5)
                                (sadd (of_int (num_draws - Ntest l))
                                      (lit 5))))
                    (if Nat.eqb i j then s1 else s0))
       /\ mcoeff (diag l) i j
          = if Nat.eqb i j then mcoeff (dense l) i i else s0.
Proof.
  intros Hrun.
  assert (Hlocals :
    h' = h
    /\ Ntest l
       = match p with
         | Selection =>
             Z.max 5 (to_int (smul (lit (2 # 10)) (of_int num_draws)))
         | Refinement => 0
         end
    /\ exists Ytrain : matrix F,
         mblock (Y_ (this h)) first_draw 0 (num_draws - Ntest l)
           (n_params_ (this h)) = Ret Ytrain
         /\ covariance Ytrain = Ret (cov_train l)
         /\ shrink (num_draws - Ntest l) (cov_train l) = Ret (dense l)
         /\ diag l = diagonal_part (dense l)).
  { revert Hrun.
    unfold pass_metrics. rewrite mbind_mget. unfold mbind, lift, mret, mthrow.
    destruct p.
    - destruct (num_draws <? 10); [discriminate |].
      set (Nt := if _ <? 5 then 5 else _).
      assert (HNt : Nt = Z.max 5 (to_int (smul (lit (2 # 10))
                                            (of_int num_draws)))).
      { subst Nt. destruct (Z.ltb_spec (to_int (smul (lit (2 # 10))
                                                   (of_int num_draws))) 5); lia. }
      destruct (mblock (Y_ (this h)) first_draw 0 (num_draws - Nt)
                  (n_params_ (this h))) as [Ytrain | |] eqn:Htrain;
        try discriminate.
      destruct (mblock (Y_ (this h)) (first_draw + num_draws - Nt) 0 Nt
                  (n_params_ (this h))) as [Ytest | |]; try discriminate.
      destruct (covariance Ytrain) as [ct | |] eqn:Hct; try discriminate.
      destruct (covariance Ytest) as [cs | |]; try discriminate.
      destruct (shrink (num_draws - Nt) ct) as [d | |] eqn:Hd;
        try discriminate.
      intros [= <- <-]. cbn [Ntest cov_train dense diag].
      split; [reflexivity |]. split; [exact HNt |].
      exists Ytrain. auto.
    - destruct (mblock (Y_ (this h)) first_draw 0 num_draws
                  (n_params_ (this h))) as [Ytrain | |] eqn:Htrain;
        try discriminate.
      destruct (covariance Ytrain) as [ct | |] eqn:Hct; try discriminate.
      destruct (shrink (num_draws - 0) ct) as [d | |] eqn:Hd;
        try discriminate.
      intros [= <- <-]. cbn [Ntest cov_train dense diag].
      split; [reflexivity |]. split; [reflexivity |].
      exists Ytrain. rewrite Z.sub_0_r in *. auto. }
  destruct Hlocals as (Hh & HNtest & Ytrain & Htrain & Hcov & Hdense & Hdiag).
  destruct (mblock_lookup _ _ _ _ _ Htrain) as (Hcols & Hrows & Hblock).
  destruct (covariance_shape _ _ Hcov) as (Hc & Hr & Hwf).
  rewrite Hcols in Hc, Hr.
  destruct (shrink_coeff (num_draws - Ntest l) (cov_train l) _ Hc Hr Hwf)
    as (d & Hd & Hdc & Hdr & _ & Hdcoeff).
  assert (d = dense l) as -> by congruence.
  destruct (diagonal_part_coeff (dense l) _ Hdc Hdr)
    as (Hgc & Hgr & Hgcoeff).
  rewrite <- Hdiag in Hgc, Hgr, Hgcoeff.
  split; [exact Hh |]. split; [exact HNtest |].
  split.
  { exists Ytrain. rewrite (mblock_rows _ _ _ _ _ _ Htrain). auto 10. }
  auto 10.
Qed.

Lemma pass_metrics_candidates_witness :
  exists l : pass_locals float,
    pass_metrics Selection 0 10 ten_draws = (ten_draws, Ret l)
    /\ Ntest l = 5
    /\ cov_train l = {| ncols := 1; mdata := [[2.5%float]] |}
    /\ mcoeff (dense l) 0 0
       = sadd (smul (sdiv (of_int 5) (sadd (of_int 5) (lit 5))) 2.5%float)
              (smul (smul (lit (1 # 1000))
                          (sdiv (lit 5) (sadd (of_int 5) (lit 5))))
                    s1)
    /\ mcoeff (dense l) 0 0 = 1.2505%float
    /\ mcoeff (diag l) 0 0 = 1.2505%float.
Proof.
  pose (l := match snd (pass_metrics Selection 0 10 ten_draws) with
             | Ret l => l
             | _ => {| Ntest := 0; cov_train := mzero 0 0;
                       cov_test := mzero 0 0; dense := mzero 0 0;
                       diag := mzero 0 0 |}
             end).
  assert (Hrun : pass_metrics Selection 0 10 ten_draws = (ten_draws, Ret l))
    by (vm_compute; reflexivity).
  destruct (pass_metrics_candidates Selection 0 10 ten_draws ten_draws l Hrun)
    as (_ & _ & _ & _ & _ & _ & _ & Hcoeff).
  assert (HN : Ntest l = 5) by (vm_compute; reflexivity).
  assert (Hcov : cov_train l = {| ncols := 1; mdata := [[2.5%float]] |})
    by (vm_compute; reflexivity).
  destruct (Hcoeff 0%nat 0%nat) as [Hdense Hdiag];
    [vm_compute; lia | vm_compute; lia |].
  rewrite HN, Hcov in Hdense. change (10 - 5) with 5 in Hdense.
  change (mcoeff {| ncols := 1; mdata := [[2.5%float]] |} 0 0)
    with 2.5%float in Hdense.
  cbn [Nat.eqb] in Hdense, Hdiag.
  exists l. split; [exact Hrun |]. split; [exact HN |].
  split; [exact Hcov |]. split; [exact Hdense |].
  assert (Hvalue : mcoeff (dense l) 0 0 = 1.2505%float)
    by (vm_compute; reflexivity).
  split; [exact Hvalue |]. now rewrite Hdiag.
Defined.

(** C8 as stated fails in the selection pass.  On ten usable draws the
    training set and the held-out set have 5 rows each; the dense candidate
    is the shrinkage with [n = 5], the size of the training set, and not
    the one with [n = 5 - 5], the training size minus the held-out size. *)
Lemma pass_metrics_weight_not_difference :
  exists (l : pass_locals float) (Ytrain Ytest : matrix float),
    pass_metrics Selection 0 10 ten_draws = (ten_draws, Ret l)
    /\ mblock (Y_ (this ten_draws)) 0 0 5 1 = Ret Ytrain
    /\ mblock (Y_ (this ten_draws)) 5 0 5 1 = Ret Ytest
    /\ covariance Ytrain = Ret (cov_train l)
    /\ covariance Ytest = Ret (cov_test l)
    /\ mrows Ytrain = 5 /\ mrows Ytest = 5
    /\ dense l = {| ncols := 1; mdata := [[1.2505%float]] |}
    /\ sadd (smul (sdiv (of_int (5 - 5)) (sadd (of_int (5 - 5)) (lit 5)))
                  (mcoeff (cov_train l) 0 0))
            (smul (smul (lit (1 # 1000))
                        (sdiv (lit 5) (sadd (of_int (5 - 5)) (lit 5))))
                  s1)
       = 0.001%float
    /\ shrink (mrows Ytrain - mrows Ytest) (cov_train l)
       = Ret {| ncols := 1; mdata := [[0.001%float]] |}
    /\ shrink (mrows Ytrain - mrows Ytest) (cov_train l) <> Ret (dense l).
Proof.
  eexists _, _, _.
  split; [vm_compute; reflexivity |].
  split; [vm_compute; reflexivity |].
  split; [vm_compute; reflexivity |].
  repeat (split; [vm_compute; reflexivity |]).
  intros E.
  apply (f_equal (fun o => match o with
                           | Ret m => Prim2SF (mcoeff m 0 0)
                           | _ => S754_zero false
                           end)) in E.
  vm_compute in E. discriminate.
Qed.

(** X27.  No [std::exception] leaves [learn_metric]: when the call throws,
    the exception is one that does not derive from [std::exception], it
    was thrown inside the two passes after the draws were collected, and
    the state is the one the passes left, the handler not having run. *)
Theorem learn_metric_lets_only_non_std_out {F} `{Scalar F} `{Sqrt F}
    (llt_matrixL : matrix F -> matrix F)
    (lower_solve : matrix F -> matrix F -> outcome (matrix F))
    (random_vector : nat -> Z -> list F)
    (gradient : list F -> outcome (list F))
    (completed : list Z) (win curr_win_count : Z) (h h' : heap F) (e : exn) :
  learn_metric llt_matrixL lower_solve random_vector gradient
    completed win curr_win_count h = (h', Throw e) ->
  e = NonStd
  /\ exists (h1 : heap F) (first_draw n : Z),
       collect_draws completed win h = (h1, Ret tt)
       /\ first_draw_of (this h1) win = Ret first_draw
       /\ num_draws_of (this h1) first_draw = Ret n
       /\ learn_passes llt_matrixL lower_solve random_vector gradient
            first_draw n h1 = (h', Throw e).
Proof.
  unfold learn_metric. unfold mbind at 1.
  pose proof (collect_draws_no_throw completed win h) as Hcollect.
  destruct (collect_draws completed win h) as [h1 [[] | e' |]] eqn:Hc;
    cbn [snd] in Hcollect;
    [| now destruct (Hcollect e') | discriminate].
  rewrite mbind_mget.
  destruct (first_draw_of (this h1) win) as [first_draw | e' |] eqn:Hfirst;
    [| | discriminate].
  2:{ exfalso. revert Hfirst. unfold first_draw_of, int_result.
      repeat (destruct (_ && _); cbn [obind]; try discriminate). }
  rewrite mbind_lift_ret.
  destruct (num_draws_of (this h1) first_draw) as [n | e' |] eqn:Hnum;
    [| | discriminate].
  2:{ exfalso. revert Hnum. unfold num_draws_of, int_result.
      repeat (destruct (_ && _); cbn [obind]; try discriminate). }
  rewrite mbind_lift_ret. unfold mcatch.
  destruct (learn_passes _ _ _ _ first_draw n h1) as [h2 [[] | e' |]] eqn:Hp;
    try discriminate.
  destruct (is_std_exception e') eqn:Hstd.
  - destruct (learn_fallback_returns n h2) as (m & _ & ->). discriminate.
  - intros [= <- <-]. split; [now destruct e' |].
    exists h1, first_draw, n. auto.
Qed.

Lemma learn_metric_lets_only_non_std_out_witness :
  let o : mpi_auto_adaptation float :=
    {| num_chains_ := 1; n_params_ := 1; window_size_ := 10;
       init_buffer_ := 0; draw_req_counter_ := 0;
       draws_collected_counter_ := 10; last_qs_ := [[1%float]];
       draws := []; Y_ := Y_ (this ten_draws); is_diagonal_ := false |} in
  let h := {| this := o; covar := mzero 1 1; rng := 0 |} in
  let solve := fun (_ b : matrix float) => Ret b in
  let rnd := fun (_ : nat) (n : Z) => replicate (Z.to_nat n) 1%float in
  let failing := fun (_ : list float) => @Throw (list float) NonStd in
  exists h' : heap float,
    learn_metric (fun a => a) solve rnd failing [] 0 0 h = (h', Throw NonStd)
    /\ is_diagonal_ (this h') = false
    /\ covar h' = {| ncols := 1; mdata := [[1.2504999999999999%float]] |}
    /\ exists (h1 : heap float) (first_draw n : Z),
         collect_draws [] 0 h = (h1, Ret tt)
         /\ first_draw_of (this h1) 0 = Ret first_draw
         /\ num_draws_of (this h1) first_draw = Ret n
         /\ learn_passes (fun a => a) solve rnd failing first_draw n h1
            = (h', Throw NonStd).
Proof.
  intros o h solve rnd failing.
  pose (h' := fst (learn_metric (fun a => a) solve rnd failing [] 0 0 h)).
  assert (Hrun : learn_metric (fun a => a) solve rnd failing [] 0 0 h
                 = (h', Throw NonStd)) by (vm_compute; reflexivity).
  exists h'. split; [exact Hrun |].
  split; [vm_compute; reflexivity |]. split; [vm_compute; reflexivity |].
  exact (proj2 (learn_metric_lets_only_non_std_out (fun a => a) solve rnd
                  failing [] 0 0 h h' NonStd Hrun)).
Defined.

(** X28.  Whatever [std::exception] ends the two passes, once the draws
    are collected and [first_draw] and [num_draws] computed without
    overflow, [learn_metric] returns normally with [is_diagonal_] true,
    every other field of the object and the random stream as the passes
    left them, and [covar] a square matrix of dimension [n_params_] that is
    zero off the diagonal and has [(n / (n + 5)) * 0 + 1e-3 * (5 / (n + 5))
    * 1] on it, for the [n] usable draws. *)
Theorem learn_metric_falls_back {F} `{Scalar F} `{Sqrt F}
    (llt_matrixL : matrix F -> matrix F)
    (lower_solve : matrix F -> matrix F -> outcome (matrix F))
    (random_vector : nat -> Z -> list F)
    (gradient : list F -> outcome (list F))
    (completed : list Z) (win curr_win_count : Z) (h h1 h2 : heap F)
    (first_draw n : Z) (e : exn) :
  collect_draws completed win h = (h1, Ret tt) ->
  first_draw_of (this h1) win = Ret first_draw ->
  num_draws_of (this h1) first_draw = Ret n ->
  learn_passes llt_matrixL lower_solve random_vector gradient
    first_draw n h1 = (h2, Throw e) ->
  is_std_exception e = true ->
  exists h' : heap F,
    learn_metric llt_matrixL lower_solve random_vector gradient
      completed win curr_win_count h
    = (h', Ret tt)
    /\ is_diagonal_ (this h') = true
    /\ same_but_is_diagonal (this h2) (this h')
    /\ rng h' = rng h2
    /\ ncols (covar h') = Z.to_nat (n_params_ (this h2))
    /\ length (mdata (covar h')) = Z.to_nat (n_params_ (this h2))
    /\ forall i j : nat,
         (i < Z.to_nat (n_params_ (this h2)))%nat ->
         (j < Z.to_nat (n_params_ (this h2)))%nat ->
         mcoeff (covar h') i j
         = if Nat.eqb i j
           then sadd (smul (sdiv (of_int n) (sadd (of_int n) (lit 5))) s0)
                     (smul (smul (lit (1 # 1000))
                                 (sdiv (lit 5) (sadd (of_int n) (lit 5))))
                           s1)
           else s0.
Proof.
  intros Hcollect Hfirst Hnum Hpasses Hstd.
  destruct (learn_fallback_state n h2) as (h' & Hrun & Hrest).
  exists h'. split; [| exact Hrest].
  rewrite (learn_metric_from_passes _ _ _ _ _ _ _ _ h1 first_draw n
             Hcollect Hfirst Hnum).
  unfold mcatch. rewrite Hpasses, Hstd. exact Hrun.
Qed.

Lemma learn_metric_falls_back_witness :
  let o : mpi_auto_adaptation float :=
    {| num_chains_ := 1; n_params_ := 1; window_size_ := 10;
       init_buffer_ := 0; draw_req_counter_ := 0;
       draws_collected_counter_ := 10; last_qs_ := [[1%float]];
       draws := []; Y_ := Y_ (this ten_draws); is_diagonal_ := false |} in
  let h := {| this := o; covar := mzero 1 1; rng := 0 |} in
  let solve := fun (_ b : matrix float) => Ret b in
  let rnd := fun (_ : nat) (n : Z) => replicate (Z.to_nat n) 1%float in
  let failing := fun (_ : list float) => @Throw (list float) ModelError in
  exists h2 h' : heap float,
    learn_passes (fun a => a) solve rnd failing 0 10 h = (h2, Throw ModelError)
    /\ covar h2 = {| ncols := 1; mdata := [[1.2504999999999999%float]] |}
    /\ learn_metric (fun a => a) solve rnd failing [] 0 0 h = (h', Ret tt)
    /\ is_diagonal_ (this h') = true
    /\ mcoeff (covar h') 0 0 = 0.00033333333333333332%float.
Proof.
  intros o h solve rnd failing.
  pose (h2 := fst (learn_passes (fun a => a) solve rnd failing 0 10 h)).
  assert (Hc : collect_draws [] 0 h = (h, Ret tt)) by reflexivity.
  assert (Hf : first_draw_of (this h) 0 = Ret 0) by reflexivity.
  assert (Hn : num_draws_of (this h) 0 = Ret 10) by reflexivity.
  assert (Hp : learn_passes (fun a => a) solve rnd failing 0 10 h
               = (h2, Throw ModelError)) by (vm_compute; reflexivity).
  destruct (learn_metric_falls_back (fun a => a) solve rnd failing
              [] 0 0 h h h2 0 10 ModelError Hc Hf Hn Hp eq_refl)
    as (h' & Hl & Hdiag & _ & _ & _ & _ & Hcoeff).
  exists h2, h'. split; [exact Hp |]. split; [vm_compute; reflexivity |].
  split; [exact Hl |]. split; [exact Hdiag |].
  change (Z.to_nat (n_params_ (this h2))) with 1%nat in Hcoeff.
  rewrite Hcoeff by lia. vm_compute. reflexivity.
Defined.
Section PassFrame.
Context {F : Type} `{Scalar F} `{Sqrt F}.
Variable llt_matrixL : matrix F -> matrix F.
Variable lower_solve : matrix F -> matrix F -> outcome (matrix F).
Variable random_vector : nat -> Z -> list F.
Variable gradient : list F -> outcome (list F).

Lemma mbind_this {A B} (c : Mut (heap F) A) (k : A -> Mut (heap F) B) :
  (forall h, this (c h).1 = this h) ->
  (forall a h, this (k a h).1 = this h) ->
  forall h, this (mbind c k h).1 = this h.
Proof.
  intros Hc Hk h. unfold mbind. specialize (Hc h).
  destruct (c h) as [h1 [a | e |]]; cbn [fst] in *; try exact Hc.
  now rewrite Hk.
Qed.

Lemma lift_this {A} (o : outcome A) (h : heap F) :
  this (lift o h).1 = this h.
Proof. reflexivity. Qed.

Lemma eigenvalue_scaled_covariance_this (L Sigma : matrix F) (h : heap F) :
  this (eigenvalue_scaled_covariance lower_solve random_vector L Sigma h).1
  = this h.
Proof.
  revert h. unfold eigenvalue_scaled_covariance.
  repeat (apply mbind_this; [now intros | intros ?]).
  now intros.
Qed.

Lemma eigenvalue_scaled_hessian_this (L : matrix F) (q : list F)
    (h : heap F) :
  this (eigenvalue_scaled_hessian random_vector gradient L q h).1 = this h.
Proof.
  revert h. unfold eigenvalue_scaled_hessian.
  apply mbind_this; now intros.
Qed.

Lemma condition_loop_this (qs : list (list F)) (L_dense L_diag : matrix F)
    (low_dense low_diag c_dense c_diag : F) (h : heap F) :
  this (condition_loop random_vector gradient qs L_dense L_diag
          low_dense low_diag c_dense c_diag h).1 = this h.
Proof.
  revert c_dense c_diag h.
  induction qs as [| q qs IH]; intros c_dense c_diag; cbn [condition_loop].
  - now intros.
  - apply mbind_this; [apply eigenvalue_scaled_hessian_this | intros ?].
    apply mbind_this; [apply eigenvalue_scaled_hessian_this | intros ?].
    apply IH.
Qed.

(** The locals of a pass read the state and leave it as it is. *)
Lemma pass_metrics_pure (p : pass) (first_draw num_draws : Z) (h : heap F) :
  (pass_metrics p first_draw num_draws h).1 = h.
Proof.
  unfold pass_metrics. rewrite mbind_mget.
  unfold mbind, lift, mret, mthrow.
  destruct p.
  - destruct (num_draws <? 10); [reflexivity |].
    repeat match goal with
           | |- context [match ?o with Ret _ => _ | _ => _ end] =>
               destruct o; cbn [fst]; try reflexivity
           end.
  - repeat match goal with
           | |- context [match ?o with Ret _ => _ | _ => _ end] =>
               destruct o; cbn [fst]; try reflexivity
           end.
Qed.

Lemma learn_pass_selection_this (first_draw num_draws : Z) (b : bool)
    (h : heap F) :
  this (learn_pass llt_matrixL lower_solve random_vector gradient
          Selection first_draw num_draws b h).1 = this h.
Proof.
  revert h. unfold learn_pass.
  apply mbind_this; [intros h; now rewrite pass_metrics_pure | intros l].
  apply mbind_this; [now intros | intros _].
  apply mbind_this; [apply eigenvalue_scaled_covariance_this | intros ?].
  apply mbind_this; [apply eigenvalue_scaled_covariance_this | intros ?].
  intros h. rewrite mbind_mget. revert h.
  intros h. generalize (last_qs_ (this h)). intros qs. revert h.
  apply mbind_this; [apply condition_loop_this | now intros].
Qed.

(** What the locals of the refinement pass are when it gets to them. *)
Lemma pass_metrics_refinement (first_draw num_draws : Z) (h h' : heap F)
    (l : pass_locals F) :
  pass_metrics Refinement first_draw num_draws h = (h', Ret l) ->
  exists Y cov : matrix F,
    mblock (Y_ (this h)) first_draw 0 num_draws (n_params_ (this h)) = Ret Y
    /\ covariance Y = Ret cov
    /\ shrink num_draws cov = Ret (dense l)
    /\ diag l = diagonal_part (dense l).
Proof.
  unfold pass_metrics. rewrite mbind_mget.
  unfold mbind, lift, mret.
  destruct (mblock _ _ _ _ _) as [Y | |] eqn:HY; try discriminate.
  destruct (covariance Y) as [cov | |] eqn:Hcov; try discriminate.
  rewrite Z.sub_0_r.
  destruct (shrink num_draws cov) as [d | |] eqn:Hd; try discriminate.
  intros [= _ <-]. exists Y, cov. cbn. auto.
Qed.

End PassFrame.

(** X29.  When the two passes of [learn_metric] return, the refinement pass
    has emitted the candidate the selection pass chose.  With [b] the
    result of the selection pass and [cov] the covariance of the
    [num_draws] rows of [Y_] from row [first_draw] on, [is_diagonal_] is
    the negation of [b], no other field of the object has changed, and
    [covar] is a square matrix of dimension [n_params_]: if [b], its
    coefficient (i, j) is [n / (n + 5)] times that of [cov] plus
    [1e-3 * (5 / (n + 5))] times that of the identity, with [n] the number
    of usable draws; otherwise it has those values on the diagonal and 0
    elsewhere. *)
Theorem learn_passes_emit_winner {F} `{Scalar F} `{Sqrt F}
    (llt_matrixL : matrix F -> matrix F)
    (lower_solve : matrix F -> matrix F -> outcome (matrix F))
    (random_vector : nat -> Z -> list F)
    (gradient : list F -> outcome (list F))
    (first_draw num_draws : Z) (h h' : heap F) :
  learn_passes llt_matrixL lower_solve random_vector gradient
    first_draw num_draws h = (h', Ret tt) ->
  exists (b : bool) (h1 : heap F) (Y cov : matrix F),
    learn_pass llt_matrixL lower_solve random_vector gradient
      Selection first_draw num_draws false h = (h1, Ret b)
    /\ mblock (Y_ (this h)) first_draw 0 num_draws (n_params_ (this h))
       = Ret Y
    /\ (forall r : nat,
          (r < Z.to_nat num_draws)%nat ->
          mdata Y !! r
          = take (Z.to_nat (n_params_ (this h)))
              <$> mdata (Y_ (this h)) !! (Z.to_nat first_draw + r)%nat)
    /\ covariance Y = Ret cov
    /\ is_diagonal_ (this h') = negb b
    /\ same_but_is_diagonal (this h) (this h')
    /\ rng h' = rng h1
    /\ ncols (covar h') = Z.to_nat (n_params_ (this h))
    /\ length (mdata (covar h')) = Z.to_nat (n_params_ (this h))
    /\ forall i j : nat,
         (i < Z.to_nat (n_params_ (this h)))%nat ->
         (j < Z.to_nat (n_params_ (this h)))%nat ->
         mcoeff (covar h') i j
         = if b || Nat.eqb i j
           then sadd (smul (sdiv (of_int num_draws)
                                 (sadd (of_int num_draws) (lit 5)))
                           (mcoeff cov i j))
                     (smul (smul (lit (1 # 1000))
                                 (sdiv (lit 5)
                                       (sadd (of_int num_draws) (lit 5))))
                           (if Nat.eqb i j then s1 else s0))
           else s0.
Proof.
  unfold learn_passes. unfold mbind at 1.
  pose proof (learn_pass_selection_this llt_matrixL lower_solve
                random_vector gradient first_draw num_draws false h) as Hthis.
  destruct (learn_pass _ _ _ _ Selection _ _ _ h) as [h1 [b | e |]];
    cbn [fst] in Hthis; try discriminate.
  intros Hrun. unfold learn_pass, mbind in Hrun.
  pose proof (pass_metrics_pure Refinement first_draw num_draws h1) as Hpure.
  destruct (pass_metrics Refinement first_draw num_draws h1)
    as [h2 [l | e |]] eqn:Hl; cbn [fst] in Hpure; try discriminate.
  subst h2.
  destruct (pass_metrics_refinement _ _ _ _ _ Hl)
    as (Y & cov & HY & Hcov & Hd & Hdiag).
  rewrite Hthis in HY.
  destruct (mblock_lookup _ _ _ _ _ HY) as (Hcols & _ & Hblock).
  destruct (covariance_shape _ _ Hcov) as (Hc & Hr & Hwf).
  rewrite Hcols in Hc, Hr.
  destruct (shrink_coeff num_draws cov _ Hc Hr Hwf)
    as (d & Hd' & Hdc & Hdr & _ & Hdcoeff).
  assert (d = dense l) as -> by congruence.
  destruct (diagonal_part_coeff (dense l) _ Hdc Hdr)
    as (Hgc & Hgr & Hgcoeff).
  rewrite <- Hdiag in Hgc, Hgr, Hgcoeff.
  exists b, h1, Y, cov.
  split; [reflexivity |]. split; [exact HY |]. split; [exact Hblock |].
  split; [exact Hcov |].
  cbv [set_covar write_is_diagonal set_this mget mret mbind] in Hrun.
  assert (Hframe : forall v : bool,
            same_but_is_diagonal (this h) (set_is_diagonal (this h1) v)).
  { intros v. rewrite Hthis. unfold same_but_is_diagonal. cbn.
    repeat split. }
  destruct b; injection Hrun as <-; cbn [this covar rng set_is_diagonal
    is_diagonal_ negb orb].
  - split; [reflexivity |]. split; [apply Hframe |].
    split; [reflexivity |]. split; [exact Hdc |]. split; [exact Hdr |].
    exact Hdcoeff.
  - split; [reflexivity |]. split; [apply Hframe |].
    split; [reflexivity |]. split; [exact Hgc |]. split; [exact Hgr |].
    intros i j Hi Hj. rewrite Hgcoeff by assumption.
    destruct (Nat.eqb_spec i j) as [-> | Hne]; [| reflexivity].
    rewrite Hdcoeff by assumption. now rewrite Nat.eqb_refl.
Qed.

Lemma learn_passes_emit_winner_witness :
  let o : mpi_auto_adaptation float :=
    {| num_chains_ := 1; n_params_ := 2; window_size_ := 10;
       init_buffer_ := 0; draw_req_counter_ := 0;
       draws_collected_counter_ := 10; last_qs_ := []; draws := [];
       Y_ := {| ncols := 2;
                mdata := map (fun k => [float_of_int k; float_of_int (k * k)])
                             (seqZ 1 10) |};
       is_diagonal_ := false |} in
  let h := {| this := o; covar := mzero 2 2; rng := 0 |} in
  let solve := fun (_ b : matrix float) => Ret b in
  let rnd := fun (_ : nat) (n : Z) => replicate (Z.to_nat n) 1%float in
  exists h' : heap float,
    learn_passes (fun a => a) solve rnd Ret 0 10 h = (h', Ret tt)
    /\ learn_pass (fun a => a) solve rnd Ret Selection 0 10 false h
       = (fst (learn_pass (fun a => a) solve rnd Ret Selection 0 10 false h),
          Ret false)
    /\ is_diagonal_ (this h') = true
    /\ mcoeff (covar h') 0 0 = 6.1114444444444445%float
    /\ mcoeff (covar h') 0 1 = 0%float
    /\ mcoeff (covar h') 1 0 = 0%float
    /\ mcoeff (covar h') 1 1 = 778.55588888888872%float.
Proof.
  intros o h solve rnd.
  pose (h' := fst (learn_passes (fun a => a) solve rnd Ret 0 10 h)).
  assert (Hrun : learn_passes (fun a => a) solve rnd Ret 0 10 h
                 = (h', Ret tt)) by (vm_compute; reflexivity).
  destruct (learn_passes_emit_winner (fun a => a) solve rnd Ret 0 10 h h' Hrun)
    as (b & h1 & Y & cov & Hsel & _ & _ & _ & Hdiag & _ & _ & _ & _ & Hcoeff).
  assert (Hb : learn_pass (fun a => a) solve rnd Ret Selection 0 10 false h
               = (fst (learn_pass (fun a => a) solve rnd Ret Selection 0 10
                         false h), Ret false)) by (vm_compute; reflexivity).
  assert (b = false) as -> by congruence.
  change (Z.to_nat (n_params_ (this h))) with 2%nat in Hcoeff.
  exists h'. split; [exact Hrun |]. split; [exact Hb |].
  split; [exact Hdiag |].
  pose proof (Hcoeff 0%nat 1%nat ltac:(lia) ltac:(lia)) as H01.
  pose proof (Hcoeff 1%nat 0%nat ltac:(lia) ltac:(lia)) as H10.
  cbn [orb Nat.eqb] in H01, H10.
  split; [vm_compute; reflexivity |]. split; [exact H01 |].
  split; [exact H10 |]. vm_compute; reflexivity.
Defined.

Section ModelErrors.
Context {F : Type} `{Scalar F} `{Sqrt F}.
Variable llt_matrixL : matrix F -> matrix F.
Variable lower_solve : matrix F -> matrix F -> outcome (matrix F).
Variable random_vector : nat -> Z -> list F.
Variable gradient : list F -> outcome (list F).
Hypothesis gradient_throws : forall q : list F, exists e, gradient q = Throw e.

Lemma hessian_vector_no_return (L : matrix F) (q x v : list F) :
  hessian_vector gradient L q x <> Ret v.
Proof.
  unfold hessian_vector.
  destruct (mat_vec L x) as [Lx | |]; cbn [obind]; try discriminate.
  destruct (vadd q _) as [qp | |]; cbn [obind]; try discriminate.
  destruct (gradient_throws qp) as [e ->]. discriminate.
Qed.

Lemma eigenvalue_scaled_hessian_no_return (L : matrix F) (q : list F)
    (h : heap F) (a : F) :
  (eigenvalue_scaled_hessian random_vector gradient L q h).2 <> Ret a.
Proof.
  unfold eigenvalue_scaled_hessian, random, power_method.
  unfold mbind at 1. rewrite mbind_mget. unfold mbind at 1. unfold lift at 2.
  pose proof (hessian_vector_no_return L q (random_vector (rng h) (vsize q)))
    as Hop.
  destruct (hessian_vector gradient L q _) as [v | e |];
    [now destruct (Hop v) | discriminate | discriminate].
Qed.

Lemma condition_loop_no_return (q : list F) (qs : list (list F))
    (L_dense L_diag : matrix F) (low_dense low_diag c_dense c_diag : F)
    (h : heap F) (c : F * F) :
  (condition_loop random_vector gradient (q :: qs) L_dense L_diag
     low_dense low_diag c_dense c_diag h).2 <> Ret c.
Proof.
  cbn [condition_loop]. unfold mbind at 1.
  pose proof (eigenvalue_scaled_hessian_no_return L_dense q h) as Hfirst.
  destruct (eigenvalue_scaled_hessian _ _ L_dense q h) as [h1 [a | e |]];
    cbn [snd] in *; [now destruct (Hfirst a) | discriminate | discriminate].
Qed.

Lemma learn_pass_selection_no_return (first_draw num_draws : Z) (b b' : bool)
    (h : heap F) :
  last_qs_ (this h) <> [] ->
  (learn_pass llt_matrixL lower_solve random_vector gradient
     Selection first_draw num_draws b h).2 <> Ret b'.
Proof.
  intros Hqs. unfold learn_pass. unfold mbind at 1.
  pose proof (pass_metrics_pure Selection first_draw num_draws h) as Hpure.
  destruct (pass_metrics Selection first_draw num_draws h)
    as [h0 [l | e |]]; cbn [fst] in Hpure; subst h0; try discriminate.
  unfold mbind at 1. cbn [set_covar].
  set (h1 := {| this := this h; covar := dense l; rng := rng h |}).
  unfold mbind at 1.
  pose proof (eigenvalue_scaled_covariance_this lower_solve random_vector
                (llt_matrixL (dense l)) (cov_test l) h1) as Hthis2.
  destruct (eigenvalue_scaled_covariance _ _ (llt_matrixL (dense l)) _ h1)
    as [h2 [e_dense | e |]]; cbn [fst] in Hthis2; try discriminate.
  unfold mbind at 1.
  pose proof (eigenvalue_scaled_covariance_this lower_solve random_vector
                (as_diagonal (map ssqrt (mdiagonal (diag l)))) (cov_test l) h2)
    as Hthis3.
  destruct (eigenvalue_scaled_covariance _ _ (as_diagonal _) _ h2)
    as [h3 [e_diag | e |]]; cbn [fst] in Hthis3; try discriminate.
  rewrite mbind_mget.
  assert (Hqs3 : last_qs_ (this h3) = last_qs_ (this h))
    by (now rewrite Hthis3, Hthis2).
  destruct (last_qs_ (this h3)) as [| q qs]; [now rewrite <- Hqs3 in Hqs |].
  unfold mbind at 1.
  pose proof (condition_loop_no_return q qs (llt_matrixL (dense l))
                (as_diagonal (map ssqrt (mdiagonal (diag l))))
                (sdiv (lit (-1)) e_dense) (sdiv (lit (-1)) e_diag) s0 s0 h3)
    as Hloop.
  destruct (condition_loop _ _ (q :: qs) _ _ _ _ _ _ h3) as [h4 [c | e |]];
    cbn [snd] in *; [now destruct (Hloop c) | discriminate | discriminate].
Qed.

Lemma learn_passes_no_return (first_draw num_draws : Z) (h : heap F) :
  last_qs_ (this h) <> [] ->
  (learn_passes llt_matrixL lower_solve random_vector gradient
     first_draw num_draws h).2 <> Ret tt.
Proof.
  intros Hqs. unfold learn_passes. unfold mbind at 1.
  pose proof (learn_pass_selection_no_return first_draw num_draws false) as Hsel.
  destruct (learn_pass _ _ _ _ Selection _ _ _ h) as [h1 [b | e |]] eqn:Hrun;
    cbn; try discriminate.
  specialize (Hsel b h Hqs). rewrite Hrun in Hsel. now destruct Hsel.
Qed.

End ModelErrors.

Lemma collect_draws_last_qs {F} `{Scalar F} (completed : list Z) (win : Z)
    (h : heap F) :
  last_qs_ (this (collect_draws completed win h).1) = last_qs_ (this h).
Proof.
  unfold collect_draws. rewrite mbind_mget.
  destruct (_ =? _); [| reflexivity].
  unfold mbind at 1.
  pose proof (slots_loop_frame completed h) as Hframe.
  destruct (mfor completed _ h) as [h1 [[] | e |]]; cbn [fst] in Hframe;
    destruct Hframe as (_ & _ & _ & _ & _ & _ & Hqs & _); exact Hqs.
Qed.

(** X30.  With a model whose gradient throws at every point and at least
    one retained draw in [last_qs_], the selection pass cannot get through
    its condition-number loop: whenever [learn_metric] returns, it has
    taken the handler, so [is_diagonal_] is set and [covar] has no
    off-diagonal coefficient other than 0. *)
Theorem learn_metric_model_error {F} `{Scalar F} `{Sqrt F}
    (llt_matrixL : matrix F -> matrix F)
    (lower_solve : matrix F -> matrix F -> outcome (matrix F))
    (random_vector : nat -> Z -> list F)
    (gradient : list F -> outcome (list F))
    (completed : list Z) (win curr_win_count : Z) (h h' : heap F) :
  (forall q : list F, exists e, gradient q = Throw e) ->
  last_qs_ (this h) <> [] ->
  learn_metric llt_matrixL lower_solve random_vector gradient
    completed win curr_win_count h = (h', Ret tt) ->
  is_diagonal_ (this h') = true
  /\ forall i j : nat, i <> j -> mcoeff (covar h') i j = s0.
Proof.
  intros Hgrad Hqs. unfold learn_metric. unfold mbind at 1.
  pose proof (collect_draws_last_qs completed win h) as Hkept.
  destruct (collect_draws completed win h) as [h1 [[] | e |]];
    cbn [fst] in Hkept; try discriminate.
  rewrite mbind_mget.
  destruct (first_draw_of (this h1) win) as [first_draw | e |];
    [| discriminate | discriminate].
  rewrite mbind_lift_ret.
  destruct (num_draws_of (this h1) first_draw) as [n | e |];
    [| discriminate | discriminate].
  rewrite mbind_lift_ret. unfold mcatch.
  rewrite <- Hkept in Hqs.
  pose proof (learn_passes_no_return llt_matrixL lower_solve random_vector
                gradient Hgrad first_draw n h1 Hqs) as Hpasses.
  destruct (learn_passes _ _ _ _ _ _ h1) as [h2 [[] | e |]];
    cbn [snd] in Hpasses; [now destruct Hpasses | | discriminate].
  destruct (is_std_exception e); [| discriminate].
  destruct (learn_fallback_returns n h2) as (m & Hm & ->).
  intros [= <-]. split; [reflexivity |].
  cbn [covar]. rewrite fallback_metric_closed in Hm. injection Hm as <-.
  intros i j Hne. now apply as_diagonal_off.
Qed.

Lemma learn_metric_model_error_witness :
  let o : mpi_auto_adaptation float :=
    {| num_chains_ := 1; n_params_ := 2; window_size_ := 10;
       init_buffer_ := 0; draw_req_counter_ := 0;
       draws_collected_counter_ := 10; last_qs_ := [[1%float; 2%float]];
       draws := [];
       Y_ := {| ncols := 2;
                mdata := map (fun k => [float_of_int k; float_of_int (k * k)])
                             (seqZ 1 10) |};
       is_diagonal_ := false |} in
  let h := {| this := o; covar := mzero 2 2; rng := 0 |} in
  let solve := fun (_ b : matrix float) => Ret b in
  let rnd := fun (_ : nat) (n : Z) => replicate (Z.to_nat n) 1%float in
  let failing := fun (_ : list float) => @Throw (list float) ModelError in
  exists h' : heap float,
    learn_metric (fun a => a) solve rnd failing [] 0 0 h = (h', Ret tt)
    /\ is_diagonal_ (this h') = true
    /\ mcoeff (covar h') 0 1 = 0%float
    /\ mcoeff (covar h') 1 0 = 0%float.
Proof.
  intros o h solve rnd failing.
  pose (h' := fst (learn_metric (fun a => a) solve rnd failing [] 0 0 h)).
  assert (Hrun : learn_metric (fun a => a) solve rnd failing [] 0 0 h
                 = (h', Ret tt)) by (vm_compute; reflexivity).
  assert (Hgrad : forall q : list float, exists e, failing q = Throw e)
    by (intros q; exists ModelError; reflexivity).
  assert (Hqs : last_qs_ (this h) <> []) by discriminate.
  destruct (learn_metric_model_error (fun a => a) solve rnd failing [] 0 0
              h h' Hgrad Hqs Hrun) as [Hdiag Hoff].
  exists h'. split; [exact Hrun |]. split; [exact Hdiag |].
  split; apply Hoff; discriminate.
Defined.
